(** * Query parser of the DB Studio query generator (src/src/parser.py)

    A shallow embedding of [QueryParser]: the schema index, the column
    resolver, the join path finder, the query parser and the SQL builder,
    followed by the properties established about them.

    Conventions of the embedding.
    - Text is a [string] whose characters are code points below 256; the
      character classes ([str.isspace], [\s], [\w], [str.lower]) are the ones
      Python uses on that range.
    - A Python [dict] is an association list in insertion order: assigning to
      an existing key replaces the value in place, a new key goes last.
    - A Python [set] of table names is a duplicate-free list that records the
      insertions; the order in which Python iterates it is the function
      [set_iter] of that list, left abstract.
    - [datetime.strptime] followed by [strftime] is library code and is taken
      as the function [strptime].
    - The fuzzy-search cache is the only mutable state of a parser; it is
      threaded explicitly through every function that can reach it. *)

From Stdlib Require Import String Ascii List ZArith Lia Bool Arith PeanoNat.
From Stdlib Require Import DecimalString Permutation.
Import ListNotations.

Local Open Scope list_scope.
Local Open Scope string_scope.

(* ------------------------------------------------------------------ *)
(** ** Python string operations *)

Module PyStr.

Definition code (c : ascii) : nat := nat_of_ascii c.

Definition in_range (lo hi : nat) (c : ascii) : bool :=
  Nat.leb lo (code c) && Nat.leb (code c) hi.

(** [str.isspace] on one character, also the class [\s] of [re]. *)
Definition is_space (c : ascii) : bool :=
  in_range 9 13 c || in_range 28 32 c
  || Nat.eqb (code c) 133 || Nat.eqb (code c) 160.

(** The class [\w] of [re] on a [str] pattern. *)
Definition is_word (c : ascii) : bool :=
  in_range 48 57 c || in_range 65 90 c || in_range 97 122 c
  || Nat.eqb (code c) 95
  || Nat.eqb (code c) 170 || Nat.eqb (code c) 178 || Nat.eqb (code c) 179
  || Nat.eqb (code c) 181 || Nat.eqb (code c) 185 || Nat.eqb (code c) 186
  || in_range 188 190 c
  || in_range 192 214 c || in_range 216 246 c || in_range 248 255 c.

Definition lower_char (c : ascii) : ascii :=
  if in_range 65 90 c || in_range 192 214 c || in_range 216 222 c
  then ascii_of_nat (code c + 32) else c.

(** [str.upper] on one character.  [chr(223)] becomes two characters; the
    upper-case forms of [chr(181)] and [chr(255)] lie above 255 and are left
    in place (the source only compares upper-cased text with ASCII words). *)
Definition upper_char (c : ascii) : string :=
  if in_range 97 122 c || in_range 224 246 c || in_range 248 254 c
  then String (ascii_of_nat (code c - 32)) EmptyString
  else if Nat.eqb (code c) 223 then "SS"
  else String c EmptyString.

Fixpoint lower (s : string) : string :=
  match s with
  | EmptyString => EmptyString
  | String c s' => String (lower_char c) (lower s')
  end.

Fixpoint upper (s : string) : string :=
  match s with
  | EmptyString => EmptyString
  | String c s' => upper_char c ++ upper s'
  end.

Fixpoint rev_onto (s acc : string) : string :=
  match s with
  | EmptyString => acc
  | String c s' => rev_onto s' (String c acc)
  end.

Definition rev (s : string) : string := rev_onto s EmptyString.

Fixpoint drop (n : nat) (s : string) : string :=
  match n, s with
  | O, _ => s
  | S n', String _ s' => drop n' s'
  | S _, EmptyString => EmptyString
  end.

Fixpoint take (n : nat) (s : string) : string :=
  match n, s with
  | S n', String c s' => String c (take n' s')
  | _, _ => EmptyString
  end.

Fixpoint lstrip_by (f : ascii -> bool) (s : string) : string :=
  match s with
  | String c s' => if f c then lstrip_by f s' else s
  | EmptyString => EmptyString
  end.

Definition strip_by (f : ascii -> bool) (s : string) : string :=
  rev (lstrip_by f (rev (lstrip_by f s))).

(** [s.strip()] *)
Definition strip (s : string) : string := strip_by is_space s.

Fixpoint mem_char (c : ascii) (cs : string) : bool :=
  match cs with
  | EmptyString => false
  | String d cs' => Ascii.eqb c d || mem_char c cs'
  end.

(** [s.strip(chars)] *)
Definition strip_chars (chars s : string) : string :=
  strip_by (fun c => mem_char c chars) s.

(** [s.startswith(p)] *)
Fixpoint startswith (p s : string) : bool :=
  match p, s with
  | EmptyString, _ => true
  | String a p', String b s' => Ascii.eqb a b && startswith p' s'
  | String _ _, EmptyString => false
  end.

(** [s.endswith(p)] *)
Definition endswith (p s : string) : bool := startswith (rev p) (rev s).

(** [s.find(sub)], [None] for -1. *)
Fixpoint find (sub s : string) : option nat :=
  if startswith sub s then Some 0
  else match s with
       | EmptyString => None
       | String _ s' => option_map S (find sub s')
       end.

(** [sub in s] *)
Definition contains (sub s : string) : bool :=
  match find sub s with Some _ => true | None => false end.

(** Splitting and replacing walk the text once; [skip] counts the characters
    of a separator that was recognised at an earlier position and [cur] holds
    the current piece, reversed. *)
Fixpoint split_go (sep s : string) (skip : nat) (cur : string) : list string :=
  match s with
  | EmptyString => [rev cur]
  | String c s' =>
      match skip with
      | S k => split_go sep s' k cur
      | O => if startswith sep s
             then rev cur :: split_go sep s' (String.length sep - 1) EmptyString
             else split_go sep s' 0 (String c cur)
      end
  end.

(** [s.split(sep)] for a non-empty separator. *)
Definition split (sep s : string) : list string := split_go sep s 0 EmptyString.

(** [s.split(sep, 1)] when [sep in s]: the text before the first [sep] and
    the text behind it; [None] when [sep] does not occur. *)
Definition cut (sep s : string) : option (string * string) :=
  match find sep s with
  | None => None
  | Some i => Some (take i s, drop (i + String.length sep) s)
  end.

Fixpoint split_ws_go (s cur : string) (inword : bool) : list string :=
  match s with
  | EmptyString => if inword then [rev cur] else []
  | String c s' =>
      if is_space c
      then (if inword then rev cur :: split_ws_go s' EmptyString false
            else split_ws_go s' EmptyString false)
      else split_ws_go s' (String c cur) true
  end.

(** [s.split()] *)
Definition split_ws (s : string) : list string := split_ws_go s EmptyString false.

Fixpoint take_while (f : ascii -> bool) (s : string) : string :=
  match s with
  | String c s' => if f c then String c (take_while f s') else EmptyString
  | EmptyString => EmptyString
  end.

(** [s.split(None, 1)]: leading whitespace is dropped, the first word is cut
    at the first whitespace run and the rest keeps everything after that run
    (trailing whitespace included). *)
Definition split_ws1 (s : string) : list string :=
  let s1 := lstrip_by is_space s in
  match s1 with
  | EmptyString => []
  | _ =>
      let w := take_while (fun c => negb (is_space c)) s1 in
      let r := lstrip_by is_space (drop (String.length w) s1) in
      match r with
      | EmptyString => [w]
      | _ => [w; r]
      end
  end.

Fixpoint replace_go (old new s : string) (skip : nat) : string :=
  match s with
  | EmptyString => EmptyString
  | String c s' =>
      match skip with
      | S k => replace_go old new s' k
      | O => if startswith old s
             then new ++ replace_go old new s' (String.length old - 1)
             else String c (replace_go old new s' 0)
      end
  end.

(** [s.replace(old, new)] for a non-empty [old]. *)
Definition replace (old new s : string) : string := replace_go old new s 0.

(** [sep.join(l)] *)
Fixpoint join (sep : string) (l : list string) : string :=
  match l with
  | [] => EmptyString
  | [x] => x
  | x :: rest => x ++ sep ++ join sep rest
  end.

(** Membership of a string in a list or set of strings. *)
Definition mem (x : string) (l : list string) : bool :=
  existsb (String.eqb x) l.

(** [str(n)] for an integer. *)
Definition of_Z (z : Z) : string := NilEmpty.string_of_int (Z.to_int z).

End PyStr.

(* ------------------------------------------------------------------ *)
(** ** The three regular expressions of the parser

    Each pattern is matched the way [re] does: the text is scanned from the
    left, at every position the pattern is tried, and after a match the scan
    resumes behind it.  None of the patterns matches the empty string. *)

Module PyRe.
Import PyStr.

(** Length of a match of [\s+kw\s+] (ignoring case) at the start of [s].
    Both [\s+] are greedy; giving back whitespace never helps, since the next
    character of the pattern is not whitespace. *)
Definition match_ws_kw (kw s : string) : option nat :=
  let n1 := String.length (take_while is_space s) in
  match n1 with
  | O => None
  | S _ =>
      let r := drop n1 s in
      let k := String.length kw in
      if String.eqb (lower (take k r)) kw
      then match String.length (take_while is_space (drop k r)) with
           | O => None
           | S n2 => Some (n1 + k + S n2)
           end
      else None
  end.

(** Length of a match of [\s+and\s+|,] at the start of [s]. *)
Definition match_and_or_comma (s : string) : option nat :=
  match match_ws_kw "and" s with
  | Some n => Some n
  | None => if startswith "," s then Some 1 else None
  end.

Fixpoint split_go (m : string -> option nat) (s : string) (skip : nat)
    (cur : string) : list string :=
  match s with
  | EmptyString => [rev cur]
  | String c s' =>
      match skip with
      | S k => split_go m s' k cur
      | O => match m s with
             | Some n => rev cur :: split_go m s' (n - 1) EmptyString
             | None => split_go m s' 0 (String c cur)
             end
      end
  end.

(** [re.split(r'\s+and\s+|,', s, flags=re.IGNORECASE)] *)
Definition split_and_or_comma (s : string) : list string :=
  split_go match_and_or_comma s 0 EmptyString.

(** [re.split(r'\s+to\s+', s, flags=re.IGNORECASE)] *)
Definition split_to (s : string) : list string :=
  split_go (match_ws_kw "to") s 0 EmptyString.

(** [re.split(r'[/|]', s)] *)
Definition split_slash_bar (s : string) : list string :=
  split_go (fun r => if startswith "/" r || startswith "|" r
                     then Some 1 else None) s 0 EmptyString.

Definition is_quote (c : ascii) : bool := Nat.eqb (code c) 34.

(** A match of [QwQ.QwQ], where [Q] is the double quote, [w] is [(\w+)] and
    the dot is the dot of the pattern, at the start of [s]: the two groups and the
    length of the match.  The dot matches any character but a line feed. *)
Definition match_quoted_pair (s : string) : option (string * string * nat) :=
  match s with
  | String q1 r1 =>
      let w1 := take_while is_word r1 in
      match w1, drop (String.length w1) r1 with
      | String _ _, String q2 (String d (String q3 r3)) =>
          let w2 := take_while is_word r3 in
          match w2, drop (String.length w2) r3 with
          | String _ _, String q4 _ =>
              if is_quote q1 && is_quote q2 && is_quote q3 && is_quote q4
                 && negb (Nat.eqb (code d) 10)
              then Some (w1, w2, String.length w1 + String.length w2 + 5)
              else None
          | _, _ => None
          end
      | _, _ => None
      end
  | EmptyString => None
  end.

Fixpoint findall_go (s : string) (skip : nat) : list (string * string) :=
  match s with
  | EmptyString => []
  | String _ s' =>
      match skip with
      | S k => findall_go s' k
      | O => match match_quoted_pair s with
             | Some (a, b, n) => (a, b) :: findall_go s' (n - 1)
             | None => findall_go s' 0
             end
      end
  end.

(** [re.findall] of that pattern on [s] *)
Definition findall_quoted_pair (s : string) : list (string * string) :=
  findall_go s 0.

(** [VALID_IDENTIFIER_PATTERN.match(s)] for [^[a-zA-Z_][a-zA-Z0-9_]*$]: the
    [$] of [re] also matches just before a final line feed. *)
Definition is_ident_start (c : ascii) : bool :=
  in_range 65 90 c || in_range 97 122 c || Nat.eqb (code c) 95.

Definition is_ident_char (c : ascii) : bool :=
  is_ident_start c || in_range 48 57 c.

Definition match_identifier (s : string) : bool :=
  match s with
  | EmptyString => false
  | String c r =>
      is_ident_start c &&
      (let tail := drop (String.length (take_while is_ident_char r)) r in
       String.eqb tail "" || String.eqb tail (String (ascii_of_nat 10) ""))
  end.

End PyRe.

(* ------------------------------------------------------------------ *)
(** ** Data model *)

(** A bound parameter: query values are text, status values and the values
    of default filters come from the configuration. *)
Inductive value := VStr (s : string) | VBool (b : bool) | VInt (z : Z) | VNone.

(** The exceptions the parser can raise. *)
Inductive error := ValueError (msg : string) | IndexError.

Inductive result (A : Type) := Ok (a : A) | Raise (e : error).
Arguments Ok {A} a.
Arguments Raise {A} e.

(** One column of [schema_cache[table]['columns']]. *)
Record schema_col := { name : string; type : string }.

(** One entry of [relations_cache[from_table]]. *)
Record relation := { from_column : string; to_table : string; to_column : string }.

(** One entry of [reverse_relations[to_table]]. *)
Record reverse_relation :=
  { from_table : string; rev_from_column : string; rev_to_column : string }.

(** The dict [{'table': .., 'column': ..}], with the optional key
    ['aggregate'] that [parse] adds to a selected column. *)
Record col_info := { table : string; column : string; aggregate : option string }.

Definition mk_col (t c : string) : col_info :=
  {| table := t; column := c; aggregate := None |}.

Inductive join_type := outgoing | incoming.

Record join_info :=
  { jtype : join_type; base_column : string; target_column : string }.

Record default_filter :=
  { flt_column : string; flt_op : option string; flt_value : value }.

(** The configuration after the [config.get(key, default)] of [__init__]. *)
Record config := {
  custom_mappings : list (string * col_info);
  status_mappings : list (string * (string * value));
  status_keywords : list string;
  default_filters : list (string * list default_filter);
  preferred_paths : list ((string * string) * list string)
}.

(** [config=None]: every [get] falls back to its default. *)
Definition no_config : config :=
  {| custom_mappings := []; status_mappings := [];
     status_keywords := ["status"; "state"; "kondisi"];
     default_filters := []; preferred_paths := [] |}.

Definition schema := list (string * list schema_col).
Definition relations := list (string * list relation).
Definition column_map_t := list (string * list col_info).

Record QueryParser := {
  schema_cache : schema;
  relations_cache : relations;
  cfg : config;
  column_map : column_map_t;
  table_columns : list (string * list string);
  reverse_relations : list (string * list reverse_relation)
}.

(** ** Dicts *)

Fixpoint dict_get {V : Type} (k : string) (d : list (string * V)) : option V :=
  match d with
  | [] => None
  | (k', v) :: d' => if String.eqb k k' then Some v else dict_get k d'
  end.

(** [d[k] = v] *)
Fixpoint dict_set {V : Type} (k : string) (v : V) (d : list (string * V))
    : list (string * V) :=
  match d with
  | [] => [(k, v)]
  | (k', v') :: d' =>
      if String.eqb k k' then (k, v) :: d' else (k', v') :: dict_set k v d'
  end.

Definition dict_has {V : Type} (k : string) (d : list (string * V)) : bool :=
  match dict_get k d with Some _ => true | None => false end.

(** ** Sets of table names *)

Definition set_add (x : string) (s : list string) : list string :=
  if PyStr.mem x s then s else (s ++ [x])%list.

Definition set_of_list (l : list string) : list string :=
  fold_left (fun s x => set_add x s) l [].

(* ------------------------------------------------------------------ *)
(** ** Schema index *)

Definition same_column (a b : col_info) : bool :=
  String.eqb (table a) (table b) && String.eqb (column a) (column b).

Definition _add_to_map (cm : column_map_t) (key : string) (ci : col_info)
    (unique : bool) : column_map_t :=
  match dict_get key cm with
  | Some existing =>
      if unique then dict_set key [ci] cm
      else if existsb (fun e => same_column e ci) existing then cm
      else dict_set key (existing ++ [ci])%list cm
  | None => dict_set key [ci] cm
  end.

Definition common_cols : list string :=
  ["name"; "id"; "code"; "type"; "status"; "date"; "description"; "title"].

(** The body of the inner loop of [_build_column_map] for one column. *)
Definition map_column (tbl : string) (cm : column_map_t) (col : schema_col)
    : column_map_t :=
  let col_name := PyStr.lower (name col) in
  let ci := mk_col tbl (name col) in
  let cm := _add_to_map cm col_name ci false in
  let key_dot := tbl ++ "." ++ col_name in
  let cm := _add_to_map cm key_dot ci true in
  let cm := if PyStr.mem col_name common_cols
            then _add_to_map cm (tbl ++ "_" ++ col_name) ci true else cm in
  let key_no_underscore := PyStr.replace "_" "" col_name in
  if negb (String.eqb key_no_underscore col_name)
  then _add_to_map cm key_no_underscore ci false else cm.

Definition map_table (st : column_map_t * list (string * list string))
    (entry : string * list schema_col) :=
  let '(tbl, cols) := entry in
  (fold_left (map_column tbl) cols (fst st),
   dict_set tbl (map name cols) (snd st)).

(** [_build_column_map]: the column map and [table_columns]. *)
Definition _build_column_map (sc : schema) (c : config)
    : column_map_t * list (string * list string) :=
  let st := fold_left map_table sc ([], []) in
  (fold_left (fun cm a => dict_set (PyStr.lower (fst a)) [snd a] cm)
             (custom_mappings c) (fst st),
   snd st).

Definition add_reverse (from : string)
    (rr : list (string * list reverse_relation)) (rel : relation) :=
  let old := match dict_get (to_table rel) rr with Some l => l | None => [] end in
  dict_set (to_table rel)
    (old ++ [{| from_table := from; rev_from_column := from_column rel;
                rev_to_column := to_column rel |}])%list rr.

Definition _build_reverse_relations (rc : relations)
    : list (string * list reverse_relation) :=
  fold_left (fun rr e => fold_left (add_reverse (fst e)) (snd e) rr) rc [].

(** [QueryParser.__init__]; [relations_cache=None] is the empty dict and
    [config=None] is [no_config].  The body has no [raise]. *)
Definition new_parser (sc : schema) (rc : relations) (c : config)
    : result QueryParser :=
  let cm := _build_column_map sc c in
  Ok {| schema_cache := sc; relations_cache := rc; cfg := c;
        column_map := fst cm; table_columns := snd cm;
        reverse_relations := _build_reverse_relations rc |}.

(* ------------------------------------------------------------------ *)
(** ** Join path finder *)

Definition path := list (string * join_info).

Definition get_related_tables (p : QueryParser) (base_table : string)
    : list (string * join_info) :=
  let out :=
    match dict_get base_table (relations_cache p) with
    | Some rels =>
        fold_left (fun related rel =>
          dict_set (to_table rel)
            {| jtype := outgoing; base_column := from_column rel;
               target_column := to_column rel |} related) rels []
    | None => []
    end in
  match dict_get base_table (reverse_relations p) with
  | Some rels =>
      fold_left (fun related rel =>
        if dict_has (from_table rel) related then related
        else dict_set (from_table rel)
               {| jtype := incoming; base_column := rev_to_column rel;
                  target_column := rev_from_column rel |} related) rels out
  | None => out
  end.

Definition irrelevant_tables : list string :=
  ["file_content"; "attachment"; "document_history"; "file_history"].

Definition _score_relation (from to : string) (ji : join_info) : nat :=
  if PyStr.mem to irrelevant_tables || PyStr.mem from irrelevant_tables then 10
  else match jtype ji with
       | incoming =>
           let expected_fk := from ++ "_id" in
           if String.eqb (target_column ji) expected_fk
              || String.eqb (target_column ji) "id" then 0
           else if PyStr.endswith "_id" (target_column ji)
                   && PyStr.contains from (target_column ji) then 0
           else 1
       | outgoing =>
           let expected_fk := to ++ "_id" in
           if String.eqb (base_column ji) expected_fk then 0
           else if PyStr.endswith "_id" (base_column ji)
                   && PyStr.contains to (base_column ji) then 1
           else 2
       end.

Fixpoint _build_preferred_path (p : QueryParser) (current : string)
    (hops : list string) : option path :=
  match hops with
  | [] => Some []
  | next_table :: rest =>
      match dict_get next_table (get_related_tables p current) with
      | None => None
      | Some ji =>
          match _build_preferred_path p next_table rest with
          | Some tl => Some ((next_table, ji) :: tl)
          | None => None
          end
      end
  end.

(** A heap entry [(score, counter, current_table, path)]. *)
Record entry := { e_score : nat; e_counter : nat; e_table : string; e_path : path }.

Definition entry_le (a b : entry) : bool :=
  Nat.ltb (e_score a) (e_score b)
  || (Nat.eqb (e_score a) (e_score b) && Nat.leb (e_counter a) (e_counter b)).

(** The heap is kept as the list of its entries in increasing order of
    [(score, counter)]; counters are distinct, so [heappop] always takes the
    head, as it does on the binary heap of [heapq]. *)
Fixpoint heappush (h : list entry) (e : entry) : list entry :=
  match h with
  | [] => [e]
  | x :: h' => if entry_le x e then x :: heappush h' e else e :: h
  end.

Record search_state := { heap : list entry; visited : list string; counter : nat }.

(** The [for next_table, join_info in related.items()] of both loops of
    [find_join_path]: [inl] is the [return] of a path. *)
Fixpoint expand (target current : string) (current_score : nat) (pth : path)
    (related : list (string * join_info)) (st : search_state)
    : path + search_state :=
  match related with
  | [] => inr st
  | (next_table, ji) :: rest =>
      if String.eqb next_table target then inl (pth ++ [(target, ji)])%list
      else if PyStr.mem next_table (visited st)
      then expand target current current_score pth rest st
      else
        let new_score := current_score + _score_relation current next_table ji in
        expand target current current_score pth rest
          {| heap := heappush (heap st)
                       {| e_score := new_score; e_counter := counter st;
                          e_table := next_table;
                          e_path := (pth ++ [(next_table, ji)])%list |};
             visited := set_add next_table (visited st);
             counter := S (counter st) |}
  end.

(** The [while heap] loop.  The loop is given [fuel] iterations and [None]
    means that they did not suffice; [search_fuel] below always suffices. *)
Fixpoint search_loop (p : QueryParser) (target : string) (fuel : nat)
    (st : search_state) : option (option path) :=
  match fuel with
  | O => None
  | S fuel' =>
      match heap st with
      | [] => Some None
      | e :: h' =>
          match expand target (e_table e) (e_score e) (e_path e)
                  (get_related_tables p (e_table e))
                  {| heap := h'; visited := visited st; counter := counter st |} with
          | inl found => Some (Some found)
          | inr st' => search_loop p target fuel' st'
          end
      end
  end.

(** Every table the search can meet: the tables the relations point to and
    the tables the reverse relations come from. *)
Definition graph_tables (p : QueryParser) : list string :=
  List.app
    (flat_map (fun e => map to_table (snd e)) (relations_cache p))
    (flat_map (fun e => map from_table (snd e)) (reverse_relations p)).

Definition search_fuel (p : QueryParser) : nat := S (List.length (graph_tables p)).

(** The scored search of [find_join_path] (its second part). *)
Definition scored_search (p : QueryParser) (fuel : nat) (base target : string)
    : option (option path) :=
  match expand target base 0 [] (get_related_tables p base)
          {| heap := []; visited := [base]; counter := 0 |} with
  | inl found => Some (Some found)
  | inr st => search_loop p target fuel st
  end.

Fixpoint pair_get {V : Type} (k : string * string)
    (d : list ((string * string) * V)) : option V :=
  match d with
  | [] => None
  | (k', v) :: d' =>
      if String.eqb (fst k) (fst k') && String.eqb (snd k) (snd k')
      then Some v else pair_get k d'
  end.

Definition find_join_path (p : QueryParser) (base target : string) : option path :=
  if String.eqb base target then Some []
  else
    let auto :=
      match scored_search p (search_fuel p) base target with
      | Some r => r
      | None => None
      end in
    match pair_get (base, target) (preferred_paths (cfg p)) with
    | Some preferred =>
        match _build_preferred_path p base (preferred ++ [target])%list with
        | Some (hop :: rest) => Some (hop :: rest)
        | _ => auto
        end
    | None => auto
    end.

(* ------------------------------------------------------------------ *)
(** ** State and exceptions

    [_fuzzy_cache] is the state; a computation returns its result or the
    exception it raised, together with the cache it leaves behind. *)

Definition fuzzy_cache := list (string * list col_info).

Definition M (A : Type) : Type := fuzzy_cache -> result A * fuzzy_cache.

Definition ret {A : Type} (a : A) : M A := fun c => (Ok a, c).

Definition raise {A : Type} (e : error) : M A := fun c => (Raise e, c).

Definition bind {A B : Type} (m : M A) (k : A -> M B) : M B :=
  fun c => match m c with
           | (Ok a, c') => k a c'
           | (Raise e, c') => (Raise e, c')
           end.

Notation "x <- m ;; k" := (bind m (fun x => k))
  (at level 61, m at next level, right associativity).

(** A [for] loop over [l] that updates [acc] and can raise. *)
Fixpoint for_each {A S : Type} (body : S -> A -> M S) (l : list A) (acc : S)
    : M S :=
  match l with
  | [] => ret acc
  | x :: rest => acc' <- body acc x ;; for_each body rest acc'
  end.

(* ------------------------------------------------------------------ *)
(** ** Column resolver *)

Definition _get_matches (p : QueryParser) (key : string) : list col_info :=
  match dict_get key (column_map p) with
  | Some l => l
  | None => []
  end.

(** The score [_fuzzy_search] gives to one column, [None] when it is not a
    match. *)
Definition fuzzy_score (search_term search_clean col : string) : option nat :=
  let col_lower := PyStr.lower col in
  let col_clean := PyStr.replace "_" "" col_lower in
  if String.eqb col_lower search_term then Some 100
  else if PyStr.contains search_term col_lower then Some 80
  else if PyStr.contains col_lower search_term then Some 70
  else if String.eqb col_clean search_clean then Some 90
  else if PyStr.contains search_clean col_clean then Some 60
  else None.

(** [list.sort(key=score, reverse=True)]: stable, highest score first. *)
Fixpoint insert_desc {A : Type} (x : nat * A) (l : list (nat * A)) : list (nat * A) :=
  match l with
  | [] => [x]
  | y :: l' => if Nat.ltb (fst x) (fst y) then y :: insert_desc x l' else x :: l
  end.

Definition sort_desc {A : Type} (l : list (nat * A)) : list (nat * A) :=
  fold_right insert_desc [] l.

(** The list [_fuzzy_search] computes when the term is not cached. *)
Definition fuzzy_matches (p : QueryParser) (search_term : string) : list col_info :=
  let search_clean := PyStr.replace " " "" (PyStr.replace "_" "" search_term) in
  let scored :=
    flat_map (fun tc =>
      flat_map (fun col =>
        match fuzzy_score search_term search_clean col with
        | Some sc => [(sc, mk_col (fst tc) col)]
        | None => []
        end) (snd tc)) (table_columns p) in
  map snd (sort_desc scored).

Definition _fuzzy_search (p : QueryParser) (search_term : string)
    : M (list col_info) :=
  fun cache =>
    match dict_get search_term cache with
    | Some r => (Ok r, cache)
    | None =>
        let r := fuzzy_matches p search_term in
        (Ok r, if Nat.ltb (List.length cache) 1000
               then dict_set search_term r cache else cache)
    end.

Definition core_tables : list string :=
  ["job"; "job_detail"; "job_schedule"; "talent"; "company"; "payment"].

(** The score [_select_best_match] gives to one candidate. *)
Definition match_score (p : QueryParser) (search_term : string)
    (prefer_table : option string) (m : col_info) : nat :=
  let tbl := PyStr.lower (table m) in
  let first_part := hd "" (PyStr.split "_" (PyStr.lower search_term)) in
  (match prefer_table with
   | Some pt => if negb (String.eqb pt "") && String.eqb tbl (PyStr.lower pt)
                then 100 else 0
   | None => 0
   end)
  + (if String.eqb tbl first_part then 50
     else if PyStr.startswith first_part tbl then 30 else 0)
  + (if PyStr.mem tbl core_tables then 20 else 0)
  + (if dict_has tbl (relations_cache p) then 10 else 0)
  + (if String.eqb (PyStr.lower (column m)) search_term then 5 else 0).

Definition _select_best_match (p : QueryParser) (matches : list col_info)
    (search_term : string) (prefer_table : option string) : option col_info :=
  match sort_desc (map (fun m => (match_score p search_term prefer_table m, m))
                       matches) with
  | [] => None
  | (_, m) :: _ => Some m
  end.

(** Step 1 of [find_column]: the first column that fits, in the first table
    that has one, for a qualified name [table_hint.col_name]. *)
Definition find_qualified (p : QueryParser) (table_hint col_name : string)
    : option col_info :=
  let hit_col c :=
    String.eqb (PyStr.lower c) col_name
    || String.eqb (PyStr.replace "_" "" (PyStr.lower c))
                  (PyStr.replace "_" "" col_name) in
  let fix scan (tcs : list (string * list string)) : option col_info :=
    match tcs with
    | [] => None
    | (tbl, cols) :: rest =>
        if String.eqb (PyStr.lower tbl) table_hint
           || PyStr.startswith table_hint (PyStr.lower tbl)
        then match List.find hit_col cols with
             | Some c => Some (mk_col tbl c)
             | None => scan rest
             end
        else scan rest
    end in
  scan (table_columns p).

Definition is_empty {A : Type} (l : list A) : bool :=
  match l with [] => true | _ => false end.

Definition find_column (p : QueryParser) (col_part0 : string)
    (prefer_table : option string) : M (option col_info) :=
  let col_part := PyStr.lower (PyStr.strip col_part0) in
  let qualified :=
    match PyStr.cut "." col_part with
    | Some (table_hint, col_name) => find_qualified p table_hint col_name
    | None => None
    end in
  match qualified with
  | Some ci => ret (Some ci)
  | None =>
      let matches := _get_matches p col_part in
      let matches :=
        if is_empty matches then
          let col_part_space := PyStr.replace "_" " " col_part in
          if negb (String.eqb col_part_space col_part)
          then _get_matches p col_part_space else matches
        else matches in
      let matches :=
        if is_empty matches
        then _get_matches p (PyStr.replace "_" "" col_part) else matches in
      matches <- (if is_empty matches then _fuzzy_search p col_part
                  else ret matches) ;;
      match matches with
      | [] => ret None
      | [m] => ret (Some m)
      | _ => ret (_select_best_match p matches col_part prefer_table)
      end
  end.

Definition find_all_columns (p : QueryParser) (col_part0 : string)
    : M (list col_info) :=
  let col_part := PyStr.lower (PyStr.strip col_part0) in
  let matches := _get_matches p col_part in
  let matches :=
    if is_empty matches
    then _get_matches p (PyStr.replace "_" " " col_part) else matches in
  if is_empty matches then _fuzzy_search p col_part else ret matches.

Definition find_column_for_base (p : QueryParser) (col_part0 : string)
    (base_table : option string) : M (option col_info) :=
  let col_part := PyStr.lower (PyStr.strip col_part0) in
  if PyStr.contains "." col_part then find_column p col_part None
  else
    let matches := _get_matches p col_part in
    let matches :=
      if is_empty matches then
        let col_part_space := PyStr.replace "_" " " col_part in
        if negb (String.eqb col_part_space col_part)
        then _get_matches p col_part_space else matches
      else matches in
    let matches :=
      if is_empty matches then
        let col_part_underscore := PyStr.replace " " "_" col_part in
        if negb (String.eqb col_part_underscore col_part)
        then _get_matches p col_part_underscore else matches
      else matches in
    matches <- (if is_empty matches then _fuzzy_search p col_part
                else ret matches) ;;
    match matches with
    | [] => ret None
    | [m] => ret (Some m)
    | _ =>
        let by_relation :=
          match base_table with
          | Some bt =>
              if String.eqb bt "" then None
              else
                match List.find (fun m => String.eqb (table m) bt) matches with
                | Some m => Some m
                | None =>
                    let related := get_related_tables p bt in
                    match List.find (fun m => dict_has (table m) related) matches with
                    | Some m => Some m
                    | None =>
                        List.find (fun m =>
                          match find_join_path p bt (table m) with
                          | Some _ => true
                          | None => false
                          end) matches
                    end
                end
          | None => None
          end in
        match by_relation with
        | Some m => ret (Some m)
        | None => ret (_select_best_match p matches col_part base_table)
        end
    end.

Definition table_cols (p : QueryParser) (tbl : string) : list schema_col :=
  match dict_get tbl (schema_cache p) with
  | Some cols => cols
  | None => []
  end.

Definition _get_column_type (p : QueryParser) (tbl col : string) : string :=
  match List.find (fun c => String.eqb (PyStr.lower (name c)) (PyStr.lower col))
                  (table_cols p tbl) with
  | Some c => PyStr.lower (type c)
  | None => ""
  end.

Definition _column_exists (p : QueryParser) (tbl col : string) : bool :=
  existsb (fun c => String.eqb (PyStr.lower (name c)) (PyStr.lower col))
          (table_cols p tbl).

(** The body of the loop of [find_boolean_column_for_status] for one status
    value: the pair it appends to [results], if any. *)
Definition status_column (p : QueryParser) (tbl : string) (status_val0 : string)
    : option (col_info * value) :=
  let columns := table_cols p tbl in
  let bool_cols :=
    map name (filter (fun c => PyStr.mem (type c) ["boolean"; "bool"]) columns) in
  let is_cols :=
    filter (fun c => PyStr.startswith "is_" (PyStr.lower c)) bool_cols in
  let status_val := PyStr.lower (PyStr.strip status_val0) in
  let is_col target :=
    List.find (fun c => String.eqb (PyStr.lower c) target) is_cols in
  let mapped :=
    match dict_get status_val (status_mappings (cfg p)) with
    | Some (bool_col_name, bool_value) =>
        if PyStr.mem bool_col_name bool_cols
        then Some (mk_col tbl bool_col_name, bool_value) else None
    | None => None
    end in
  match mapped with
  | Some r => Some r
  | None =>
      let negated :=
        if PyStr.startswith "not_" status_val then
          let base_status := PyStr.drop 4 status_val in
          let mapped_not :=
            match dict_get base_status (status_mappings (cfg p)) with
            | Some (bool_col_name, _) =>
                if PyStr.mem bool_col_name bool_cols
                then Some (mk_col tbl bool_col_name, VBool false) else None
            | None => None
            end in
          match mapped_not with
          | Some r => Some r
          | None =>
              match is_col ("is_" ++ base_status) with
              | Some c => Some (mk_col tbl c, VBool false)
              | None => None
              end
          end
        else None in
      match negated with
      | Some r => Some r
      | None =>
          match is_col ("is_" ++ status_val) with
          | Some c => Some (mk_col tbl c, VBool true)
          | None =>
              match List.find (fun c =>
                      let col_suffix := PyStr.replace "is_" "" (PyStr.lower c) in
                      PyStr.contains status_val col_suffix
                      || PyStr.startswith status_val col_suffix) is_cols with
              | Some c => Some (mk_col tbl c, VBool true)
              | None => None
              end
          end
      end
  end.

(** [find_boolean_column_for_status]: [None] when nothing was found. *)
Definition find_boolean_column_for_status (p : QueryParser) (tbl : string)
    (status_values : list string) : option (list (col_info * value)) :=
  let results :=
    flat_map (fun v => match status_column p tbl v with
                       | Some r => [r]
                       | None => []
                       end) status_values in
  match results with
  | [] => None
  | _ => Some results
  end.

(* ------------------------------------------------------------------ *)
(** ** Query parser *)

Definition dq : string := String (ascii_of_nat 34) EmptyString.
Definition nl : string := String (ascii_of_nat 10) EmptyString.

(** The text [QtQ.QcQ] that quotes a column ([Q] is the double quote). *)
Definition col_ref (t c : string) : string :=
  dq ++ t ++ dq ++ "." ++ dq ++ c ++ dq.

Record ParsedQuery := {
  select_columns : list col_info;
  base_table : option string;
  where_parts : list string;
  params : list value;
  where_tables : list string;
  order_by : option string;
  order_dir : string
}.

(** The lists [where_parts], [params] and [where_tables] that the condition
    functions extend.  They are locals of [parse]: when a condition raises,
    [parse] raises and they are gone. *)
Record conds := {
  c_where : list string;
  c_params : list value;
  c_tables : list string
}.

Definition no_conds : conds := {| c_where := []; c_params := []; c_tables := [] |}.

Definition DATE_FORMATS : list string :=
  ["%Y-%m-%d"; "%d-%m-%Y"; "%d/%m/%Y"; "%Y/%m/%d"; "%d.%m.%Y"; "%Y%m%d"].

Definition priority_tables : list string := ["job"; "job_detail"; "job_schedule"].

Definition _detect_optimal_base_table (select_columns : list col_info)
    (current_base : option string) : option string :=
  let tables_in_query := map table select_columns in
  match List.find (fun t => PyStr.mem t tables_in_query) priority_tables with
  | Some t => Some t
  | None => current_base
  end.

(** The result of [_parse_order_where]. *)
Record order_where := {
  ow_columns : string;
  ow_conditions : option string;
  ow_order_by : option string;
  ow_order_dir : string
}.

Definition _parse_order_where (query_part0 : string) : order_where :=
  let '(query_part, order_by, order_dir) :=
    match PyStr.find " order by " (PyStr.lower query_part0) with
    | Some idx =>
        let order_part := PyStr.strip (PyStr.drop (idx + 10) query_part0) in
        let order_parts := PyStr.split_ws order_part in
        (PyStr.strip (PyStr.take idx query_part0),
         match order_parts with
         | [] => None
         | first :: _ => Some first
         end,
         match order_parts with
         | _ :: _ :: _ =>
             let d := PyStr.upper (last order_parts EmptyString) in
             if PyStr.mem d ["ASC"; "DESC"] then d else "ASC"
         | _ => "ASC"
         end)
    | None => (query_part0, None, "ASC")
    end in
  let cut (kw : string) : option order_where :=
    match PyStr.find kw (PyStr.lower query_part) with
    | Some idx =>
        Some {| ow_columns := PyStr.strip (PyStr.take idx query_part);
                ow_conditions :=
                  Some (PyStr.strip (PyStr.drop (idx + String.length kw) query_part));
                ow_order_by := order_by; ow_order_dir := order_dir |}
    | None => None
    end in
  match cut " where " with
  | Some r => r
  | None =>
      match cut " when " with
      | Some r => r
      | None => {| ow_columns := query_part; ow_conditions := None;
                   ow_order_by := order_by; ow_order_dir := order_dir |}
      end
  end.

Definition truthy (s : option string) : bool :=
  match s with
  | Some t => negb (String.eqb t EmptyString)
  | None => false
  end.

Definition date_types : list string :=
  ["timestamp"; "timestamptz"; "date"; "timestamp with time zone";
   "timestamp without time zone"].

Definition text_types : list string :=
  ["text"; "varchar"; "character varying"; "char"; "character"; "name"].

Definition status_values : list string :=
  ["completed"; "done"; "finished"; "yes"; "true"; "ada"].

Definition empty_values : list string :=
  ["none"; "null"; "empty"; "kosong"; "belum"; "no"; "false"; "tidak"].

Definition comparison_ops : list string :=
  [">="; "<="; "!="; "<>"; ">"; "<"; "="].

Definition aggregate_funcs : list string := ["count"; "sum"; "avg"; "min"; "max"].

(** The values of a condition: [val_part] cut at every slash and bar when it
    has one, lower-cased. *)
Definition condition_values (val_part : string) : list string :=
  if PyStr.contains "/" val_part || PyStr.contains "|" val_part
  then map (fun v => PyStr.lower (PyStr.strip v))
           (filter (fun v => negb (String.eqb (PyStr.strip v) EmptyString))
                   (PyRe.split_slash_bar val_part))
  else [PyStr.lower val_part].

Definition is_status_condition (p : QueryParser) (col_part : string) : bool :=
  existsb (fun kw => PyStr.contains kw (PyStr.lower col_part))
          (status_keywords (cfg p)).

(** [' OR '.join(or_conditions)], in parentheses when there are several. *)
Definition or_group (or_conditions : list string) : string :=
  match or_conditions with
  | [one] => one
  | _ => "(" ++ PyStr.join " OR " or_conditions ++ ")"
  end.

(** What [_add_condition] does once the column is resolved. *)
Definition add_column_condition (p : QueryParser) (ci : col_info)
    (values : list string) (op : string) (acc : conds) : M conds :=
  let acc := {| c_where := c_where acc; c_params := c_params acc;
                c_tables := set_add (table ci) (c_tables acc) |} in
  let ref := col_ref (table ci) (column ci) in
  let col_name := PyStr.lower (column ci) in
  let col_type := _get_column_type p (table ci) (column ci) in
  let push (w : string) (ps : list value) : conds :=
    {| c_where := List.app (c_where acc) [w];
       c_params := List.app (c_params acc) ps;
       c_tables := c_tables acc |} in
  let single (f : string -> bool) : bool :=
    match values with
    | [v] => f v
    | _ => false
    end in
  let dated : option conds :=
    if PyStr.mem col_type date_types then
      if single (fun v => PyStr.mem v status_values) then
        let base_col_name :=
          PyStr.replace "_at" EmptyString
            (PyStr.replace "_date" EmptyString
               (PyStr.replace "_on" EmptyString col_name)) in
        match List.find (_column_exists p (table ci))
                ["is_" ++ base_col_name; "is_" ++ base_col_name ++ "ed"] with
        | Some bool_col =>
            Some (push (col_ref (table ci) bool_col ++ " = %s") [VBool true])
        | None => Some (push (ref ++ " IS NOT NULL") [])
        end
      else if single (fun v => PyStr.mem v empty_values)
      then Some (push (ref ++ " IS NULL") [])
      else None
    else None in
  match dated with
  | Some r => ret r
  | None =>
      if PyStr.mem col_type text_types then
        match values with
        | _ :: _ :: _ =>
            ret (push ("(" ++ PyStr.join " OR "
                              (map (fun _ => ref ++ " ILIKE %s") values) ++ ")")
                      (map (fun v => VStr ("%" ++ v ++ "%")) values))
        | [v] => ret (push (ref ++ " ILIKE %s") [VStr ("%" ++ v ++ "%")])
        | [] => raise IndexError
        end
      else
        match values with
        | _ :: _ :: _ =>
            ret (push (ref ++ " IN (" ++ PyStr.join ", " (map (fun _ => "%s") values)
                        ++ ")")
                      (map VStr values))
        | [v] => ret (push (ref ++ " " ++ op ++ " %s") [VStr v])
        | [] => raise IndexError
        end
  end.

Definition _add_condition (p : QueryParser) (col_part val_part op : string)
    (base_table : option string) (acc : conds) : M conds :=
  let values := condition_values val_part in
  if is_status_condition p col_part && truthy base_table then
    let bt := match base_table with Some t => t | None => EmptyString end in
    match find_boolean_column_for_status p bt values with
    | Some bool_results =>
        ret {| c_where :=
                 List.app (c_where acc)
                  [or_group (map (fun r => col_ref (table (fst r)) (column (fst r))
                                           ++ " = %s") bool_results)];
               c_params := List.app (c_params acc) (map snd bool_results);
               c_tables := fold_left (fun s r => set_add (table (fst r)) s)
                                     bool_results (c_tables acc) |}
    | None =>
        raise (ValueError ("Status '" ++ PyStr.join "/" values
                           ++ "' tidak dikenali."))
    end
  else
    col_info <- find_column p col_part base_table ;;
    match col_info with
    | Some ci => add_column_condition p ci values op acc
    | None => ret acc
    end.

Section Parser.

(** [strptime date_str fmt] is [datetime.strptime(date_str, fmt)] formatted
    back with [strftime('%Y-%m-%d')], [None] when it raises [ValueError]. *)
Variable strptime : string -> string -> option string.

(** The order in which Python iterates a set, given its insertions. *)
Variable set_iter : list string -> list string.

Definition parse_date (date_str0 : string) : string :=
  let date_str := PyStr.strip date_str0 in
  let fix try (fmts : list string) : string :=
    match fmts with
    | [] => date_str
    | fmt :: rest =>
        match strptime date_str fmt with
        | Some d => d
        | None => try rest
        end
    end in
  try DATE_FORMATS.

Definition quotes : string := "'" ++ dq.

(** The date-range form of [_process_condition]: [Some] is its [return]. *)
Definition date_range (p : QueryParser) (cond : string)
    (base_table : option string) (acc : conds) : M (option conds) :=
  if PyStr.contains ".." cond || PyStr.contains " to " (PyStr.lower cond) then
    match PyStr.cut "=" cond with
    | Some (lhs, rhs) =>
        let col_part := PyStr.strip lhs in
        let range_part := PyStr.strip rhs in
        let date_parts :=
          match PyStr.cut ".." range_part with
          | Some (d1, d2) => [d1; d2]
          | None => PyRe.split_to range_part
          end in
        match date_parts with
        | [d1; d2] =>
            let start_date := parse_date (PyStr.strip_chars quotes (PyStr.strip d1)) in
            let end_date := parse_date (PyStr.strip_chars quotes (PyStr.strip d2)) in
            col_info <- find_column p col_part base_table ;;
            match col_info with
            | Some ci =>
                ret (Some
                  {| c_where :=
                       List.app (c_where acc)
                        [col_ref (table ci) (column ci)
                         ++ "::date BETWEEN %s::date AND %s::date"];
                     c_params := List.app (c_params acc) [VStr start_date; VStr end_date];
                     c_tables := set_add (table ci) (c_tables acc) |})
            | None => ret None
            end
        | _ => ret None
        end
    | None => ret None
    end
  else ret None.

(** The [IS NOT NULL] and [IS NULL] forms: the column is the text before
    the keyword, found at [idx]. *)
Definition null_test (p : QueryParser) (cond : string) (idx : nat) (sql : string)
    (base_table : option string) (acc : conds) : M conds :=
  col_info <- find_column p (PyStr.strip (PyStr.take idx cond)) base_table ;;
  match col_info with
  | Some ci =>
      ret {| c_where := List.app (c_where acc) [col_ref (table ci) (column ci) ++ sql];
             c_params := c_params acc;
             c_tables := set_add (table ci) (c_tables acc) |}
  | None => ret acc
  end.

(** The first operator of [comparison_ops] that occurs in [cond], with the
    text on both sides of its first occurrence. *)
Fixpoint first_operator (ops : list string) (cond : string)
    : option (string * string * string) :=
  match ops with
  | [] => None
  | op :: rest =>
      match PyStr.cut op cond with
      | Some (lhs, rhs) => Some (op, lhs, rhs)
      | None => first_operator rest cond
      end
  end.

Definition _process_condition (p : QueryParser) (cond : string)
    (base_table : option string) (acc : conds) : M conds :=
  let cond_lower := PyStr.lower cond in
  ranged <- date_range p cond base_table acc ;;
  match ranged with
  | Some r => ret r
  | None =>
      match PyStr.find " is not null" cond_lower with
      | Some idx => null_test p cond idx " IS NOT NULL" base_table acc
      | None =>
          match PyStr.find " is null" cond_lower with
          | Some idx => null_test p cond idx " IS NULL" base_table acc
          | None =>
              match first_operator comparison_ops cond with
              | Some (op, lhs, rhs) =>
                  _add_condition p (PyStr.strip lhs)
                    (PyStr.strip_chars quotes (PyStr.strip rhs)) op base_table acc
              | None =>
                  match PyStr.split_ws1 cond with
                  | [col_part; val_part] =>
                      _add_condition p col_part (PyStr.strip val_part) "="
                        base_table acc
                  | _ => ret acc
                  end
              end
          end
      end
  end.

(** The three surface forms: the primary column, if one is named, and the
    rest of the query. *)
Definition split_query (query_text : string)
    : result (option string * order_where) :=
  let query_lower := PyStr.lower query_text in
  if PyStr.startswith "primary " query_lower then
    let query_part := PyStr.strip (PyStr.drop 8 query_text) in
    match PyStr.find " show " (PyStr.lower query_part) with
    | None =>
        Raise (ValueError
          "Format: primary [kolom] show [kolom1,kolom2] where [kondisi]")
    | Some show_idx =>
        Ok (Some (PyStr.strip (PyStr.take show_idx query_part)),
            _parse_order_where (PyStr.strip (PyStr.drop (show_idx + 6) query_part)))
    end
  else
    match (if PyStr.startswith "show " query_lower then None
           else PyStr.find ":" query_text) with
    | Some colon_idx =>
        Ok (Some (PyStr.strip (PyStr.take colon_idx query_text)),
            _parse_order_where (PyStr.strip (PyStr.drop (colon_idx + 1) query_text)))
    | None =>
        if PyStr.startswith "show " query_lower
        then Ok (None, _parse_order_where (PyStr.strip (PyStr.drop 5 query_text)))
        else Raise (ValueError
          ("Format yang didukung:" ++ nl
           ++ "1. primary job_number show talent_name,company where status=completed" ++ nl
           ++ "2. job_number: talent_name,company where status=completed" ++ nl
           ++ "3. show job_number,talent_name where status=completed"))
    end.

(** The aggregate prefix of a select entry and the column text behind it. *)
Definition split_aggregate (col_str : string) : option string * string :=
  match PyStr.cut ":" col_str with
  | Some (f, rest) =>
      if PyStr.mem (PyStr.lower f) aggregate_funcs
      then (Some (PyStr.upper f), PyStr.strip rest)
      else (None, col_str)
  | None => (None, col_str)
  end.

(** The body of the loop over the select list; the state is
    [(base_table, select_columns)]. *)
Definition select_entry (p : QueryParser)
    (st : option string * list col_info) (col_str0 : string)
    : M (option string * list col_info) :=
  let col_str := PyStr.strip col_str0 in
  if String.eqb col_str EmptyString then ret st
  else
    let '(agg_func, col_str) := split_aggregate col_str in
    col_info <- find_column_for_base p col_str (fst st) ;;
    match col_info with
    | None =>
        all_matches <- find_all_columns p col_str ;;
        match all_matches with
        | [] => raise (ValueError ("Kolom '" ++ col_str ++ "' tidak ditemukan"))
        | _ =>
            raise (ValueError
              ("Kolom '" ++ col_str ++ "' ambigu, ada di tabel: "
               ++ PyStr.join ", " (set_iter (set_of_list (map table all_matches)))
               ++ ". Gunakan format table.column"))
        end
    | Some ci =>
        let ci := match agg_func with
                  | Some f => {| table := table ci; column := column ci;
                                 aggregate := Some f |}
                  | None => ci
                  end in
        ret (match fst st with
             | Some b => Some b
             | None => Some (table ci)
             end,
             List.app (snd st) [ci])
    end.

Definition parse (p : QueryParser) (query_text0 : string) : M ParsedQuery :=
  let query_text := PyStr.strip query_text0 in
  match split_query query_text with
  | Raise e => raise e
  | Ok (primary_column, ow) =>
      st <- (if truthy primary_column then
               let pc := match primary_column with Some s => s | None => EmptyString end in
               primary_info <- find_column p pc None ;;
               match primary_info with
               | None => raise (ValueError ("Primary kolom '" ++ pc
                                            ++ "' tidak ditemukan"))
               | Some ci => ret (Some (table ci), [ci])
               end
             else ret (None, [])) ;;
      st <- (if String.eqb (ow_columns ow) EmptyString then ret st
             else for_each (select_entry p) (PyStr.split "," (ow_columns ow)) st) ;;
      let '(base_table, select_columns) := st in
      match select_columns with
      | [] => raise (ValueError "Tidak ada kolom yang dipilih")
      | _ =>
          let base_table :=
            match primary_column with
            | None => _detect_optimal_base_table select_columns base_table
            | Some _ => base_table
            end in
          acc <- (match ow_conditions ow with
                  | Some conditions_part =>
                      if String.eqb conditions_part EmptyString then ret no_conds
                      else for_each
                             (fun acc cond0 =>
                                let cond := PyStr.strip cond0 in
                                if String.eqb cond EmptyString then ret acc
                                else _process_condition p cond base_table acc)
                             (PyRe.split_and_or_comma conditions_part) no_conds
                  | None => ret no_conds
                  end) ;;
          ret {| select_columns := select_columns;
                 base_table := base_table;
                 where_parts := c_where acc;
                 params := c_params acc;
                 where_tables := c_tables acc;
                 order_by := ow_order_by ow;
                 order_dir := ow_order_dir ow |}
      end
  end.


(* ------------------------------------------------------------------ *)
(** ** SQL builder *)

Definition sanitize_identifier (ident : option string) : result string :=
  match ident with
  | None => Raise (ValueError "Identifier tidak boleh kosong")
  | Some n =>
      if String.eqb n EmptyString
      then Raise (ValueError "Identifier tidak boleh kosong")
      else if PyRe.match_identifier n then Ok n
      else Raise (ValueError
             ("Invalid identifier: '" ++ n
              ++ "'. Hanya huruf, angka, dan underscore yang diizinkan."))
  end.

Definition always_prefix_cols : list string :=
  ["name"; "id"; "code"; "type"; "status"; "description"; "title"; "date"].

Definition _build_column_alias (tbl col : string) (used_aliases : list string)
    : string :=
  let col_lower := PyStr.lower col in
  let table_lower := PyStr.lower tbl in
  let alias :=
    if PyStr.mem col_lower always_prefix_cols
    then table_lower ++ " " ++ col_lower
    else PyStr.replace "_" " " col_lower in
  if PyStr.mem alias used_aliases
  then table_lower ++ " " ++ PyStr.replace "_" " " col_lower
  else alias.

(** [str(value)] *)
Definition value_str (v : value) : string :=
  match v with
  | VStr s => s
  | VBool true => "True"
  | VBool false => "False"
  | VInt z => PyStr.of_Z z
  | VNone => "None"
  end.

(** What [_build_default_filters] accumulates: its three result lists and
    the keys [table.column] already filtered. *)
Record filters := {
  f_where : list string;
  f_params : list value;
  f_applied : list string;
  f_existing : list string
}.

Definition default_filter_step (tbl : string) (acc : filters)
    (flt : default_filter) : filters :=
  let col := flt_column flt in
  let key := tbl ++ "." ++ col in
  if PyStr.mem key (f_existing acc) then acc
  else
    let op := match flt_op flt with Some o => o | None => "=" end in
    {| f_where := List.app (f_where acc) [col_ref tbl col ++ " " ++ op ++ " %s"];
       f_params := List.app (f_params acc) [flt_value flt];
       f_applied := List.app (f_applied acc)
                      [tbl ++ "." ++ col ++ op ++ value_str (flt_value flt)];
       f_existing := set_add key (f_existing acc) |}.

(** Selected columns in the order of the SELECT list: its expressions and
    the GROUP BY columns. *)
Fixpoint select_list (has_aggregate : bool) (cols : list col_info)
    (used_aliases : list string) : list string * list string :=
  match cols with
  | [] => ([], [])
  | c :: rest =>
      let ref := col_ref (table c) (column c) in
      let alias := _build_column_alias (table c) (column c) used_aliases in
      let '(parts, groups) := select_list has_aggregate rest (set_add alias used_aliases) in
      if truthy (aggregate c) then
        let agg := match aggregate c with Some a => a | None => EmptyString end in
        ((agg ++ "(" ++ ref ++ ") AS " ++ dq ++ PyStr.lower agg ++ "_" ++ alias ++ dq)
           :: parts, groups)
      else
        ((ref ++ " AS " ++ dq ++ alias ++ dq) :: parts,
         if has_aggregate then ref :: groups else groups)
  end.

(** One hop of a join path: the clause for [next_table] when it is not
    joined yet. *)
Definition join_clause (current next_table : string) (ji : join_info) : string :=
  match jtype ji with
  | outgoing =>
      "LEFT JOIN " ++ dq ++ next_table ++ dq ++ " ON "
      ++ col_ref current (base_column ji) ++ " = "
      ++ col_ref next_table (target_column ji)
  | incoming =>
      "LEFT JOIN " ++ dq ++ next_table ++ dq ++ " ON "
      ++ col_ref next_table (target_column ji) ++ " = "
      ++ col_ref current (base_column ji)
  end.

Fixpoint walk_path (current : string) (pth : path)
    (st : list string * list string) : list string * list string :=
  match pth with
  | [] => st
  | (next_table, ji) :: rest =>
      walk_path next_table rest
        (if PyStr.mem next_table (snd st) then st
         else (List.app (fst st) [join_clause current next_table ji],
               set_add next_table (snd st)))
  end.

(** The fallback of [_build_joins] when no path was found. *)
Definition direct_join (p : QueryParser) (base target : string)
    (st : list string * list string) : list string * list string :=
  let st :=
    match dict_get base (relations_cache p) with
    | Some rels =>
        match List.find (fun rel => String.eqb (to_table rel) target) rels with
        | Some rel =>
            (List.app (fst st)
               ["LEFT JOIN " ++ dq ++ target ++ dq ++ " ON "
                ++ col_ref base (from_column rel) ++ " = "
                ++ col_ref target (to_column rel)],
             set_add target (snd st))
        | None => st
        end
    | None => st
    end in
  if PyStr.mem target (snd st) then st
  else
    match dict_get target (relations_cache p) with
    | Some rels =>
        match List.find (fun rel => String.eqb (to_table rel) base) rels with
        | Some rel =>
            (List.app (fst st)
               ["LEFT JOIN " ++ dq ++ target ++ dq ++ " ON "
                ++ col_ref target (from_column rel) ++ " = "
                ++ col_ref base (to_column rel)],
             set_add target (snd st))
        | None => st
        end
    | None => st
    end.

(** [_build_default_filters]; [tables] is the set [all_tables]. *)
Definition _build_default_filters (p : QueryParser) (tables : list string)
    (existing_where_parts : list string)
    : list string * list value * list string :=
  let existing_filters :=
    fold_left (fun s part =>
      fold_left (fun s m => set_add (fst m ++ "." ++ snd m) s)
                (PyRe.findall_quoted_pair part) s) existing_where_parts [] in
  let r :=
    fold_left (fun acc tbl =>
      match dict_get tbl (default_filters (cfg p)) with
      | Some flts => fold_left (default_filter_step tbl) flts acc
      | None => acc
      end) (set_iter tables)
      {| f_where := []; f_params := []; f_applied := [];
         f_existing := existing_filters |} in
  (f_where r, f_params r, f_applied r).

(** [_build_joins]; [tables_needed] is a set. *)
Definition _build_joins (p : QueryParser) (base : string)
    (tables_needed : list string) : list string :=
  let remaining :=
    filter (fun t => negb (PyStr.mem t [base])) (set_iter tables_needed) in
  fst (fold_left (fun st target_table =>
         if PyStr.mem target_table (snd st) then st
         else match find_join_path p base target_table with
              | Some (hop :: rest) => walk_path base (hop :: rest) st
              | _ => direct_join p base target_table st
              end) (set_iter remaining) ([], [base])).

(** The set [tables_needed] of [build_sql]: the tables of the selected
    columns, then the tables of the WHERE clause. *)
Definition tables_needed_of (parsed : ParsedQuery) : list string :=
  fold_left (fun s t => set_add t s) (set_iter (where_tables parsed))
            (set_of_list (map table (select_columns parsed))).

(** The text [build_sql] assembles from its parts, clause by clause. *)
Definition sql_text (select_parts : list string) (base : string)
    (join_clauses where_all group_by_cols : list string)
    (ordered : option col_info) (order_dir : string) (limit : Z) : string :=
  let sql := "SELECT " ++ PyStr.join ", " select_parts ++ nl
             ++ "FROM " ++ dq ++ base ++ dq in
  let sql := match join_clauses with
             | [] => sql
             | _ => sql ++ nl ++ PyStr.join nl join_clauses
             end in
  let sql := match where_all with
             | [] => sql
             | _ => sql ++ nl ++ "WHERE " ++ PyStr.join " AND " where_all
             end in
  let sql := match group_by_cols with
             | [] => sql
             | _ => sql ++ nl ++ "GROUP BY " ++ PyStr.join ", " group_by_cols
             end in
  let sql := match ordered with
             | Some ci => sql ++ nl ++ "ORDER BY " ++ col_ref (table ci) (column ci)
                          ++ " " ++ order_dir
             | None => sql
             end in
  sql ++ nl ++ "LIMIT " ++ PyStr.of_Z limit.

(** The default filters [build_sql] applies: [where_parts], [params] and
    the descriptions of the filters. *)
Definition default_part (p : QueryParser) (base : string) (parsed : ParsedQuery)
    (apply_default_filters : bool) : list string * list value * list string :=
  if apply_default_filters && negb (is_empty (default_filters (cfg p)))
  then
    let all_tables :=
      fold_left (fun s t => set_add t s) (set_iter (tables_needed_of parsed)) [base] in
    _build_default_filters p all_tables (where_parts parsed)
  else ([], [], []).

Definition build_sql (p : QueryParser) (parsed : ParsedQuery) (limit : Z)
    (apply_default_filters : bool)
    : M (string * list value * list string) :=
  match sanitize_identifier (base_table parsed) with
  | Raise e => raise e
  | Ok base =>
      _ <- for_each (fun (_ : unit) col =>
             match sanitize_identifier (Some (table col)) with
             | Raise e => raise e
             | Ok _ =>
                 match sanitize_identifier (Some (column col)) with
                 | Raise e => raise e
                 | Ok _ => ret tt
                 end
             end) (select_columns parsed) tt ;;
      let has_aggregate :=
        existsb (fun c => truthy (aggregate c)) (select_columns parsed) in
      let '(select_parts, group_by_cols) :=
        select_list has_aggregate (select_columns parsed) [] in
      let join_clauses := _build_joins p base (tables_needed_of parsed) in
      let '(default_where, default_params, applied_default_filters) :=
        default_part p base parsed apply_default_filters in
      let where_all := List.app (where_parts parsed) default_where in
      let params_all := List.app (params parsed) default_params in
      ordered <- (if truthy (order_by parsed)
                  then find_column p
                         (match order_by parsed with Some o => o | None => EmptyString end)
                         (base_table parsed)
                  else ret None) ;;
      ret (sql_text select_parts base join_clauses where_all group_by_cols
             ordered (order_dir parsed) limit,
           params_all, applied_default_filters)
  end.

(** A whole translation: [parse], then [build_sql] with its defaults. *)
Definition translate (p : QueryParser) (query_text : string)
    : M (string * list value * list string) :=
  parsed <- parse p query_text ;;
  build_sql p parsed 1000 true.

End Parser.

(* ------------------------------------------------------------------ *)
(** ** Concrete schemas used in the examples below *)

Definition col (n t : string) : schema_col := {| name := n; type := t |}.

Definition fk (c t tc : string) : relation :=
  {| from_column := c; to_table := t; to_column := tc |}.

(** A parser built by [new_parser], which has no failing case. *)
Definition parser_of (sc : schema) (rc : relations) (c : config) : QueryParser :=
  let cm := _build_column_map sc c in
  {| schema_cache := sc; relations_cache := rc; cfg := c;
     column_map := fst cm; table_columns := snd cm;
     reverse_relations := _build_reverse_relations rc |}.

(** No date is recognised; the examples that use it have no date range. *)
Definition no_strptime (date_str fmt : string) : option string := None.

(** Sets iterated in insertion order. *)
Definition insertion_order (l : list string) : list string := l.

(** One table whose two columns differ only in case. *)
Definition case_schema : schema := [("job", [col "Name" "text"; col "name" "text"])].

(** The schema of the running example: jobs of a company. *)
Definition job_schema : schema :=
  [("job", [col "id" "integer"; col "job_number" "varchar";
            col "company_id" "integer"; col "status" "varchar";
            col "completed_on" "timestamp"]);
   ("company", [col "id" "integer"; col "name" "text"])].

Definition job_relations : relations :=
  [("job", [fk "company_id" "company" "id"])].

Definition job_parser : QueryParser := parser_of job_schema job_relations no_config.

(** ** Join paths *)

(** The table a path ends at, [from] for the empty path. *)
Definition path_end (from : string) (pth : path) : string :=
  last (map fst pth) from.

(** Every hop of [pth] is a direct relation of the table before it. *)
Fixpoint chain (p : QueryParser) (from : string) (pth : path) : Prop :=
  match pth with
  | [] => True
  | (t, ji) :: rest => In (t, ji) (get_related_tables p from) /\ chain p t rest
  end.


(** The tables of the graph that the search has not visited, and the
    measure that every iteration of the loop decreases. *)
Definition unvisited (p : QueryParser) (vis : list string) : nat :=
  List.length (filter (fun t => negb (PyStr.mem t vis)) (graph_tables p)).

Definition search_measure (p : QueryParser) (st : search_state) : nat :=
  List.length (heap st) + unvisited p (visited st).

(** Three tables: [a] points to [t] through a column whose name says
    nothing (cost 2), and to [b], which points to [t], both through
    conventional columns (cost 0 each). *)
Definition detour_relations : relations :=
  [("a", [fk "x" "t" "id"; fk "b_id" "b" "id"]); ("b", [fk "t_id" "t" "id"])].

Definition detour_parser : QueryParser := parser_of [] detour_relations no_config.

Definition hop (t : string) (jt : join_type) (b c : string) : string * join_info :=
  (t, {| jtype := jt; base_column := b; target_column := c |}).

(** Two tables that reference each other and a table that references
    itself: a graph with cycles. *)
Definition cyclic_relations : relations :=
  [("a", [fk "b_id" "b" "id"; fk "parent_id" "a" "id"]);
   ("b", [fk "a_id" "a" "id"; fk "c_id" "c" "id"])].

Definition cyclic_parser : QueryParser := parser_of [] cyclic_relations no_config.

(** A configuration whose default filter names a column that is no
    identifier: it closes the quoted name and adds a condition of its own. *)
Definition hostile_column : string :=
  "id" ++ dq ++ " = 0 OR " ++ dq ++ "job" ++ dq ++ "." ++ dq ++ "id".

Definition hostile_config : config :=
  {| custom_mappings := []; status_mappings := [];
     status_keywords := ["status"; "state"; "kondisi"];
     default_filters :=
       [("job", [{| flt_column := hostile_column; flt_op := None;
                    flt_value := VInt 1 |}])];
     preferred_paths := [] |}.

Definition hostile_parser : QueryParser :=
  parser_of job_schema job_relations hostile_config.

(** ** Invariants of the scored search *)

(** A path found so far: a chain from the base table that repeats no table,
    never returns to the base table and stays inside the visited set. *)
Definition good_path (p : QueryParser) (base : string) (vis : list string)
    (pth : path) : Prop :=
  chain p base pth /\ NoDup (base :: map fst pth) /\ incl (map fst pth) vis.

Definition good_entry (p : QueryParser) (base : string) (vis : list string)
    (e : entry) : Prop :=
  good_path p base vis (e_path e) /\ path_end base (e_path e) = e_table e.

Definition good_state (p : QueryParser) (base target : string)
    (st : search_state) : Prop :=
  In base (visited st) /\ ~ In target (visited st)
  /\ Forall (good_entry p base (visited st)) (heap st).

(** What the search promises of the path it returns. *)
Definition good_result (p : QueryParser) (base target : string) (pth : path)
    : Prop :=
  chain p base pth /\ NoDup (base :: map fst pth) /\ path_end base pth = target.

(** ** The fuzzy-search cache *)

(** Every entry of the cache is what [_fuzzy_search] computes for its key:
    the cache starts empty and only [_fuzzy_search] writes to it. *)
Definition cache_ok (p : QueryParser) (c : fuzzy_cache) : Prop :=
  forall k r, dict_get k c = Some r -> r = fuzzy_matches p k.

(** A computation whose result does not depend on the contents of the cache
    and that leaves the cache well-formed. *)
Definition stable (p : QueryParser) {A : Type} (m : M A) : Prop :=
  exists a, forall c, cache_ok p c -> fst (m c) = a /\ cache_ok p (snd (m c)).

(** ** The shapes of WHERE fragments *)

(** The fragments the parser and the builder can emit.  A template holds
    identifiers, an operator and counts, never a value. *)
Inductive template :=
| TBetween (t c : string)
| TIsNull (t c : string)
| TIsNotNull (t c : string)
| TEquals (cols : list (string * string))
| TIlike (t c : string) (n : nat)
| TIn (t c : string) (n : nat)
| TCompare (t c op : string).

(** The SQL text of a template; every parameter is the placeholder [%s]. *)
Definition render (tpl : template) : string :=
  match tpl with
  | TBetween t c => col_ref t c ++ "::date BETWEEN %s::date AND %s::date"
  | TIsNull t c => col_ref t c ++ " IS NULL"
  | TIsNotNull t c => col_ref t c ++ " IS NOT NULL"
  | TEquals cols =>
      or_group (map (fun tc => col_ref (fst tc) (snd tc) ++ " = %s") cols)
  | TIlike t c 1 => col_ref t c ++ " ILIKE %s"
  | TIlike t c n =>
      "(" ++ PyStr.join " OR " (repeat (col_ref t c ++ " ILIKE %s") n) ++ ")"
  | TIn t c n => col_ref t c ++ " IN (" ++ PyStr.join ", " (repeat "%s" n) ++ ")"
  | TCompare t c op => col_ref t c ++ " " ++ op ++ " %s"
  end.

(** The number of placeholders of a template. *)
Definition arity (tpl : template) : nat :=
  match tpl with
  | TBetween _ _ => 2
  | TIsNull _ _ | TIsNotNull _ _ => 0
  | TEquals cols => List.length cols
  | TIlike _ _ n | TIn _ _ n => n
  | TCompare _ _ _ => 1
  end.

(** Where an identifier of a fragment can come from: the column map, the
    columns of the schema (compared without case), or the configured
    default filters.  None of them depends on the query. *)
Definition known_column (p : QueryParser) (t c : string) : Prop :=
  (exists ci, In ci (flat_map snd (column_map p)) /\ table ci = t /\ column ci = c)
  \/ (exists cols, In (t, cols) (table_columns p) /\ In c cols)
  \/ _column_exists p t c = true
  \/ (exists flts flt, dict_get t (default_filters (cfg p)) = Some flts
                       /\ In flt flts /\ flt_column flt = c).

Definition known_op (p : QueryParser) (op : string) : Prop :=
  In op comparison_ops
  \/ exists t flts flt, dict_get t (default_filters (cfg p)) = Some flts
                        /\ In flt flts /\ flt_op flt = Some op.

Definition template_ok (p : QueryParser) (tpl : template) : Prop :=
  match tpl with
  | TBetween t c | TIsNull t c | TIsNotNull t c | TIlike t c _ | TIn t c _ =>
      known_column p t c
  | TEquals cols => Forall (fun tc => known_column p (fst tc) (snd tc)) cols
  | TCompare t c op => known_column p t c /\ known_op p op
  end.

(** A fragment with the parameters it binds. *)
Definition fragment : Type := template * list value.

Definition fragment_ok (p : QueryParser) (f : fragment) : Prop :=
  template_ok p (fst f) /\ List.length (snd f) = arity (fst f).

Definition fragment_texts (fs : list fragment) : list string :=
  map (fun f => render (fst f)) fs.

Definition fragment_params (fs : list fragment) : list value :=
  flat_map snd fs.

(** [acc'] is [acc] with some well-formed fragments added. *)
Definition extends (p : QueryParser) (acc acc' : conds) : Prop :=
  exists fs, Forall (fragment_ok p) fs
             /\ c_where acc' = List.app (c_where acc) (fragment_texts fs)
             /\ c_params acc' = List.app (c_params acc) (fragment_params fs).

(** Every candidate of a list is a known column. *)
Definition all_known (p : QueryParser) (l : list col_info) : Prop :=
  forall ci, In ci l -> known_column p (table ci) (column ci).

(** A query on a timestamp column with a status word as its value. *)
Definition done_query : string := "show job_number where completed_on=done, id>=3".

Definition done_parsed : ParsedQuery :=
  {| select_columns := [mk_col "job" "job_number"];
     base_table := Some "job";
     where_parts := [col_ref "job" "completed_on" ++ " IS NOT NULL";
                     col_ref "job" "id" ++ " >= %s"];
     params := [VStr "3"];
     where_tables := ["job"];
     order_by := None;
     order_dir := "ASC" |}.

Definition done_sql : string :=
  "SELECT " ++ col_ref "job" "job_number" ++ " AS " ++ dq ++ "job number" ++ dq
  ++ nl ++ "FROM " ++ dq ++ "job" ++ dq ++ nl
  ++ "WHERE " ++ col_ref "job" "completed_on" ++ " IS NOT NULL AND "
  ++ col_ref "job" "id" ++ " >= %s" ++ nl ++ "LIMIT 1000".

(** ** Splitting and selecting *)

Definition comma : ascii := ascii_of_nat 44.

(** The text that pieces spell with a separator between each two of them. *)
Fixpoint weave (pieces seps : list string) : string :=
  match pieces, seps with
  | piece :: pieces', sep :: seps' => piece ++ sep ++ weave pieces' seps'
  | piece :: _, [] => piece
  | [], _ => EmptyString
  end.

Definition all_space (s : string) : Prop :=
  PyStr.lstrip_by PyStr.is_space s = EmptyString.

(** A separator of the WHERE clause: a comma, or the word [and] in any case
    between two runs of whitespace that are not empty. *)
Definition is_separator (x : string) : Prop :=
  x = ","
  \/ exists w1 word w2,
       x = w1 ++ word ++ w2 /\ PyStr.lower word = "and"
       /\ w1 <> EmptyString /\ w2 <> EmptyString /\ all_space w1 /\ all_space w2.

(** The state of the select loop: nothing selected yet, or the base table
    is the table of the first selected column. *)
Definition first_is_base (st : option string * list col_info) : Prop :=
  (fst st = None /\ snd st = [])
  \/ exists first rest, snd st = first :: rest /\ fst st = Some (table first).


(** ** Foreign keys and reachability *)

(** The reverse relation that [_build_reverse_relations] records for a
    relation of [from]. *)
Definition reversed (from : string) (rel : relation) : reverse_relation :=
  {| from_table := from; rev_from_column := from_column rel;
     rev_to_column := to_column rel |}.

(** [rel] is a foreign key of table [from] in the relations [rc]. *)
Definition has_fk (rc : relations) (from : string) (rel : relation) : Prop :=
  exists rels, In (from, rels) rc /\ In rel rels.

(** All tables related to [t] are visited and none of them is the target:
    the search has expanded [t] to no avail. *)
Definition closed (p : QueryParser) (target : string) (vis : list string)
    (t : string) : Prop :=
  forall n ji, In (n, ji) (get_related_tables p t) -> n <> target /\ In n vis.

(** Every visited table but [current] is expanded or waits on the heap. *)
Definition frontier_ok (p : QueryParser) (target current : string)
    (st : search_state) : Prop :=
  forall t, In t (visited st) ->
    t = current \/ closed p target (visited st) t
    \/ exists e, In e (heap st) /\ e_table e = t.

(** Each table of [hops] is directly related to the one before it. *)
Fixpoint hops_related (p : QueryParser) (current : string) (hops : list string)
    : Prop :=
  match hops with
  | [] => True
  | next_table :: rest =>
      dict_has next_table (get_related_tables p current) = true
      /\ hops_related p next_table rest
  end.

(** The entries [get_related_tables] makes for a relation of the base table
    and for a reverse relation of it. *)
Definition out_info (rel : relation) : join_info :=
  {| jtype := outgoing; base_column := from_column rel;
     target_column := to_column rel |}.

Definition in_info (r : reverse_relation) : join_info :=
  {| jtype := incoming; base_column := rev_to_column r;
     target_column := rev_from_column r |}.

(** The detour graph with the path through [b] configured for [a] to [t]. *)
Definition preferred_config : config :=
  {| custom_mappings := []; status_mappings := [];
     status_keywords := ["status"; "state"; "kondisi"];
     default_filters := [];
     preferred_paths := [(("a", "t"), ["b"])] |}.

Definition preferred_parser : QueryParser :=
  parser_of [] detour_relations preferred_config.

(** ** Where resolved columns come from *)

(** [ci] names a column of the schema snapshot. *)
Definition schema_column (sc : schema) (ci : col_info) : Prop :=
  exists cols c, In (table ci, cols) sc /\ In c cols /\ ci = mk_col (table ci) (name c).

(** [ci] is the target of a configured alias. *)
Definition alias_target (conf : config) (ci : col_info) : Prop :=
  In ci (map snd (custom_mappings conf)).

(** ** JOIN clauses *)

(** [clause] is a [LEFT JOIN] of the table [t]. *)
Definition joins_table (clause t : string) : Prop :=
  exists on, clause = "LEFT JOIN " ++ dq ++ t ++ dq ++ " ON " ++ on.

(** ** Growth of the fuzzy-search cache *)

(** From [c] to [c'] the cache kept its entries and, if it held at most 1000
    of them, still does. *)
Definition cache_grows (c c' : fuzzy_cache) : Prop :=
  (List.length c <= 1000 -> List.length c' <= 1000)
  /\ forall k r, dict_get k c = Some r -> dict_get k c' = Some r.

(** A computation under which the cache only grows, within its bound. *)
Definition growing {A : Type} (m : M A) : Prop :=
  forall c, cache_grows c (snd (m c)).

(** The state [(join_clauses, joined)] of [_build_joins]: the clauses join
    the tables [ts], one clause each, and [joined] holds the base table and
    these tables. *)
Definition joins_ok (base : string) (ts : list string)
    (st : list string * list string) : Prop :=
  Forall2 joins_table (fst st) ts
  /\ NoDup (base :: ts)
  /\ forall t, In t (snd st) <-> t = base \/ In t ts.

(** ** Default filters *)

(** The key [table.column] under which a default filter counts as applied. *)
Definition filter_key (tf : string * default_filter) : string :=
  fst tf ++ "." ++ flt_column (snd tf).

(** The WHERE fragment of a default filter of a table. *)
Definition filter_clause (tf : string * default_filter) : string :=
  col_ref (fst tf) (flt_column (snd tf)) ++ " "
  ++ match flt_op (snd tf) with Some o => o | None => "=" end ++ " %s".

(** Some WHERE part mentions the quoted column whose key is [key]. *)
Definition mentioned (parts : list string) (key : string) : Prop :=
  exists part t c,
    In part parts /\ In (t, c) (PyRe.findall_quoted_pair part)
    /\ key = t ++ "." ++ c.

(** The accumulator of [_build_default_filters] after the filters [fl] were
    applied, starting from the keys [existing]. *)
Definition filters_state (p : QueryParser) (existing : list string)
    (fl : list (string * default_filter)) (acc : filters) : Prop :=
  f_where acc = map filter_clause fl
  /\ f_params acc = map (fun tf => flt_value (snd tf)) fl
  /\ List.length (f_applied acc) = List.length fl
  /\ NoDup (map filter_key fl)
  /\ (forall k, In k (f_existing acc) <-> In k existing \/ In k (map filter_key fl))
  /\ Forall (fun tf => ~ In (filter_key tf) existing
                       /\ exists flts,
                            dict_get (fst tf) (default_filters (cfg p)) = Some flts
                            /\ In (snd tf) flts) fl.

(** ** Conditions *)

(** Every character of [s] satisfies [f]. *)
Fixpoint all_chars (f : ascii -> bool) (s : string) : bool :=
  match s with
  | EmptyString => true
  | String c s' => f c && all_chars f s'
  end.

(** ** Names that pass the identifier check *)

(** The table and the column of [ci] match the identifier pattern. *)
Definition names_ok (ci : col_info) : Prop :=
  PyRe.match_identifier (table ci) = true
  /\ PyRe.match_identifier (column ci) = true.

(** Every table and column of the snapshot and every target of an alias has
    a name that matches the identifier pattern. *)
Definition schema_names_ok (sc : schema) (conf : config) : Prop :=
  (forall tbl cols c, In (tbl, cols) sc -> In c cols ->
                      PyRe.match_identifier tbl = true
                      /\ PyRe.match_identifier (name c) = true)
  /\ forall a, In a (custom_mappings conf) -> names_ok (snd a).

(** ** The sides of a condition *)

(** The operator, the column text and the value text that
    [_process_condition] hands to [_add_condition]: the text on both sides
    of the first operator found or, without an operator, the first word and
    the rest with the operator [=]. *)
Definition condition_sides (cond : string) : option (string * string * string) :=
  match first_operator comparison_ops cond with
  | Some (op, lhs, rhs) =>
      Some (op, PyStr.strip lhs, PyStr.strip_chars quotes (PyStr.strip rhs))
  | None =>
      match PyStr.split_ws1 cond with
      | [col_part; val_part] => Some ("=", col_part, PyStr.strip val_part)
      | _ => None
      end
  end.

(** ** The writes of [_build_column_map] *)

(** One call of [_add_to_map]: the key, the column and the [unique] flag. *)
Definition map_write : Type := (string * col_info * bool)%type.

(** The calls that the body of the inner loop makes for one column, in the
    order of the source: the bare name, [table.column] with the flag,
    [table_column] with the flag for a common name, and the name without
    underscores when that differs. *)
Definition column_writes (tbl : string) (col : schema_col) : list map_write :=
  let col_name := PyStr.lower (name col) in
  let ci := mk_col tbl (name col) in
  List.app [(col_name, ci, false); (tbl ++ "." ++ col_name, ci, true)]
    (List.app
       (if PyStr.mem col_name common_cols
        then [(tbl ++ "_" ++ col_name, ci, true)] else [])
       (if negb (String.eqb (PyStr.replace "_" EmptyString col_name) col_name)
        then [(PyStr.replace "_" EmptyString col_name, ci, false)] else [])).

(** All calls for a snapshot: table after table, column after column. *)
Definition schema_writes (sc : schema) : list map_write :=
  flat_map (fun e => flat_map (column_writes (fst e)) (snd e)) sc.

Definition apply_write (cm : column_map_t) (w : map_write) : column_map_t :=
  _add_to_map cm (fst (fst w)) (snd (fst w)) (snd w).

(** What the writes [ws] to the key [k] add to an entry [l] when none of
    them replaces it: each column is appended unless the entry has it. *)
Definition later_claims (k : string) (ws : list map_write) (l : list col_info)
    : list col_info :=
  fold_left (fun l w =>
               if String.eqb (fst (fst w)) k
               then (if existsb (fun e => same_column e (snd (fst w))) l
                     then l else (l ++ [snd (fst w)])%list)
               else l) ws l.

(** No write of [ws] to the key [k] carries the [unique] flag. *)
Definition no_unique_write (k : string) (ws : list map_write) : Prop :=
  Forall (fun w => fst (fst w) = k -> snd w = false) ws.

(** The snapshot of the running example with the company listed first. *)
Definition company_first_schema : schema :=
  [("company", [col "id" "integer"; col "name" "text"]);
   ("job", [col "id" "integer"; col "job_number" "varchar";
            col "company_id" "integer"; col "status" "varchar";
            col "completed_on" "timestamp"])].

(** ** The select list of a legacy query *)

(** The entries that the select loop of [parse] works on for a query of
    the form [show ...]: the text behind [show], up to the conditions and
    the ordering, cut at the commas; each entry is stripped and the blank
    ones are skipped. *)
Definition listed_entries (columns_part : string) : list string :=
  filter (fun e => negb (String.eqb e EmptyString))
         (map PyStr.strip (PyStr.split "," columns_part)).

Definition listed_columns (q : string) : list string :=
  listed_entries
    (ow_columns (_parse_order_where (PyStr.strip (PyStr.drop 5 (PyStr.strip q))))).

Definition with_aggregate (agg : option string) (ci : col_info) : col_info :=
  match agg with
  | Some f => {| table := table ci; column := column ci; aggregate := Some f |}
  | None => ci
  end.

(** The entry [e] is resolved to [ci] against the base table [base]: the
    resolver, run from the cache [c] on the column text of the entry,
    returns the column, which gets the aggregate of the entry, and leaves
    the cache [c']. *)
Definition entry_resolves (p : QueryParser) (base : option string) (e : string)
    (c : fuzzy_cache) (ci : col_info) (c' : fuzzy_cache) : Prop :=
  exists ci0,
    find_column_for_base p (snd (split_aggregate e)) base c = (Ok (Some ci0), c')
    /\ ci = with_aggregate (fst (split_aggregate e)) ci0.

(** The entries are resolved one after the other, to the columns [cols] in
    the same order; the table of the first column resolved is the base
    table for the entries behind it. *)
Fixpoint entries_resolve (p : QueryParser) (base : option string)
    (es : list string) (c : fuzzy_cache) (cols : list col_info)
    (c' : fuzzy_cache) : Prop :=
  match es, cols with
  | [], [] => c = c'
  | e :: es', ci :: cols' =>
      exists c1,
        entry_resolves p base e c ci c1
        /\ entries_resolve p
             (Some (match base with Some b => b | None => table ci end))
             es' c1 cols' c'
  | _, _ => False
  end.

(** ** The cuts of the WHERE clause *)

(** A separator starts the text [t]. *)
Definition separator_starts (t : string) : Prop :=
  exists sep rest, t = sep ++ rest /\ is_separator sep.

(** No separator starts at a position of [piece] when [behind] is the text
    that follows it. *)
Definition no_separator_inside (piece behind : string) : Prop :=
  forall a b, piece = a ++ b -> b <> EmptyString ->
              ~ separator_starts (b ++ behind).

(** The text is cut from left to right: a cut is made at the first
    position where a separator starts; a separator made of [and] takes all
    the whitespace behind the word; the search goes on behind the
    separator.  The text behind the last cut is the last piece. *)
Inductive split_at_separators : string -> list string -> Prop :=
| split_last (s : string) :
    no_separator_inside s EmptyString -> split_at_separators s [s]
| split_cut (piece sep rest : string) (pieces : list string) :
    is_separator sep ->
    no_separator_inside piece (sep ++ rest) ->
    (sep <> "," -> forall c r, rest = String c r -> PyStr.is_space c = false) ->
    split_at_separators rest pieces ->
    split_at_separators (piece ++ sep ++ rest) (piece :: pieces).

(** ** What a condition binds *)

(** The column that the resolver finds for a column text when its cache
    is well-formed; the empty cache is. *)
Definition resolved (p : QueryParser) (col_part : string) (base : option string)
    : option col_info :=
  match fst (find_column p col_part base []) with
  | Ok r => r
  | Raise _ => None
  end.

(** A date range [column = d1 .. d2] or [column = d1 to d2]: the column
    text and the two dates, without blanks and quotes around them. *)
Definition range_sides (cond : string) : option (string * string * string) :=
  if PyStr.contains ".." cond || PyStr.contains " to " (PyStr.lower cond) then
    match PyStr.cut "=" cond with
    | Some (lhs, rhs) =>
        match (match PyStr.cut ".." (PyStr.strip rhs) with
               | Some (d1, d2) => [d1; d2]
               | None => PyRe.split_to (PyStr.strip rhs)
               end) with
        | [d1; d2] =>
            Some (PyStr.strip lhs,
                  PyStr.strip_chars quotes (PyStr.strip d1),
                  PyStr.strip_chars quotes (PyStr.strip d2))
        | _ => None
        end
    | None => None
    end
  else None.

(** A null test [column is not null] or [column is null]: the column text
    and whether the test is negated. *)
Definition null_sides (cond : string) : option (string * bool) :=
  match PyStr.find " is not null" (PyStr.lower cond) with
  | Some idx => Some (PyStr.strip (PyStr.take idx cond), true)
  | None =>
      match PyStr.find " is null" (PyStr.lower cond) with
      | Some idx => Some (PyStr.strip (PyStr.take idx cond), false)
      | None => None
      end
  end.

(** The fragment for a resolved column, an operator and the values of the
    condition.  On a date column a single status word asks whether the
    date is set (or tests the [is_] column of the same name, bound to
    [True]) and a single emptiness word asks whether it is not set: the
    word itself is bound nowhere.  Everywhere else every value is bound,
    in the order of the condition and nowhere but in the parameters: on a
    text column wrapped in [%] for [ILIKE], on any other column as it is,
    for the operator of the condition or, when there are several values,
    for [IN]. *)
Definition column_fragment (p : QueryParser) (ci : col_info) (op : string)
    (values : list string) : result fragment :=
  let t := table ci in
  let c := column ci in
  let col_type := _get_column_type p t c in
  let single (f : string -> bool) : bool :=
    match values with
    | [v] => f v
    | _ => false
    end in
  if PyStr.mem col_type date_types
     && single (fun v => PyStr.mem v status_values) then
    let base_col_name :=
      PyStr.replace "_at" EmptyString
        (PyStr.replace "_date" EmptyString
           (PyStr.replace "_on" EmptyString (PyStr.lower c))) in
    match List.find (_column_exists p t)
            ["is_" ++ base_col_name; "is_" ++ base_col_name ++ "ed"] with
    | Some bool_col => Ok (TEquals [(t, bool_col)], [VBool true])
    | None => Ok (TIsNotNull t c, [])
    end
  else if PyStr.mem col_type date_types
          && single (fun v => PyStr.mem v empty_values) then
    Ok (TIsNull t c, [])
  else
    match values with
    | [] => Raise IndexError
    | [v] =>
        if PyStr.mem col_type text_types
        then Ok (TIlike t c 1, [VStr ("%" ++ v ++ "%")])
        else Ok (TCompare t c op, [VStr v])
    | _ =>
        if PyStr.mem col_type text_types
        then Ok (TIlike t c (List.length values),
                 map (fun v => VStr ("%" ++ v ++ "%")) values)
        else Ok (TIn t c (List.length values), map VStr values)
    end.

(** A date range binds its two dates, each as [_parse_date] returns it. *)
Definition range_fragment (strptime : string -> string -> option string)
    (p : QueryParser) (base : option string) (cond : string) : option fragment :=
  match range_sides cond with
  | Some (col_part, d1, d2) =>
      match resolved p col_part base with
      | Some ci =>
          Some (TBetween (table ci) (column ci),
                [VStr (parse_date strptime d1); VStr (parse_date strptime d2)])
      | None => None
      end
  | None => None
  end.

(** A null test binds nothing. *)
Definition null_fragment (p : QueryParser) (base : option string)
    (col_part : string) (negated : bool) : option fragment :=
  match resolved p col_part base with
  | Some ci =>
      Some (if negated then TIsNotNull (table ci) (column ci)
            else TIsNull (table ci) (column ci), [])
  | None => None
  end.

(** A condition with a column text, an operator and a value text.  When
    the column text holds a status keyword (and there is a base table) the
    condition binds the booleans that the status words of its value stand
    for, and it is an error if none of them is known.  Otherwise it binds
    its values as [column_fragment] says, or is dropped when the column
    does not resolve. *)
Definition sides_fragment (p : QueryParser) (base : option string)
    (op col_part val_part : string) : result (option fragment) :=
  let values := condition_values val_part in
  if is_status_condition p col_part && truthy base then
    match find_boolean_column_for_status p
            (match base with Some t => t | None => EmptyString end) values with
    | Some results =>
        Ok (Some (TEquals (map (fun r => (table (fst r), column (fst r))) results),
                  map snd results))
    | None =>
        Raise (ValueError ("Status '" ++ PyStr.join "/" values
                           ++ "' tidak dikenali."))
    end
  else
    match resolved p col_part base with
    | Some ci =>
        match column_fragment p ci op values with
        | Ok f => Ok (Some f)
        | Raise e => Raise e
        end
    | None => Ok None
    end.

(** The fragment of one condition of the WHERE clause, [None] when the
    condition is dropped: a date range whose column resolves, else a null
    test, else a comparison; a condition that is none of them (a single
    word) is dropped, and so is one whose column does not resolve. *)
Definition condition_fragment (strptime : string -> string -> option string)
    (p : QueryParser) (base : option string) (cond : string)
    : result (option fragment) :=
  match range_fragment strptime p base cond with
  | Some f => Ok (Some f)
  | None =>
      match null_sides cond with
      | Some (col_part, negated) => Ok (null_fragment p base col_part negated)
      | None =>
          match condition_sides cond with
          | Some (op, col_part, val_part) =>
              sides_fragment p base op col_part val_part
          | None => Ok None
          end
      end
  end.

(** The conditions of a query: the pieces of its WHERE clause, stripped,
    without the blank ones. *)
Definition where_conditions (q : string) : list string :=
  match split_query (PyStr.strip q) with
  | Ok (_, ow) =>
      match ow_conditions ow with
      | Some conditions_part =>
          filter (fun cond => negb (String.eqb cond EmptyString))
                 (map PyStr.strip (PyRe.split_and_or_comma conditions_part))
      | None => []
      end
  | Raise _ => []
  end.

Definition bound_fragments (outcomes : list (option fragment)) : list fragment :=
  flat_map (fun o => match o with Some f => [f] | None => [] end) outcomes.

(** [acc'] is [acc] with the texts and the parameters of the fragments
    [fs] behind what it had. *)
Definition appends (acc acc' : conds) (fs : list fragment) : Prop :=
  c_where acc' = List.app (c_where acc) (fragment_texts fs)
  /\ c_params acc' = List.app (c_params acc) (fragment_params fs).

(** The fragment of a default filter of a table: it binds the configured
    value. *)
Definition default_fragment (tf : string * default_filter) : fragment :=
  (TCompare (fst tf) (flt_column (snd tf))
            (match flt_op (snd tf) with Some o => o | None => "=" end),
   [flt_value (snd tf)]).

(** The column of the ORDER BY clause of a parsed query. *)
Definition order_column (p : QueryParser) (pq : ParsedQuery) : option col_info :=
  match order_by pq with
  | Some o =>
      if String.eqb o EmptyString then None else resolved p o (base_table pq)
  | None => None
  end.

(** The running example with default filters configured for its jobs. *)
Definition filtered_config : config :=
  {| custom_mappings := []; status_mappings := [];
     status_keywords := ["status"; "state"; "kondisi"];
     default_filters :=
       [("job", [{| flt_column := "deleted"; flt_op := None;
                    flt_value := VBool false |};
                 {| flt_column := "id"; flt_op := Some ">";
                    flt_value := VInt 0 |}])];
     preferred_paths := [] |}.

Definition filtered_parser : QueryParser :=
  parser_of job_schema job_relations filtered_config.

(** A query with a comparison, a condition on a text column, a condition
    whose column does not exist, a status word on a timestamp column and an
    ordering, with what it is parsed to and the SQL built from it. *)
Definition bound_query : string :=
  "show job_number, company_name where id>=3, job_number='J-17', salary=5, completed_on=done order by id desc".

Definition bound_parsed : ParsedQuery :=
  {| select_columns := [mk_col "job" "job_number"; mk_col "company" "name"];
     base_table := Some "job";
     where_parts := [col_ref "job" "id" ++ " >= %s";
                     col_ref "job" "job_number" ++ " ILIKE %s";
                     col_ref "job" "completed_on" ++ " IS NOT NULL"];
     params := [VStr "3"; VStr "%j-17%"];
     where_tables := ["job"];
     order_by := Some "id";
     order_dir := "DESC" |}.

Definition bound_sql : string :=
  "SELECT " ++ col_ref "job" "job_number" ++ " AS " ++ dq ++ "job number" ++ dq
  ++ ", " ++ col_ref "company" "name" ++ " AS " ++ dq ++ "company name" ++ dq
  ++ nl ++ "FROM " ++ dq ++ "job" ++ dq ++ nl
  ++ "LEFT JOIN " ++ dq ++ "company" ++ dq ++ " ON "
  ++ col_ref "job" "company_id" ++ " = " ++ col_ref "company" "id" ++ nl
  ++ "WHERE " ++ col_ref "job" "id" ++ " >= %s AND "
  ++ col_ref "job" "job_number" ++ " ILIKE %s AND "
  ++ col_ref "job" "completed_on" ++ " IS NOT NULL AND "
  ++ col_ref "job" "deleted" ++ " = %s" ++ nl
  ++ "ORDER BY " ++ col_ref "job" "id" ++ " DESC" ++ nl ++ "LIMIT 1000".

(* ------------------------------------------------------------------ *)
(** * Properties *)

(** ** Strings and dicts *)

Section StringFacts.

Lemma mem_char_rev_onto (c : ascii) (s acc : string) :
  PyStr.mem_char c (PyStr.rev_onto s acc)
  = PyStr.mem_char c s || PyStr.mem_char c acc.
Proof.
  revert acc; induction s as [|a s IH]; intros acc; simpl.
  - reflexivity.
  - rewrite IH; simpl. destruct (Ascii.eqb c a), (PyStr.mem_char c s); simpl;
      auto using orb_true_r.
Qed.

Lemma mem_char_rev (c : ascii) (s : string) :
  PyStr.mem_char c (PyStr.rev s) = PyStr.mem_char c s.
Proof.
  unfold PyStr.rev. rewrite mem_char_rev_onto. simpl. apply orb_false_r.
Qed.

(** [c in s] for a one-character string is membership of the character. *)
Lemma contains_char (c : ascii) (s : string) :
  PyStr.contains (String c EmptyString) s = PyStr.mem_char c s.
Proof.
  unfold PyStr.contains. induction s as [|a s IH]; simpl.
  - reflexivity.
  - destruct (Ascii.eqb c a) eqn:E; simpl.
    + reflexivity.
    + destruct (PyStr.find (String c EmptyString) s); simpl in *; exact IH.
Qed.

Lemma mem_In (x : string) (l : list string) :
  PyStr.mem x l = true <-> In x l.
Proof.
  unfold PyStr.mem. rewrite existsb_exists. split.
  - intros [y [Hy E]]. apply String.eqb_eq in E. now subst.
  - intros H. exists x. split; [assumption | apply String.eqb_refl].
Qed.

Lemma append_length (a b : string) :
  String.length (a ++ b) = String.length a + String.length b.
Proof. induction a; simpl; auto. Qed.

Lemma append_inj_l (a b c : string) : a ++ b = a ++ c -> b = c.
Proof. induction a; simpl; intros H; [assumption | injection H; auto]. Qed.

Lemma replace_go_length (old new s : string) (skip : nat) :
  new = EmptyString ->
  String.length (PyStr.replace_go old new s skip) <= String.length s.
Proof.
  intros ->. revert skip. induction s as [|a s IH]; intros skip; simpl.
  - lia.
  - destruct skip.
    + destruct (PyStr.startswith old (String a s)); simpl.
      * specialize (IH (String.length old - 1)). lia.
      * specialize (IH 0). lia.
    + specialize (IH skip). lia.
Qed.

End StringFacts.

Section DictFacts.

Context {V : Type}.

Lemma dict_get_set_same (k : string) (v : V) (d : list (string * V)) :
  dict_get k (dict_set k v d) = Some v.
Proof.
  induction d as [|[k' v'] d IH]; simpl.
  - now rewrite String.eqb_refl.
  - destruct (String.eqb k k') eqn:E; simpl.
    + now rewrite String.eqb_refl.
    + now rewrite E.
Qed.

Lemma dict_get_set_other (k k' : string) (v : V) (d : list (string * V)) :
  k <> k' -> dict_get k (dict_set k' v d) = dict_get k d.
Proof.
  intros N. induction d as [|[k2 v2] d IH]; simpl.
  - apply String.eqb_neq in N. now rewrite N.
  - destruct (String.eqb k' k2) eqn:E; simpl.
    + apply String.eqb_eq in E. subst k2.
      apply String.eqb_neq in N. now rewrite N.
    + destruct (String.eqb k k2); auto.
Qed.

End DictFacts.

Lemma add_to_map_unique (cm : column_map_t) (key : string) (ci : col_info) :
  dict_get key (_add_to_map cm key ci true) = Some [ci].
Proof.
  unfold _add_to_map. destruct (dict_get key cm); apply dict_get_set_same.
Qed.

Lemma add_to_map_other (cm : column_map_t) (k key : string) (ci : col_info)
    (unique : bool) :
  k <> key -> dict_get k (_add_to_map cm key ci unique) = dict_get k cm.
Proof.
  intros N. unfold _add_to_map.
  destruct (dict_get key cm) as [existing|].
  - destruct unique.
    + now apply dict_get_set_other.
    + destruct (existsb _ existing); [reflexivity | now apply dict_get_set_other].
  - now apply dict_get_set_other.
Qed.

(* ------------------------------------------------------------------ *)
(** ** Schema index *)

(** C7, as the code has it: an empty snapshot is accepted.  The parser that
    comes back has an empty column map and no tables. *)
Lemma empty_snapshot_is_accepted :
  new_parser [] [] no_config
  = Ok {| schema_cache := []; relations_cache := []; cfg := no_config;
          column_map := []; table_columns := []; reverse_relations := [] |}.
Proof. reflexivity. Qed.

(** C7 (amended): building the index from a snapshot without tables
    succeeds for every set of relations and every configuration; the index
    has no table and its column map holds the configured aliases only. *)
Theorem new_parser_empty_snapshot (rc : relations) (c : config) :
  exists p, new_parser [] rc c = Ok p
            /\ table_columns p = []
            /\ column_map p
               = fold_left (fun cm a => dict_set (PyStr.lower (fst a)) [snd a] cm)
                           (custom_mappings c) [].
Proof. eexists. split; [reflexivity | split; reflexivity]. Qed.

(** C6, as the code has it: the second of two columns that claim the same
    composite key replaces the first.  In [case_schema] the keys [job_name]
    and [job.name] end up with the column [name] alone; in [job_schema] the
    composite key of [company.id] evicts [job.company_id] from [company_id]. *)
Lemma composite_key_overwritten :
  dict_get "job_name" (column_map (parser_of case_schema [] no_config))
    = Some [mk_col "job" "name"]
  /\ dict_get "job.name" (column_map (parser_of case_schema [] no_config))
    = Some [mk_col "job" "name"]
  /\ dict_get "company_id" (column_map job_parser) = Some [mk_col "company" "id"].
Proof. repeat split; reflexivity. Qed.

Lemma aliases_keep_other_keys (k : string) (al : list (string * col_info))
    (cm : column_map_t) :
  Forall (fun a => PyStr.lower (fst a) <> k) al ->
  dict_get k (fold_left (fun cm a => dict_set (PyStr.lower (fst a)) [snd a] cm) al cm)
  = dict_get k cm.
Proof.
  intros H. revert cm. induction H as [|a al Ha _ IH]; intros cm; simpl.
  - reflexivity.
  - rewrite IH. apply dict_get_set_other. congruence.
Qed.

(** The body of the inner loop is the sequence of its calls of
    [_add_to_map], and so is the whole double loop. *)
Lemma map_column_writes (tbl : string) (cm : column_map_t) (c : schema_col) :
  map_column tbl cm c = fold_left apply_write (column_writes tbl c) cm.
Proof.
  unfold map_column, column_writes.
  destruct (PyStr.mem (PyStr.lower (name c)) common_cols);
    destruct (negb (String.eqb (PyStr.replace "_" EmptyString (PyStr.lower (name c)))
                               (PyStr.lower (name c))));
    reflexivity.
Qed.

Lemma map_columns_writes (tbl : string) (cols : list schema_col) :
  forall cm,
    fold_left (map_column tbl) cols cm
    = fold_left apply_write (flat_map (column_writes tbl) cols) cm.
Proof.
  induction cols as [|c cols IH]; intros cm; cbn [fold_left flat_map];
    [reflexivity|].
  now rewrite fold_left_app, <- map_column_writes.
Qed.

Lemma map_tables_writes (sc : schema) :
  forall st,
    fst (fold_left map_table sc st)
    = fold_left apply_write (schema_writes sc) (fst st).
Proof.
  induction sc as [|[tbl cols] sc IH]; intros st; [reflexivity|].
  unfold schema_writes. cbn [fold_left flat_map fst snd].
  rewrite fold_left_app, <- map_columns_writes. apply IH.
Qed.

(** Writes without the flag leave the other keys alone and append to the
    entry of their own key. *)
Lemma later_writes_append (k : string) (ws : list map_write) :
  forall cm l,
    no_unique_write k ws -> dict_get k cm = Some l ->
    dict_get k (fold_left apply_write ws cm) = Some (later_claims k ws l).
Proof.
  unfold later_claims.
  induction ws as [|[[key x] u] ws IH]; intros cm l Hno Hget; [exact Hget|].
  inversion Hno as [|w ws' Hw Hws]; subst. simpl in Hw. simpl.
  destruct (String.eqb key k) eqn:Ek.
  - apply String.eqb_eq in Ek. subst key. rewrite (Hw eq_refl).
    apply IH; [exact Hws|]. unfold apply_write, _add_to_map. simpl.
    rewrite Hget. destruct (existsb (fun e => same_column e x) l);
      [exact Hget | apply dict_get_set_same].
  - apply IH; [exact Hws|]. unfold apply_write. simpl.
    rewrite add_to_map_other; [exact Hget|].
    intros ->. now rewrite String.eqb_refl in Ek.
Qed.

(** What such writes add comes from them. *)
Lemma later_claims_from (k : string) (ws : list map_write) :
  forall l,
    no_unique_write k ws ->
    exists followers,
      later_claims k ws l = (l ++ followers)%list
      /\ forall x, In x followers -> In (k, x, false) ws.
Proof.
  unfold later_claims.
  induction ws as [|[[key x] u] ws IH]; intros l Hno.
  - exists []. split; [now rewrite app_nil_r | intros x []].
  - inversion Hno as [|w ws' Hw Hws]; subst. simpl in Hw. simpl.
    destruct (String.eqb key k) eqn:Ek.
    + apply String.eqb_eq in Ek. subst key. rewrite (Hw eq_refl).
      destruct (existsb (fun e => same_column e x) l).
      * destruct (IH l Hws) as (fs & E & Hin). exists fs.
        split; [exact E | intros y Hy; right; now apply Hin].
      * destruct (IH (l ++ [x])%list Hws) as (fs & E & Hin). exists (x :: fs).
        split; [now rewrite E, <- app_assoc|].
        intros y [<-|Hy]; [now left | right; now apply Hin].
    + destruct (IH l Hws) as (fs & E & Hin). exists fs.
      split; [exact E | intros y Hy; right; now apply Hin].
Qed.

(** C6 (amended): a key is not shared by the columns that claim it with
    the unique flag.  Take any write of [_build_column_map] to the key [k]
    with the flag ([table.column], or [table_column] for a common name) after
    which no flagged write to [k] follows: the entry of [k] then starts with
    the column of that write, nothing that an earlier column had stored
    under [k] is left, and the only other columns in it are those that a
    later write without the flag (a bare column name, or a name without its
    underscores, equal to [k]) appended.  (A configured alias equal to [k]
    replaces the entry in turn, hence the hypothesis.) *)
Theorem unique_key_last_wins (sc : schema) (conf : config) (k : string)
    (ci : col_info) (before after : list map_write) :
  schema_writes sc = (before ++ (k, ci, true) :: after)%list ->
  no_unique_write k after ->
  Forall (fun a => PyStr.lower (fst a) <> k) (custom_mappings conf) ->
  dict_get k (fst (_build_column_map sc conf)) = Some (later_claims k after [ci])
  /\ exists followers,
       later_claims k after [ci] = ci :: followers
       /\ forall x, In x followers -> In (k, x, false) after.
Proof.
  intros Hw Hno Hal. split.
  - unfold _build_column_map. simpl fst.
    rewrite (aliases_keep_other_keys k _ _ Hal), map_tables_writes, Hw.
    rewrite fold_left_app. simpl fold_left.
    apply later_writes_append; [exact Hno|].
    unfold apply_write. simpl. apply add_to_map_unique.
  - destruct (later_claims_from k after [ci] Hno) as (fs & E & Hin).
    exists fs. split; [exact E | exact Hin].
Qed.

Lemma unique_key_last_wins_witness :
  dict_get "company_id" (fst (_build_column_map company_first_schema no_config))
    = Some [mk_col "company" "id"; mk_col "job" "company_id"]
  /\ exists followers,
       [mk_col "company" "id"; mk_col "job" "company_id"]
       = mk_col "company" "id" :: followers
       /\ forall x, In x followers ->
                    In ("company_id", x, false)
                       (skipn 3 (schema_writes company_first_schema)).
Proof.
  apply (unique_key_last_wins company_first_schema no_config "company_id"
           (mk_col "company" "id")
           (firstn 2 (schema_writes company_first_schema))
           (skipn 3 (schema_writes company_first_schema))).
  - vm_compute. reflexivity.
  - vm_compute.
    repeat (constructor; [intros H; first [reflexivity | discriminate H]|]).
    constructor.
  - constructor.
Defined.

(* ------------------------------------------------------------------ *)
(** ** Splitting the WHERE clause *)

(** C3, as the code has it: the comma inside the parentheses of an [IN]
    list is a split point like any other. *)
Lemma nested_comma_is_split :
  PyRe.split_and_or_comma "id in (1,2) and name=x" = ["id in (1"; "2)"; "name=x"].
Proof. reflexivity. Qed.

Lemma comma_always_matches (s : string) :
  PyRe.match_and_or_comma (String comma s) <> None.
Proof.
  unfold PyRe.match_and_or_comma.
  destruct (PyRe.match_ws_kw "and" (String comma s)); [discriminate|].
  simpl. discriminate.
Qed.

Lemma split_go_pieces (m : string -> option nat) (c : ascii) :
  (forall s, m (String c s) <> None) ->
  forall s skip cur,
    PyStr.mem_char c cur = false ->
    Forall (fun piece => PyStr.mem_char c piece = false)
           (PyRe.split_go m s skip cur).
Proof.
  intros Hm. induction s as [|a s IH]; intros skip cur Hcur; simpl.
  - constructor; [now rewrite mem_char_rev | constructor].
  - destruct skip as [|k].
    + destruct (m (String a s)) as [n|] eqn:E.
      * constructor; [now rewrite mem_char_rev | now apply IH].
      * apply IH. simpl. rewrite Hcur, orb_false_r.
        destruct (Ascii.eqb c a) eqn:Eca; [|reflexivity].
        apply Ascii.eqb_eq in Eca. subst a. now apply Hm in E.
    + now apply IH.
Qed.

Lemma split_leaves_no_comma (conditions_part : string) :
  Forall (fun cond => PyStr.contains "," cond = false)
         (PyRe.split_and_or_comma conditions_part).
Proof.
  eapply Forall_impl;
    [| apply (split_go_pieces PyRe.match_and_or_comma comma comma_always_matches);
       reflexivity].
  intros piece H. change "," with (String comma EmptyString).
  now rewrite contains_char.
Qed.

Section Weave.

Lemma append_nil_r (s : string) : s ++ EmptyString = s.
Proof. induction s; simpl; congruence. Qed.

Lemma append_assoc (a b c : string) : (a ++ b) ++ c = a ++ (b ++ c).
Proof. induction a; simpl; congruence. Qed.

Lemma rev_onto_append (s acc : string) :
  PyStr.rev_onto s acc = PyStr.rev s ++ acc.
Proof.
  unfold PyStr.rev. revert acc. induction s as [|a s IH]; intros acc; simpl.
  - reflexivity.
  - rewrite IH, (IH (String a EmptyString)), append_assoc. reflexivity.
Qed.

Lemma rev_cons (a : ascii) (s : string) :
  PyStr.rev (String a s) = PyStr.rev s ++ String a EmptyString.
Proof. unfold PyStr.rev at 1. simpl. apply rev_onto_append. Qed.

Lemma take_drop (n : nat) (s : string) : PyStr.take n s ++ PyStr.drop n s = s.
Proof.
  revert s. induction n as [|n IH]; intros [|a s]; simpl; try reflexivity.
  now rewrite IH.
Qed.

Lemma take_length (n : nat) (s : string) :
  n <= String.length s -> String.length (PyStr.take n s) = n.
Proof.
  revert s. induction n as [|n IH]; intros [|a s]; simpl; intros H;
    try reflexivity; try lia.
  rewrite IH; [reflexivity | lia].
Qed.

Lemma take_app_exact (a b : string) : PyStr.take (String.length a) (a ++ b) = a.
Proof. induction a; simpl; [now destruct b | congruence]. Qed.

Lemma lower_length (s : string) : String.length (PyStr.lower s) = String.length s.
Proof. induction s; simpl; congruence. Qed.

Lemma take_while_split (f : ascii -> bool) (s : string) :
  PyStr.take_while f s ++ PyStr.drop (String.length (PyStr.take_while f s)) s = s.
Proof.
  induction s as [|a s IH]; simpl; [reflexivity|].
  destruct (f a); simpl; [now rewrite IH | reflexivity].
Qed.

Lemma take_while_all (f : ascii -> bool) (s : string) :
  PyStr.lstrip_by f (PyStr.take_while f s) = EmptyString.
Proof.
  induction s as [|a s IH]; simpl; [reflexivity|].
  destruct (f a) eqn:E; simpl; [now rewrite E | reflexivity].
Qed.

(** What a match of the keyword pattern consumes. *)
Lemma match_ws_kw_spec (kw s : string) (n : nat) :
  PyRe.match_ws_kw kw s = Some n ->
  exists w1 word w2 rest,
    s = (w1 ++ word ++ w2) ++ rest /\ n = String.length (w1 ++ word ++ w2)
    /\ PyStr.lower word = kw
    /\ w1 <> EmptyString /\ w2 <> EmptyString /\ all_space w1 /\ all_space w2.
Proof.
  unfold PyRe.match_ws_kw.
  set (w1 := PyStr.take_while PyStr.is_space s).
  destruct (String.length w1) as [|n1] eqn:E1; [discriminate|].
  set (r := PyStr.drop (S n1) s).
  destruct (String.eqb (PyStr.lower (PyStr.take (String.length kw) r)) kw) eqn:Ek;
    [|discriminate].
  apply String.eqb_eq in Ek.
  set (word := PyStr.take (String.length kw) r) in *.
  set (r2 := PyStr.drop (String.length kw) r).
  set (w2 := PyStr.take_while PyStr.is_space r2).
  destruct (String.length w2) as [|n2] eqn:E2; [discriminate|].
  intros H. injection H as <-.
  exists w1, word, w2, (PyStr.drop (String.length w2) r2).
  assert (Hs : s = w1 ++ r).
  { unfold r. rewrite <- E1. symmetry. apply take_while_split. }
  assert (Hr : r = word ++ r2) by (symmetry; apply take_drop).
  assert (Hr2 : r2 = w2 ++ PyStr.drop (String.length w2) r2)
    by (symmetry; apply take_while_split).
  assert (Hw : String.length word = String.length kw)
    by (rewrite <- (lower_length word), Ek; reflexivity).
  repeat split.
  - rewrite !append_assoc, <- Hr2, <- Hr. exact Hs.
  - rewrite !append_length, E1, E2, Hw. lia.
  - exact Ek.
  - intros E. rewrite E in E1. discriminate.
  - intros E. rewrite E in E2. discriminate.
  - apply take_while_all.
  - apply take_while_all.
Qed.

Lemma match_and_or_comma_spec (s : string) (n : nat) :
  PyRe.match_and_or_comma s = Some n ->
  1 <= n <= String.length s /\ is_separator (PyStr.take n s).
Proof.
  unfold PyRe.match_and_or_comma.
  destruct (PyRe.match_ws_kw "and" s) as [k|] eqn:E.
  - intros H. injection H as <-.
    apply match_ws_kw_spec in E.
    destruct E as (w1 & word & w2 & rest & Hs & Hn & Hl & H1 & H2 & Ha1 & Ha2).
    subst k s. rewrite take_app_exact.
    split; [|right; exists w1, word, w2; repeat split; assumption].
    rewrite !append_length. destruct w1; [congruence | simpl; lia].
  - destruct s as [|a s]; [discriminate|].
    change (PyStr.startswith "," (String a s)) with (Ascii.eqb "," a && true).
    destruct (Ascii.eqb "," a) eqn:Ea; [|discriminate].
    apply Ascii.eqb_eq in Ea. subst a. intros H. injection H as <-.
    split; [simpl; lia | left; reflexivity].
Qed.

(** The pieces of a split, with the matches between them, spell the text. *)
Lemma split_go_weave (m : string -> option nat) (P : string -> Prop) :
  (forall r n, m r = Some n -> 1 <= n <= String.length r /\ P (PyStr.take n r)) ->
  forall s skip cur,
    skip <= String.length s ->
    exists seps,
      weave (PyRe.split_go m s skip cur) seps = PyStr.rev cur ++ PyStr.drop skip s
      /\ S (List.length seps) = List.length (PyRe.split_go m s skip cur)
      /\ Forall P seps.
Proof.
  intros Hm. induction s as [|a s IH]; intros skip cur Hskip.
  - simpl in Hskip. assert (skip = 0) by lia. subst skip.
    exists []. simpl. now rewrite append_nil_r.
  - destruct skip as [|k].
    + simpl PyRe.split_go. destruct (m (String a s)) as [n|] eqn:E.
      * destruct (Hm _ _ E) as [[Hn1 Hn2] HP]. simpl in Hn2.
        destruct (IH (n - 1) EmptyString ltac:(lia)) as (seps & Hw & Hl & Hf).
        exists (PyStr.take n (String a s) :: seps).
        split; [|split; [simpl; now rewrite Hl | now constructor]].
        destruct (PyRe.split_go m s (n - 1) EmptyString) as [|x xs] eqn:Ex;
          [simpl in Hl; discriminate|].
        change (weave (PyStr.rev cur :: x :: xs)
                      (PyStr.take n (String a s) :: seps))
          with (PyStr.rev cur ++ PyStr.take n (String a s) ++ weave (x :: xs) seps).
        rewrite Hw. change (PyStr.rev EmptyString) with EmptyString.
        simpl append at 3.
        destruct n as [|n']; [lia|].
        replace (S n' - 1) with n' by lia.
        change (PyStr.drop n' s) with (PyStr.drop (S n') (String a s)).
        now rewrite take_drop.
      * destruct (IH 0 (String a cur) ltac:(lia)) as (seps & Hw & Hl & Hf).
        exists seps. split; [|split; assumption].
        rewrite Hw, rev_cons, append_assoc. reflexivity.
    + simpl in Hskip. simpl PyRe.split_go.
      destruct (IH k cur ltac:(lia)) as (seps & Hw & Hl & Hf).
      exists seps. split; [exact Hw | split; assumption].
Qed.

Lemma split_go_skip (m : string -> option nat) :
  forall s skip cur,
    skip <= String.length s ->
    PyRe.split_go m s skip cur = PyRe.split_go m (PyStr.drop skip s) 0 cur.
Proof.
  induction s as [|a s IH]; intros skip cur H.
  - simpl in H. assert (skip = 0) by lia. subst. reflexivity.
  - destruct skip as [|k]; [reflexivity|]. simpl in H.
    cbn [PyRe.split_go PyStr.drop]. apply IH. lia.
Qed.

Lemma drop_app_exact (a b : string) : PyStr.drop (String.length a) (a ++ b) = b.
Proof. induction a; simpl; [now destruct b | assumption]. Qed.

Lemma drop_add (n k : nat) :
  forall s, PyStr.drop (n + k) s = PyStr.drop k (PyStr.drop n s).
Proof.
  induction n as [|n IH]; intros s; [reflexivity|].
  destruct s as [|a s]; cbn [Nat.add PyStr.drop]; [now destruct k | apply IH].
Qed.

Lemma drop_take_while (f : ascii -> bool) (s : string) (c : ascii) (r : string) :
  PyStr.drop (String.length (PyStr.take_while f s)) s = String c r -> f c = false.
Proof.
  induction s as [|a s IH]; cbn [PyStr.take_while]; [discriminate|].
  destruct (f a) eqn:E; cbn [String.length PyStr.drop]; [exact IH|].
  intros H. injection H as <- _. exact E.
Qed.

Lemma all_space_cons (c : ascii) (w : string) :
  all_space (String c w) -> PyStr.is_space c = true /\ all_space w.
Proof.
  unfold all_space. cbn [PyStr.lstrip_by].
  destruct (PyStr.is_space c); [auto | discriminate].
Qed.

Lemma take_while_space_app (w r : string) :
  all_space w ->
  PyStr.take_while PyStr.is_space (w ++ r)
  = w ++ PyStr.take_while PyStr.is_space r.
Proof.
  induction w as [|c w IH]; intros H; [reflexivity|].
  apply all_space_cons in H. destruct H as [Hc Hw].
  cbn [String.append PyStr.take_while]. now rewrite Hc, IH.
Qed.

Lemma lower_a_not_space (c : ascii) :
  PyStr.lower_char c = "a"%char -> PyStr.is_space c = false.
Proof.
  destruct c as [[] [] [] [] [] [] [] []]; vm_compute; intros H;
    first [reflexivity | discriminate H].
Qed.

Lemma and_word (word : string) :
  PyStr.lower word = "and" ->
  String.length word = 3
  /\ exists c r, word = String c r /\ PyStr.is_space c = false.
Proof.
  intros H. split; [now rewrite <- (lower_length word), H|].
  destruct word as [|c r]; [discriminate|]. exists c, r.
  split; [reflexivity|]. cbn [PyStr.lower] in H. injection H as Hc _.
  now apply lower_a_not_space.
Qed.

(** What the keyword pattern matches where an [and] between whitespace
    starts: the whitespace behind the word goes with it. *)
Lemma match_ws_and (w1 word w2 rest : string) :
  PyStr.lower word = "and" ->
  w1 <> EmptyString -> w2 <> EmptyString -> all_space w1 -> all_space w2 ->
  PyRe.match_ws_kw "and" ((w1 ++ word ++ w2) ++ rest)
  = Some (String.length w1 + 3
          + (String.length w2
             + String.length (PyStr.take_while PyStr.is_space rest))).
Proof.
  intros Hl H1 H2 Ha1 Ha2.
  destruct (and_word word Hl) as (Hlen & c & r & Ew & Hc).
  unfold PyRe.match_ws_kw. cbv zeta. rewrite !append_assoc.
  rewrite (take_while_space_app w1 _ Ha1).
  replace (PyStr.take_while PyStr.is_space (word ++ w2 ++ rest))
    with EmptyString
    by (rewrite Ew; cbn [String.append PyStr.take_while]; now rewrite Hc).
  rewrite append_nil_r.
  destruct (String.length w1) as [|n1] eqn:E1;
    [destruct w1; [congruence | discriminate]|].
  rewrite <- E1, drop_app_exact.
  change (String.length "and") with 3. rewrite <- Hlen.
  rewrite take_app_exact, drop_app_exact, Hl, String.eqb_refl.
  rewrite (take_while_space_app w2 _ Ha2), append_length.
  destruct w2 as [|x w2]; [congruence|]. reflexivity.
Qed.

(** Where a separator starts, the pattern matches. *)
Lemma separator_matches (t : string) :
  separator_starts t -> PyRe.match_and_or_comma t <> None.
Proof.
  intros (sep & rest & -> & [-> | (w1 & word & w2 & -> & Hl & H1 & H2 & Ha1 & Ha2)]).
  - apply comma_always_matches.
  - unfold PyRe.match_and_or_comma.
    rewrite (match_ws_and w1 word w2 rest Hl H1 H2 Ha1 Ha2). discriminate.
Qed.

(** A separator that has taken the whitespace behind it is what the
    pattern matches. *)
Lemma separator_matched (sep rest : string) :
  is_separator sep ->
  (sep <> "," -> forall c r, rest = String c r -> PyStr.is_space c = false) ->
  PyRe.match_and_or_comma (sep ++ rest) = Some (String.length sep).
Proof.
  intros [-> | (w1 & word & w2 & -> & Hl & H1 & H2 & Ha1 & Ha2)] Hg.
  - reflexivity.
  - unfold PyRe.match_and_or_comma.
    rewrite (match_ws_and w1 word w2 rest Hl H1 H2 Ha1 Ha2).
    destruct (and_word word Hl) as [Hlen _].
    assert (Hn : w1 ++ word ++ w2 <> ",").
    { intros E. apply (f_equal String.length) in E.
      rewrite !append_length, Hlen in E. simpl in E. lia. }
    assert (Hr : PyStr.take_while PyStr.is_space rest = EmptyString).
    { destruct rest as [|c r]; [reflexivity|]. cbn [PyStr.take_while].
      now rewrite (Hg Hn c r eq_refl). }
    rewrite Hr, !append_length, Hlen. simpl. f_equal. lia.
Qed.

(** The whitespace behind the word [and] belongs to the separator. *)
Lemma match_is_greedy (t : string) (n : nat) :
  PyRe.match_and_or_comma t = Some n ->
  PyStr.take n t <> "," ->
  forall c r, PyStr.drop n t = String c r -> PyStr.is_space c = false.
Proof.
  unfold PyRe.match_and_or_comma.
  destruct (PyRe.match_ws_kw "and" t) as [k|] eqn:E.
  - intros H _. injection H as <-. revert E. unfold PyRe.match_ws_kw. cbv zeta.
    destruct (String.length (PyStr.take_while PyStr.is_space t)) as [|n1];
      [discriminate|].
    destruct (String.eqb _ "and"); [|discriminate].
    set (r2 := PyStr.drop (String.length "and") (PyStr.drop (S n1) t)).
    destruct (String.length (PyStr.take_while PyStr.is_space r2)) as [|n2] eqn:E2;
      [discriminate|].
    intros H. injection H as <-. intros c r.
    change (S (n1 + 3 + S n2)) with (S n1 + String.length "and" + S n2).
    rewrite !drop_add. fold r2. rewrite <- E2. apply drop_take_while.
  - destruct t as [|a t]; [discriminate|].
    change (PyStr.startswith "," (String a t)) with (Ascii.eqb "," a && true).
    destruct (Ascii.eqb "," a) eqn:Ea; [|discriminate].
    apply Ascii.eqb_eq in Ea. subst a. intros H. injection H as <-.
    intros N. now contradiction N.
Qed.

Lemma no_separator_inside_nil (behind : string) :
  no_separator_inside EmptyString behind.
Proof. intros [|x a] b E Hb; [simpl in E; congruence | discriminate]. Qed.

Lemma snoc_split (a0 b0 x : string) (a : ascii) :
  a0 ++ b0 = x ++ String a EmptyString -> b0 <> EmptyString ->
  exists b1, b0 = b1 ++ String a EmptyString /\ x = a0 ++ b1.
Proof.
  revert x. induction a0 as [|c a0 IH]; intros x E Hb.
  - exists x. now split.
  - destruct x as [|c' x]; cbn [String.append] in E.
    + injection E as _ E. destruct a0; [simpl in E; congruence | discriminate].
    + injection E as -> E. destruct (IH x E Hb) as (b1 & -> & ->).
      exists b1. now split.
Qed.

(** The scan cuts at the first position where a separator starts. *)
Lemma split_go_leftmost (n : nat) :
  forall s cur,
    String.length s <= n ->
    no_separator_inside (PyStr.rev cur) s ->
    split_at_separators (PyStr.rev cur ++ s)
      (PyRe.split_go PyRe.match_and_or_comma s 0 cur).
Proof.
  induction n as [|n IH]; intros s cur Hlen Hcur.
  - destruct s; [|simpl in Hlen; lia]. rewrite append_nil_r.
    now apply split_last.
  - destruct s as [|a s].
    + rewrite append_nil_r. now apply split_last.
    + simpl in Hlen. cbn [PyRe.split_go].
      destruct (PyRe.match_and_or_comma (String a s)) as [k|] eqn:E.
      * destruct (match_and_or_comma_spec _ _ E) as [[Hk1 Hk2] Hsep].
        simpl in Hk2. rewrite split_go_skip by lia.
        destruct k as [|k]; [lia|]. replace (S k - 1) with k by lia.
        change (PyStr.drop k s) with (PyStr.drop (S k) (String a s)).
        rewrite <- (take_drop (S k) (String a s)) at 1.
        apply split_cut.
        -- exact Hsep.
        -- now rewrite take_drop.
        -- now apply match_is_greedy.
        -- apply (IH _ EmptyString); [|apply no_separator_inside_nil].
           change (String.length (PyStr.drop k s) <= n).
           assert (Hd : forall m t, String.length (PyStr.drop m t) <= String.length t).
           { induction m as [|m IHm]; intros [|y t]; simpl; auto. }
           specialize (Hd k s). lia.
      * replace (PyStr.rev cur ++ String a s)
          with (PyStr.rev (String a cur) ++ s)
          by (now rewrite rev_cons, append_assoc).
        apply IH; [lia|]. rewrite rev_cons.
        intros a0 b0 E0 Hb0.
        destruct (snoc_split _ _ _ _ (eq_sym E0) Hb0) as (b1 & -> & Ecur).
        rewrite append_assoc. cbn [String.append].
        destruct b1 as [|y b1].
        -- intros Hs. now apply separator_matches in Hs.
        -- apply (Hcur a0 (String y b1)); [exact Ecur | discriminate].
Qed.

Lemma separator_not_empty (sep : string) : is_separator sep -> sep <> EmptyString.
Proof.
  intros [-> | (w1 & word & w2 & -> & _ & H1 & _)]; [discriminate|].
  destruct w1; [congruence | discriminate].
Qed.

(** No piece of a text cut this way has a separator in it. *)
Lemma pieces_hold_no_separator (s : string) (pieces : list string) :
  split_at_separators s pieces ->
  Forall (fun piece => forall a sep b, piece = a ++ sep ++ b -> ~ is_separator sep)
         pieces.
Proof.
  assert (Hin : forall piece behind,
            no_separator_inside piece behind ->
            forall a sep b, piece = a ++ sep ++ b -> ~ is_separator sep).
  { intros piece behind Hno a sep b E Hsep.
    apply (Hno a (sep ++ b) E).
    - intros N. apply (separator_not_empty _ Hsep).
      destruct sep; [reflexivity | discriminate].
    - exists sep, (b ++ behind). split; [apply append_assoc | exact Hsep]. }
  induction 1 as [s Hno | piece sep rest pieces Hsep Hno Hg Hrest IH].
  - constructor; [|constructor]. now apply (Hin s EmptyString).
  - constructor; [|exact IH]. now apply (Hin piece (sep ++ rest)).
Qed.

End Weave.

Lemma rev_rev_onto (piece cur : string) :
  PyStr.rev (PyStr.rev_onto piece cur) = PyStr.rev cur ++ piece.
Proof.
  revert cur. induction piece as [|a piece IH]; intros cur.
  - cbn [PyStr.rev_onto]. now rewrite append_nil_r.
  - cbn [PyStr.rev_onto]. rewrite IH, rev_cons, append_assoc. reflexivity.
Qed.

(** The scan goes through a piece that no separator starts in. *)
Lemma scan_piece (piece behind : string) :
  no_separator_inside piece behind ->
  forall cur,
    PyRe.split_go PyRe.match_and_or_comma (piece ++ behind) 0 cur
    = PyRe.split_go PyRe.match_and_or_comma behind 0 (PyStr.rev_onto piece cur).
Proof.
  induction piece as [|a piece IH]; intros Hno cur; [reflexivity|].
  cbn [String.append PyRe.split_go PyStr.rev_onto].
  destruct (PyRe.match_and_or_comma (String a (piece ++ behind))) as [n|] eqn:E.
  - exfalso. apply (Hno EmptyString (String a piece) eq_refl); [discriminate|].
    destruct (match_and_or_comma_spec _ _ E) as [_ Hsep].
    exists (PyStr.take n (String a (piece ++ behind))),
           (PyStr.drop n (String a (piece ++ behind))).
    split; [symmetry; apply take_drop | exact Hsep].
  - apply IH. intros a0 b0 E0 Hb0.
    apply (Hno (String a a0) b0); [now rewrite E0 | exact Hb0].
Qed.

(** A text has one left-to-right cut, the one the pattern makes. *)
Lemma split_at_separators_unique (s : string) (pieces : list string) :
  split_at_separators s pieces -> PyRe.split_and_or_comma s = pieces.
Proof.
  unfold PyRe.split_and_or_comma.
  induction 1 as [s Hno | piece sep rest pieces Hsep Hno Hg Hrest IH].
  - rewrite <- (append_nil_r s) at 1. rewrite (scan_piece _ _ Hno).
    cbn [PyRe.split_go]. now rewrite rev_rev_onto.
  - rewrite (scan_piece _ _ Hno).
    pose proof (separator_matched sep rest Hsep Hg) as Hm.
    pose proof (separator_not_empty sep Hsep) as Hne.
    destruct sep as [|c sep']; [congruence|].
    cbn [String.append PyRe.split_go] in *. rewrite Hm, rev_rev_onto.
    cbn [String.length Nat.sub]. rewrite Nat.sub_0_r.
    rewrite split_go_skip by (rewrite append_length; lia).
    now rewrite drop_app_exact, IH.
Qed.

(** The word [and] is a separator once: the second [and] of [x and and y]
    has lost its leading whitespace to the first one. *)
Lemma repeated_and_is_cut_once :
  PyRe.split_and_or_comma "x and and y" = ["x"; "and y"].
Proof. reflexivity. Qed.

(** C3 (amended): the WHERE clause is cut from left to right at commas,
    nested in parentheses or not, and at the word [and] (in any case)
    between two runs of whitespace: the cut is made at the first position
    where such a separator starts, the whitespace around an [and] goes with
    it, and the search goes on behind the separator.  The conditions are
    the one list of pieces that cuts the clause this way.  So no condition
    holds a comma or a separating [and]; the conditions, with the
    separators between them, spell the clause; and every separator is a
    comma or such an [and]. *)
Theorem where_clause_split (conditions_part : string) :
  (forall pieces,
     split_at_separators conditions_part pieces
     <-> pieces = PyRe.split_and_or_comma conditions_part)
  /\ Forall (fun cond => forall a sep b, cond = a ++ sep ++ b -> ~ is_separator sep)
            (PyRe.split_and_or_comma conditions_part)
  /\ Forall (fun cond => PyStr.contains "," cond = false)
            (PyRe.split_and_or_comma conditions_part)
  /\ exists seps,
       weave (PyRe.split_and_or_comma conditions_part) seps = conditions_part
       /\ S (List.length seps)
          = List.length (PyRe.split_and_or_comma conditions_part)
       /\ Forall is_separator seps.
Proof.
  assert (Hs : split_at_separators conditions_part
                 (PyRe.split_and_or_comma conditions_part)).
  { apply (split_go_leftmost (String.length conditions_part) conditions_part
             EmptyString (le_n _)).
    apply no_separator_inside_nil. }
  split.
  { intros pieces. split.
    - intros H. symmetry. now apply split_at_separators_unique.
    - now intros ->. }
  split; [exact (pieces_hold_no_separator _ _ Hs)|].
  split; [apply split_leaves_no_comma|].
  destruct (split_go_weave PyRe.match_and_or_comma is_separator
              match_and_or_comma_spec conditions_part 0 EmptyString
              ltac:(lia)) as (seps & Hw & Hl & Hf).
  exists seps. repeat split; assumption.
Qed.

(* ------------------------------------------------------------------ *)
(** ** Reasoning about computations *)

Lemma bind_ok {A B : Type} (m : M A) (k : A -> M B) (c c' : fuzzy_cache) (b : B) :
  bind m k c = (Ok b, c') ->
  exists a c1, m c = (Ok a, c1) /\ k a c1 = (Ok b, c').
Proof.
  unfold bind. destruct (m c) as [[a|e] c1]; intros H.
  - now exists a, c1.
  - discriminate.
Qed.

Lemma ret_ok {A : Type} (a b : A) (c c' : fuzzy_cache) :
  ret a c = (Ok b, c') -> a = b /\ c = c'.
Proof. unfold ret. intros H. now inversion H. Qed.

Lemma raise_ok {A : Type} (e : error) (b : A) (c c' : fuzzy_cache) :
  raise e c = (Ok b, c') -> False.
Proof. unfold raise. discriminate. Qed.

(** Splits a successful run of a computation into the runs of its parts. *)
Ltac run_ok H :=
  repeat match type of H with
  | bind _ _ _ = (Ok _, _) =>
      let a := fresh "a" in let c := fresh "c" in let H1 := fresh "Hrun" in
      apply bind_ok in H; destruct H as (a & c & H1 & H)
  | ret _ _ = (Ok _, _) =>
      apply ret_ok in H; destruct H as [? ?]; subst
  | raise _ _ = (Ok _, _) => now apply raise_ok in H
  end.

(** An invariant of the loop body, which may mention the cache, is an
    invariant of the loop. *)
Lemma for_each_invariant {A S : Type} (I : S -> fuzzy_cache -> Prop)
    (body : S -> A -> M S) :
  (forall acc x c acc' c', I acc c -> body acc x c = (Ok acc', c') -> I acc' c') ->
  forall l acc c acc' c',
    I acc c -> for_each body l acc c = (Ok acc', c') -> I acc' c'.
Proof.
  intros Hbody. induction l as [|x l IH]; intros acc c acc' c' Hacc H; simpl in H.
  - apply ret_ok in H. destruct H; now subst.
  - apply bind_ok in H. destruct H as (a & c1 & H1 & H2).
    eapply IH; [|exact H2]. eapply Hbody; eauto.
Qed.

(* ------------------------------------------------------------------ *)
(** ** The base table of a legacy query *)

(** C4, as the code has it: [company_name] is listed first and resolves to
    the table [company], yet the base table is [job], which
    [_detect_optimal_base_table] prefers whenever it is selected. *)
Lemma legacy_first_column_not_base :
  fst (parse no_strptime insertion_order job_parser
             "show company_name, job_number" [])
  = Ok {| select_columns := [mk_col "company" "name"; mk_col "job" "job_number"];
          base_table := Some "job"; where_parts := []; params := [];
          where_tables := []; order_by := None; order_dir := "ASC" |}.
Proof. vm_compute. reflexivity. Qed.

Lemma show_is_not_primary (s : string) :
  PyStr.startswith "show " s = true -> PyStr.startswith "primary " s = false.
Proof.
  destruct s as [|a s]; [discriminate|].
  change (PyStr.startswith "show " (String a s))
    with (Ascii.eqb "s" a && PyStr.startswith "how " s).
  change (PyStr.startswith "primary " (String a s))
    with (Ascii.eqb "p" a && PyStr.startswith "rimary " s).
  destruct (Ascii.eqb "s" a) eqn:E; [|discriminate].
  apply Ascii.eqb_eq in E. subst a. reflexivity.
Qed.

Lemma split_query_legacy (q : string) :
  PyStr.startswith "show " (PyStr.lower q) = true ->
  split_query q = Ok (None, _parse_order_where (PyStr.strip (PyStr.drop 5 q))).
Proof.
  intros H. unfold split_query.
  rewrite (show_is_not_primary _ H), H. reflexivity.
Qed.

Section SelectLoop.

Variable strptime : string -> string -> option string.
Variable set_iter : list string -> list string.
Variable p : QueryParser.

Lemma select_entry_first_is_base st col_str c st' c' :
  first_is_base st ->
  select_entry set_iter p st col_str c = (Ok st', c') ->
  first_is_base st'.
Proof.
  intros Hst H. unfold select_entry in H.
  destruct (String.eqb (PyStr.strip col_str) EmptyString).
  - apply ret_ok in H. destruct H; now subst.
  - destruct (split_aggregate (PyStr.strip col_str)) as [agg cs].
    apply bind_ok in H. destruct H as ([ci|] & c1 & _ & H).
    + apply ret_ok in H. destruct H as [<- _]. right.
      destruct Hst as [[Hb Hc] | (f & r & Hc & Hb)]; rewrite Hb, Hc; simpl.
      * eexists. exists []. split; [reflexivity|]. now destruct agg.
      * exists f. eexists. split; reflexivity.
    + apply bind_ok in H. destruct H as ([|m ms] & c2 & _ & H);
        now apply raise_ok in H.
Qed.

(** The select loop resolves the entries it is given in their order and
    appends the columns in that order; the base table, once set, stays. *)
Lemma select_loop_resolves (l : list string) :
  forall st c st' c',
    for_each (select_entry set_iter p) l st c = (Ok st', c') ->
    exists new,
      snd st' = (snd st ++ new)%list
      /\ fst st' = match fst st with
                   | Some b => Some b
                   | None => option_map table (hd_error new)
                   end
      /\ entries_resolve p (fst st)
           (filter (fun e => negb (String.eqb e EmptyString)) (map PyStr.strip l))
           c new c'.
Proof.
  induction l as [|x l IH]; intros st c st' c' H; simpl in H.
  - apply ret_ok in H. destruct H as [<- <-]. exists [].
    split; [now rewrite app_nil_r|]. split; [now destruct (fst st) | reflexivity].
  - apply bind_ok in H. destruct H as (st1 & c1 & H1 & H).
    apply IH in H. destruct H as (new & Hs & Hf & He).
    cbn [map filter]. unfold select_entry in H1.
    destruct (String.eqb (PyStr.strip x) EmptyString) eqn:Ex; cbn [negb].
    + apply ret_ok in H1. destruct H1 as [<- <-]. now exists new.
    + destruct (split_aggregate (PyStr.strip x)) as [agg cs] eqn:Ea.
      apply bind_ok in H1. destruct H1 as ([ci0|] & c2 & Hfind & H1).
      * apply ret_ok in H1. destruct H1 as [<- <-].
        cbn [fst snd] in Hs, Hf, He.
        exists (with_aggregate agg ci0 :: new).
        split; [now rewrite Hs, <- app_assoc|].
        split.
        { rewrite Hf. cbn [hd_error option_map].
          destruct (fst st); [reflexivity|]. now destruct agg. }
        cbn [entries_resolve]. exists c2. split.
        { exists ci0. rewrite Ea. now split. }
        destruct (fst st); destruct agg; exact He.
      * apply bind_ok in H1. destruct H1 as ([|m ms] & c3 & _ & H1);
          now apply raise_ok in H1.
Qed.

(** C4 (amended): in the legacy form the columns are resolved in the order
    in which the query lists them, and each has to resolve.  The first
    entry listed is resolved without a base table and heads the select
    list; the entries behind it are resolved, in their order, against the
    table of that first column.  The base table is the table of the first
    listed column unless a selected column belongs to [job], [job_detail]
    or [job_schedule]: then it is the first of these three that is
    selected. *)
Theorem legacy_base_table (q : string) (cache cache' : fuzzy_cache)
    (pq : ParsedQuery) :
  PyStr.startswith "show " (PyStr.lower (PyStr.strip q)) = true ->
  parse strptime set_iter p q cache = (Ok pq, cache') ->
  exists first rest e1 erest c1 c2,
    listed_columns q = e1 :: erest
    /\ select_columns pq = first :: rest
    /\ entry_resolves p None e1 cache first c1
    /\ entries_resolve p (Some (table first)) erest c1 rest c2
    /\ base_table pq
       = match List.find (fun t => PyStr.mem t (map table (first :: rest)))
                         ["job"; "job_detail"; "job_schedule"] with
         | Some t => Some t
         | None => Some (table first)
         end.
Proof.
  intros Hshow H. unfold parse in H.
  rewrite (split_query_legacy _ Hshow) in H.
  unfold listed_columns, listed_entries.
  set (ow := _parse_order_where _) in *. simpl truthy in H. cbv iota in H.
  apply bind_ok in H. destruct H as (st0 & c0 & H0 & H).
  apply ret_ok in H0. destruct H0 as [<- <-].
  apply bind_ok in H. destruct H as (st & c1 & H1 & H).
  destruct (String.eqb (ow_columns ow) EmptyString).
  { apply ret_ok in H1. destruct H1 as [<- _]. now apply raise_ok in H. }
  apply select_loop_resolves in H1. destruct H1 as (new & Hs & Hf & He).
  destruct st as [bt cols]. cbn [fst snd app] in Hs, Hf, He. subst cols.
  destruct new as [|f r]; [now apply raise_ok in H|].
  cbn [hd_error option_map] in Hf. subst bt.
  apply bind_ok in H. destruct H as (acc & c2 & _ & H).
  apply ret_ok in H. destruct H as [<- _]. cbn [select_columns base_table].
  destruct (filter _ (map PyStr.strip (PyStr.split "," (ow_columns ow))))
    as [|e1 erest]; [contradiction|].
  cbn [entries_resolve] in He. destruct He as (cx & He1 & Hrest).
  exists f, r, e1, erest, cx, c1. repeat split; auto.
Qed.

End SelectLoop.

Lemma legacy_base_table_witness :
  exists first rest e1 erest c1 c2,
    listed_columns "show company_name, job_number" = e1 :: erest
    /\ [mk_col "company" "name"; mk_col "job" "job_number"] = first :: rest
    /\ entry_resolves job_parser None e1 [] first c1
    /\ entries_resolve job_parser (Some (table first)) erest c1 rest c2
    /\ Some "job"
       = match List.find (fun t => PyStr.mem t (map table (first :: rest)))
                         ["job"; "job_detail"; "job_schedule"] with
         | Some t => Some t
         | None => Some (table first)
         end.
Proof.
  apply (legacy_base_table no_strptime insertion_order job_parser
           "show company_name, job_number" [] []
           {| select_columns := [mk_col "company" "name"; mk_col "job" "job_number"];
              base_table := Some "job"; where_parts := []; params := [];
              where_tables := []; order_by := None; order_dir := "ASC" |});
    vm_compute; reflexivity.
Defined.

(* ------------------------------------------------------------------ *)
(** ** Conditions on text columns *)

(** C10, as the code has it: [job.status] is a [varchar] column, but a
    condition on it is taken for a status shortcut before the column is
    looked at; no boolean column fits and the condition is refused.  And a
    condition on the [varchar] column [job_number] whose text holds
    [ is null] or [ to ] is taken for a null test or for a date range before
    any operator is read. *)
Lemma status_text_column_not_ilike :
  fst (find_column job_parser "status" (Some "job") [])
    = Ok (Some (mk_col "job" "status"))
  /\ _get_column_type job_parser "job" "status" = "varchar"
  /\ fst (_add_condition job_parser "status" "open" ">" (Some "job") no_conds [])
    = Raise (ValueError "Status 'open' tidak dikenali.")
  /\ fst (parse no_strptime insertion_order job_parser
                "show job_number where status>open" [])
    = Raise (ValueError "Status 'open' tidak dikenali.")
  /\ _get_column_type job_parser "job" "job_number" = "varchar"
  /\ fst (_process_condition no_strptime job_parser "job_number=x is null"
            (Some "job") no_conds [])
    = Ok {| c_where := [col_ref "job" "job_number" ++ " IS NULL"];
            c_params := []; c_tables := ["job"] |}
  /\ fst (_process_condition no_strptime job_parser "job_number=how to cook"
            (Some "job") no_conds [])
    = Ok {| c_where := [col_ref "job" "job_number"
                        ++ "::date BETWEEN %s::date AND %s::date"];
            c_params := [VStr "how"; VStr "cook"]; c_tables := ["job"] |}.
Proof. repeat split; vm_compute; reflexivity. Qed.

Lemma text_type_is_no_date (t : string) :
  PyStr.mem t text_types = true -> PyStr.mem t date_types = false.
Proof.
  intros H. apply mem_In in H. simpl in H.
  repeat (destruct H as [<- | H]; [reflexivity|]). contradiction.
Qed.

Lemma condition_values_plain (val_part : string) :
  PyStr.contains "/" val_part = false ->
  PyStr.contains "|" val_part = false ->
  condition_values val_part = [PyStr.lower val_part].
Proof. intros H1 H2. unfold condition_values. now rewrite H1, H2. Qed.

(** What [_add_condition] does with a text column and a single value. *)
Lemma add_condition_ilike (p : QueryParser) (col_part val_part op : string)
    (base : option string) (acc : conds) (cache cache' : fuzzy_cache)
    (ci : col_info) :
  is_status_condition p col_part && truthy base = false ->
  find_column p col_part base cache = (Ok (Some ci), cache') ->
  PyStr.mem (_get_column_type p (table ci) (column ci)) text_types = true ->
  PyStr.contains "/" val_part = false ->
  PyStr.contains "|" val_part = false ->
  _add_condition p col_part val_part op base acc cache
  = (Ok {| c_where := List.app (c_where acc)
                        [col_ref (table ci) (column ci) ++ " ILIKE %s"];
           c_params := List.app (c_params acc)
                         [VStr ("%" ++ PyStr.lower val_part ++ "%")];
           c_tables := set_add (table ci) (c_tables acc) |},
     cache').
Proof.
  intros Hst Hfind Htext Hs Hb. unfold _add_condition.
  rewrite Hst, (condition_values_plain _ Hs Hb).
  unfold bind. rewrite Hfind. unfold add_column_condition.
  rewrite (text_type_is_no_date _ Htext), Htext. reflexivity.
Qed.

(** C10 (amended): take a WHERE condition that is not taken for a date
    range (it holds no [..] and no [ to ]) nor for a null test (it holds
    neither [ is not null] nor [ is null]), whose column text (left of the
    first operator found, or the first word when there is none) holds no
    status keyword (or there is no base table) and resolves to a column of a
    text type, and whose value text has no slash and no bar.  Then
    [_process_condition] emits [ILIKE %s] for that column and binds the
    lower-cased value between percent signs; the operator the user wrote
    appears nowhere in the result. *)
Theorem text_column_ilike (p : QueryParser)
    (strptime : string -> string -> option string)
    (cond op col_part val_part : string)
    (base : option string) (acc : conds) (cache cache' : fuzzy_cache)
    (ci : col_info) :
  PyStr.contains ".." cond = false ->
  PyStr.contains " to " (PyStr.lower cond) = false ->
  PyStr.find " is not null" (PyStr.lower cond) = None ->
  PyStr.find " is null" (PyStr.lower cond) = None ->
  condition_sides cond = Some (op, col_part, val_part) ->
  is_status_condition p col_part && truthy base = false ->
  find_column p col_part base cache = (Ok (Some ci), cache') ->
  PyStr.mem (_get_column_type p (table ci) (column ci)) text_types = true ->
  PyStr.contains "/" val_part = false ->
  PyStr.contains "|" val_part = false ->
  _process_condition strptime p cond base acc cache
  = (Ok {| c_where := List.app (c_where acc)
                        [col_ref (table ci) (column ci) ++ " ILIKE %s"];
           c_params := List.app (c_params acc)
                         [VStr ("%" ++ PyStr.lower val_part ++ "%")];
           c_tables := set_add (table ci) (c_tables acc) |},
     cache').
Proof.
  intros Hdots Hto Hnn Hn Hsides Hst Hfind Htext Hs Hb.
  pose proof (add_condition_ilike p col_part val_part op base acc cache cache' ci
                Hst Hfind Htext Hs Hb) as Hadd.
  unfold _process_condition, date_range. rewrite Hdots, Hto.
  cbn [orb]. cbv iota. unfold bind at 1. unfold ret at 1. cbv iota beta.
  rewrite Hnn, Hn. unfold condition_sides in Hsides.
  destruct (first_operator comparison_ops cond) as [[[o lhs] rhs]|].
  - injection Hsides as -> <- <-. exact Hadd.
  - destruct (PyStr.split_ws1 cond) as [|a [|b [|x l]]]; try discriminate.
    injection Hsides as <- -> <-. exact Hadd.
Qed.

Lemma text_column_ilike_witness :
  _process_condition no_strptime job_parser "job_number >= 'J-17'" (Some "job")
                     no_conds []
  = (Ok {| c_where := [col_ref "job" "job_number" ++ " ILIKE %s"];
           c_params := [VStr "%j-17%"];
           c_tables := ["job"] |},
     []).
Proof.
  apply (text_column_ilike job_parser no_strptime "job_number >= 'J-17'" ">="
           "job_number" "J-17" (Some "job") no_conds [] [] (mk_col "job" "job_number"));
    vm_compute; reflexivity.
Defined.

(* ------------------------------------------------------------------ *)
(** ** Identifiers in the SQL text *)

(** C2, on the code: the column of a configured default filter reaches the
    SQL text although [sanitize_identifier] refuses it; [build_sql] only
    validates the base table and the selected columns. *)
Lemma default_filter_column_not_validated :
  sanitize_identifier (Some hostile_column)
    = Raise (ValueError ("Invalid identifier: '" ++ hostile_column
               ++ "'. Hanya huruf, angka, dan underscore yang diizinkan."))
  /\ fst (translate no_strptime insertion_order hostile_parser
                    "show job_number" [])
    = Ok ("SELECT " ++ col_ref "job" "job_number" ++ " AS " ++ dq ++ "job number"
          ++ dq ++ nl ++ "FROM " ++ dq ++ "job" ++ dq ++ nl
          ++ "WHERE " ++ dq ++ "job" ++ dq ++ "." ++ dq ++ "id" ++ dq
          ++ " = 0 OR " ++ dq ++ "job" ++ dq ++ "." ++ dq ++ "id" ++ dq
          ++ " = %s" ++ nl ++ "LIMIT 1000",
          [VInt 1],
          ["job." ++ hostile_column ++ "=1"]).
Proof. split; vm_compute; reflexivity. Qed.

Lemma sanitize_ok (ident : option string) (n : string) :
  sanitize_identifier ident = Ok n ->
  ident = Some n /\ PyRe.match_identifier n = true.
Proof.
  unfold sanitize_identifier. destruct ident as [i|]; [|discriminate].
  destruct (String.eqb i EmptyString); [discriminate|].
  destruct (PyRe.match_identifier i) eqn:E; [|discriminate].
  intros H. injection H as <-. now split.
Qed.

Lemma for_each_cons {A S : Type} (body : S -> A -> M S) (x : A) (l : list A)
    (acc : S) :
  for_each body (x :: l) acc = bind (body acc x) (fun acc' => for_each body l acc').
Proof. reflexivity. Qed.

(** What [build_sql] does validate: when it returns SQL, the base table and
    the table and column of every selected column match the identifier
    pattern. *)
Lemma build_sql_validates_selected (set_iter : list string -> list string)
    (p : QueryParser) (parsed : ParsedQuery) (limit : Z) (dflt : bool)
    (c c' : fuzzy_cache) (r : string * list value * list string) :
  build_sql set_iter p parsed limit dflt c = (Ok r, c') ->
  (exists base, base_table parsed = Some base
                /\ PyRe.match_identifier base = true)
  /\ Forall (fun col => PyRe.match_identifier (table col) = true
                        /\ PyRe.match_identifier (column col) = true)
            (select_columns parsed).
Proof.
  intros H. unfold build_sql in H.
  destruct (sanitize_identifier (base_table parsed)) as [base|e] eqn:Eb;
    [|now apply raise_ok in H].
  apply sanitize_ok in Eb. split; [now exists base|].
  apply bind_ok in H. destruct H as (u & c1 & Hloop & _).
  clear - Hloop. revert c Hloop.
  induction (select_columns parsed) as [|x l IH]; intros c Hloop; [constructor|].
  rewrite for_each_cons in Hloop.
  apply bind_ok in Hloop. destruct Hloop as ([] & c2 & Hx & Hl).
  constructor; [|now apply (IH c2)]. cbv beta in Hx.
  destruct (sanitize_identifier (Some (table x))) as [t|] eqn:Et;
    [|now apply raise_ok in Hx].
  destruct (sanitize_identifier (Some (column x))) as [cn|] eqn:Ec;
    [|now apply raise_ok in Hx].
  apply sanitize_ok in Et, Ec. destruct Et as [Et1 Et2], Ec as [Ec1 Ec2].
  injection Et1 as <-. injection Ec1 as <-. now split.
Qed.

(** The pattern's [$] lets an identifier end in a line feed. *)
Lemma identifier_with_line_feed_accepted :
  sanitize_identifier (Some ("job" ++ nl)) = Ok ("job" ++ nl).
Proof. vm_compute. reflexivity. Qed.

(* ------------------------------------------------------------------ *)
(** ** Join path search *)

Section SetFacts.

Lemma mem_set_add (x y : string) (s : list string) :
  PyStr.mem x (set_add y s) = String.eqb x y || PyStr.mem x s.
Proof.
  unfold set_add. destruct (PyStr.mem y s) eqn:E.
  - destruct (String.eqb x y) eqn:Exy; [|reflexivity].
    apply String.eqb_eq in Exy. subst. now rewrite E.
  - unfold PyStr.mem. rewrite existsb_app. simpl.
    rewrite orb_false_r. apply orb_comm.
Qed.

Lemma set_add_In (x y : string) (s : list string) :
  In x (set_add y s) <-> x = y \/ In x s.
Proof.
  rewrite <- !mem_In, mem_set_add, orb_true_iff, String.eqb_eq. tauto.
Qed.

Lemma mem_false (x : string) (s : list string) :
  PyStr.mem x s = false <-> ~ In x s.
Proof.
  rewrite <- mem_In. destruct (PyStr.mem x s); split; congruence.
Qed.

End SetFacts.

Section DictKeys.

Context {V : Type}.

Lemma dict_set_In (k k' : string) (v v' : V) (d : list (string * V)) :
  In (k, v) (dict_set k' v' d) -> (k, v) = (k', v') \/ In (k, v) d.
Proof.
  induction d as [|[k2 v2] d IH]; simpl.
  - intros [H|[]]; auto.
  - destruct (String.eqb k' k2); simpl; intros [H|H]; auto.
    destruct (IH H); auto.
Qed.

Lemma dict_get_In (k : string) (v : V) (d : list (string * V)) :
  dict_get k d = Some v -> In (k, v) d.
Proof.
  induction d as [|[k2 v2] d IH]; simpl; [discriminate|].
  destruct (String.eqb k k2) eqn:E.
  - apply String.eqb_eq in E. intros H. injection H as <-. subst. now left.
  - auto.
Qed.

End DictKeys.

Section Search.

Variable p : QueryParser.

Lemma outgoing_keys (rels : list relation) (init : list (string * join_info))
    (k : string) (v : join_info) :
  In (k, v)
     (fold_left (fun related rel =>
        dict_set (to_table rel)
          {| jtype := outgoing; base_column := from_column rel;
             target_column := to_column rel |} related) rels init) ->
  In (k, v) init \/ In k (map to_table rels).
Proof.
  revert init. induction rels as [|r rels IH]; intros init H; simpl in *.
  - now left.
  - destruct (IH _ H) as [H1|H1]; [|now right; right].
    apply dict_set_In in H1. destruct H1 as [E|H1]; [|now left].
    injection E as -> _. right. now left.
Qed.

Lemma incoming_keys (rels : list reverse_relation)
    (init : list (string * join_info)) (k : string) (v : join_info) :
  In (k, v)
     (fold_left (fun related rel =>
        if dict_has (from_table rel) related then related
        else dict_set (from_table rel)
               {| jtype := incoming; base_column := rev_to_column rel;
                  target_column := rev_from_column rel |} related) rels init) ->
  In (k, v) init \/ In k (map from_table rels).
Proof.
  revert init. induction rels as [|r rels IH]; intros init H; simpl in *.
  - now left.
  - destruct (IH _ H) as [H1|H1]; [|now right; right].
    destruct (dict_has (from_table r) init); [now left|].
    apply dict_set_In in H1. destruct H1 as [E|H1]; [|now left].
    injection E as -> _. right. now left.
Qed.

(** Every table related to some table is a table of the graph. *)
Lemma related_in_graph (current t : string) (ji : join_info) :
  In (t, ji) (get_related_tables p current) -> In t (graph_tables p).
Proof.
  unfold get_related_tables, graph_tables. intros H. apply in_or_app.
  assert (Hout : forall rels,
    dict_get current (relations_cache p) = Some rels ->
    In t (map to_table rels) ->
    In t (flat_map (fun e => map to_table (snd e)) (relations_cache p))).
  { intros rels Hg Ht. apply in_flat_map. exists (current, rels).
    split; [now apply dict_get_In | exact Ht]. }
  assert (Hin : forall rels,
    dict_get current (reverse_relations p) = Some rels ->
    In t (map from_table rels) ->
    In t (flat_map (fun e => map from_table (snd e)) (reverse_relations p))).
  { intros rels Hg Ht. apply in_flat_map. exists (current, rels).
    split; [now apply dict_get_In | exact Ht]. }
  destruct (dict_get current (reverse_relations p)) as [rrels|] eqn:Er.
  - apply incoming_keys in H. destruct H as [H|H]; [|right; eauto].
    destruct (dict_get current (relations_cache p)) as [rels|] eqn:Eo;
      [|contradiction].
    apply outgoing_keys in H. destruct H as [[]|H]. left; eauto.
  - destruct (dict_get current (relations_cache p)) as [rels|] eqn:Eo;
      [|contradiction].
    apply outgoing_keys in H. destruct H as [[]|H]. left; eauto.
Qed.

Lemma heappush_In (h : list entry) (e x : entry) :
  In x (heappush h e) <-> x = e \/ In x h.
Proof.
  induction h as [|y h IH]; simpl.
  - intuition.
  - destruct (entry_le y e); simpl; rewrite ?IH; intuition.
Qed.

Lemma heappush_length (h : list entry) (e : entry) :
  List.length (heappush h e) = S (List.length h).
Proof.
  induction h as [|y h IH]; simpl; [reflexivity|].
  destruct (entry_le y e); simpl; auto.
Qed.

(** Visiting a table of the graph leaves fewer tables to visit. *)
Lemma unvisited_add (vis : list string) (t : string) :
  In t (graph_tables p) -> PyStr.mem t vis = false ->
  unvisited p (set_add t vis) < unvisited p vis.
Proof.
  unfold unvisited. generalize (graph_tables p) as l.
  assert (Hle : forall l,
    List.length (filter (fun x => negb (PyStr.mem x (set_add t vis))) l)
    <= List.length (filter (fun x => negb (PyStr.mem x vis)) l)).
  { induction l as [|y l IH]; simpl; [lia|].
    rewrite mem_set_add.
    destruct (String.eqb y t), (PyStr.mem y vis); simpl; lia. }
  induction l as [|y l IH]; intros Hin Hvis; simpl; [contradiction|].
  rewrite mem_set_add. destruct Hin as [->|Hin].
  - rewrite String.eqb_refl, Hvis. simpl. specialize (Hle l). lia.
  - specialize (IH Hin Hvis).
    destruct (String.eqb y t), (PyStr.mem y vis); simpl; lia.
Qed.

Lemma last_cons {A : Type} (l : list A) (x d : A) : last (x :: l) d = last l x.
Proof.
  revert x d. induction l as [|y l IH]; intros x d; [reflexivity|].
  change (last (x :: y :: l) d) with (last (y :: l) d). now rewrite !IH.
Qed.

Lemma path_end_cons (from t : string) (ji : join_info) (pth : path) :
  path_end from ((t, ji) :: pth) = path_end t pth.
Proof. unfold path_end. simpl map. apply last_cons. Qed.

Lemma chain_snoc (from : string) (pth : path) (t : string) (ji : join_info) :
  chain p from pth ->
  In (t, ji) (get_related_tables p (path_end from pth)) ->
  chain p from (pth ++ [(t, ji)])%list.
Proof.
  revert from. induction pth as [|[t0 j0] pth IH]; intros from Hc Hin.
  - split; [exact Hin | exact I].
  - destruct Hc as [H0 Hc]. rewrite path_end_cons in Hin.
    split; [exact H0 | now apply IH].
Qed.

Lemma path_end_snoc (from : string) (pth : path) (t : string) (ji : join_info) :
  path_end from (pth ++ [(t, ji)])%list = t.
Proof. unfold path_end. rewrite map_app. simpl. apply last_last. Qed.

Lemma NoDup_snoc {A : Type} (l : list A) (x : A) :
  NoDup l -> ~ In x l -> NoDup (l ++ [x])%list.
Proof.
  intros Hl Hx. apply NoDup_rev in Hl. rewrite <- (rev_involutive (l ++ [x])%list).
  apply NoDup_rev. rewrite rev_app_distr. simpl. constructor; [|exact Hl].
  now rewrite <- in_rev.
Qed.

Lemma good_path_mono (base : string) (vis vis' : list string) (pth : path) :
  incl vis vis' -> good_path p base vis pth -> good_path p base vis' pth.
Proof.
  intros Hi (Hc & Hn & Hs). repeat split; auto. eapply incl_tran; eauto.
Qed.

(** Extending a good path by a table that was not visited. *)
Lemma good_path_snoc (base : string) (vis : list string) (pth : path)
    (t : string) (ji : join_info) :
  good_path p base vis pth -> In base vis -> ~ In t vis ->
  In (t, ji) (get_related_tables p (path_end base pth)) ->
  chain p base (pth ++ [(t, ji)])%list
  /\ NoDup (base :: map fst (pth ++ [(t, ji)])%list).
Proof.
  intros (Hc & Hn & Hs) Hb Ht Hin. split; [now apply chain_snoc|].
  rewrite map_app. simpl.
  change (base :: (map fst pth ++ [t])%list)
    with ((base :: map fst pth) ++ [t])%list.
  apply NoDup_snoc; [exact Hn|].
  intros [E|E]; [subst; contradiction | apply Hs in E; contradiction].
Qed.

Section Expand.

Variables base target : string.

(** The loop over the related tables either returns a good path to the
    target or leaves a good state whose measure has not grown. *)
Lemma expand_good (current : string) (score : nat) (pth : path)
    (related : list (string * join_info)) :
  incl related (get_related_tables p current) ->
  path_end base pth = current ->
  forall st,
    good_state p base target st ->
    good_path p base (visited st) pth ->
    match expand target current score pth related st with
    | inl found => good_result p base target found
    | inr st' => good_state p base target st'
                 /\ search_measure p st' <= search_measure p st
    end.
Proof.
  intros Hrel Hend. induction related as [|[t ji] related IH]; intros st Hst Hp.
  - simpl. split; [exact Hst | lia].
  - assert (Hin : In (t, ji) (get_related_tables p (path_end base pth)))
      by (rewrite Hend; apply Hrel; now left).
    assert (Hrel' : incl related (get_related_tables p current))
      by (intros x Hx; apply Hrel; now right).
    destruct Hst as (Hb & Ht & Hh). simpl.
    destruct (String.eqb t target) eqn:Et.
    + apply String.eqb_eq in Et. subst t.
      destruct (good_path_snoc base (visited st) pth target ji Hp Hb Ht Hin)
        as [Hc Hn].
      repeat split; [exact Hc | exact Hn | apply path_end_snoc].
    + apply String.eqb_neq in Et.
      destruct (PyStr.mem t (visited st)) eqn:Ev.
      * apply IH; [exact Hrel' | repeat split; assumption | exact Hp].
      * assert (Hnv : ~ In t (visited st)) by now apply mem_false.
        destruct (good_path_snoc base (visited st) pth t ji Hp Hb Hnv Hin)
          as [Hc Hn].
        assert (Hinc : incl (visited st) (set_add t (visited st)))
          by (intros x Hx; apply set_add_In; now right).
        match goal with |- context [expand _ _ _ _ _ ?s] => set (st1 := s) end.
        assert (Hst1 : good_state p base target st1).
        { repeat split; simpl.
          - now apply Hinc.
          - rewrite set_add_In. intros [E|E]; [now subst | contradiction].
          - apply Forall_forall. intros e He. apply heappush_In in He.
            destruct He as [->|He].
            + split; simpl; [|apply path_end_snoc].
              repeat split; [exact Hc | exact Hn |].
              rewrite map_app. simpl. intros x Hx. apply in_app_or in Hx.
              apply set_add_In. destruct Hx as [Hx|[<-|[]]]; [right|now left].
              now apply Hp.
            + rewrite Forall_forall in Hh. destruct (Hh e He) as [Hg He2].
              split; [|exact He2]. eapply good_path_mono; eauto. }
        assert (Hp1 : good_path p base (visited st1) pth)
          by (eapply good_path_mono; [exact Hinc | exact Hp]).
        specialize (IH Hrel' st1 Hst1 Hp1).
        destruct (expand target current score pth related st1) as [found|st'];
          [exact IH|].
        destruct IH as [Hg Hm]. split; [exact Hg|].
        assert (Hlt : unvisited p (set_add t (visited st)) < unvisited p (visited st))
          by (apply unvisited_add; [eapply related_in_graph; eauto | exact Ev]).
        unfold search_measure in *. simpl in Hm.
        rewrite heappush_length in Hm. lia.
Qed.

(** With more fuel than its measure, the loop ends: it returns a good path
    or reports that there is none. *)
Lemma search_loop_ends (fuel : nat) :
  forall st,
    good_state p base target st ->
    search_measure p st < fuel ->
    exists r, search_loop p target fuel st = Some r
              /\ match r with
                 | Some found => good_result p base target found
                 | None => True
                 end.
Proof.
  induction fuel as [|fuel IH]; intros st Hst Hm; [lia|].
  simpl. destruct (heap st) as [|e h] eqn:Eh.
  - exists None. split; [reflexivity | exact I].
  - destruct Hst as (Hb & Ht & Hh). rewrite Eh in Hh.
    inversion Hh as [|e' h' [Hge Hee] Hh']; subst e' h'.
    set (st0 := {| heap := h; visited := visited st; counter := counter st |}).
    assert (Hst0 : good_state p base target st0) by (repeat split; assumption).
    pose proof (expand_good (e_table e) (e_score e) (e_path e)
                  (get_related_tables p (e_table e)) (incl_refl _) Hee
                  st0 Hst0 Hge) as Hx.
    destruct (expand target (e_table e) (e_score e) (e_path e)
                (get_related_tables p (e_table e)) st0) as [found|st'].
    + exists (Some found). split; [reflexivity | exact Hx].
    + destruct Hx as [Hg Hm']. apply IH; [exact Hg|].
      unfold search_measure in *. rewrite Eh in Hm. simpl in *. lia.
Qed.

(** More fuel does not change a result. *)
Lemma search_loop_mono (fuel : nat) :
  forall st r, search_loop p target fuel st = Some r ->
  forall fuel', fuel <= fuel' -> search_loop p target fuel' st = Some r.
Proof.
  induction fuel as [|fuel IH]; intros st r H fuel' Hle; [discriminate|].
  destruct fuel' as [|fuel']; [lia|]. simpl in *.
  destruct (heap st) as [|e h]; [exact H|].
  destruct (expand target (e_table e) (e_score e) (e_path e)
              (get_related_tables p (e_table e))
              {| heap := h; visited := visited st; counter := counter st |});
    [exact H|].
  apply (IH _ _ H). lia.
Qed.

Lemma unvisited_le (vis : list string) :
  unvisited p vis <= List.length (graph_tables p).
Proof. unfold unvisited. apply filter_length_le. Qed.

(** The scored search from [base] to another table [target]. *)
Lemma scored_search_ends :
  base <> target ->
  exists r,
    (forall fuel, search_fuel p <= fuel ->
                  scored_search p fuel base target = Some r)
    /\ match r with
       | Some found => good_result p base target found
       | None => True
       end.
Proof.
  intros Hbt. unfold scored_search.
  set (st0 := {| heap := []; visited := [base]; counter := 0 |}).
  assert (Hst0 : good_state p base target st0).
  { repeat split; simpl; [now left | | constructor].
    intros [E|[]]. now apply Hbt. }
  assert (Hp0 : good_path p base (visited st0) []).
  { repeat split; simpl; [repeat constructor; auto | intros x []]. }
  pose proof (expand_good base 0 [] (get_related_tables p base)
                (incl_refl _) eq_refl st0 Hst0 Hp0) as Hx.
  destruct (expand target base 0 [] (get_related_tables p base) st0)
    as [found|st'].
  - exists (Some found). split; [reflexivity | exact Hx].
  - destruct Hx as [Hg Hm].
    assert (Hfuel : search_measure p st' < search_fuel p).
    { unfold search_fuel. pose proof (unvisited_le (visited st0)).
      unfold search_measure in *. simpl in *. lia. }
    destruct (search_loop_ends (search_fuel p) st' Hg Hfuel) as (r & Hr & Hgood).
    exists r. split; [|exact Hgood].
    intros fuel Hle. eapply search_loop_mono; eauto.
Qed.

End Expand.

End Search.

(** C8: the scored search of [find_join_path] terminates, cycles or not:
    whatever the graph, [search_fuel] iterations (one more than the graph
    has table occurrences) are enough for the loop to end with a path or
    with the answer that there is none, and more fuel changes nothing.  The
    path it returns never repeats a table and never comes back to the base
    table.  ([find_join_path] starts the search only for a target other
    than the base table.) *)
Theorem join_search_terminates (p : QueryParser) (base target : string) :
  base <> target ->
  exists r,
    (forall fuel, search_fuel p <= fuel ->
                  scored_search p fuel base target = Some r)
    /\ match r with
       | Some found => NoDup (base :: map fst found)
       | None => True
       end.
Proof.
  intros Hbt. destruct (scored_search_ends p base target Hbt) as (r & Hr & Hg).
  exists r. split; [exact Hr|]. destruct r as [found|]; [|exact I].
  now destruct Hg as (_ & Hn & _).
Qed.

Lemma join_search_terminates_witness :
  exists r,
    (forall fuel, search_fuel cyclic_parser <= fuel ->
                  scored_search cyclic_parser fuel "a" "c" = Some r)
    /\ match r with
       | Some found => NoDup ("a" :: map fst found)
       | None => True
       end.
Proof.
  apply (join_search_terminates cyclic_parser "a" "c"). discriminate.
Defined.


Lemma preferred_path_chain (p : QueryParser) (hops : list string) :
  forall from pth,
    _build_preferred_path p from hops = Some pth ->
    chain p from pth /\ map fst pth = hops.
Proof.
  induction hops as [|h hops IH]; intros from pth H; simpl in H.
  - injection H as <-. split; [exact I | reflexivity].
  - destruct (dict_get h (get_related_tables p from)) as [ji|] eqn:Eg;
      [|discriminate].
    destruct (_build_preferred_path p h hops) as [tl|] eqn:Et; [|discriminate].
    injection H as <-. destruct (IH _ _ Et) as [Hc Hm].
    split; [split; [now apply dict_get_In | exact Hc] | simpl; now rewrite Hm].
Qed.



(* ------------------------------------------------------------------ *)
(** ** The cache does not change results *)

Section StableSteps.

Variable p : QueryParser.

Lemma stable_ret {A : Type} (a : A) : stable p (ret a).
Proof. exists (Ok a). intros c Hc. now split. Qed.

Lemma stable_raise {A : Type} (e : error) : stable p (@raise A e).
Proof. exists (Raise e). intros c Hc. now split. Qed.

Lemma stable_bind {A B : Type} (m : M A) (k : A -> M B) :
  stable p m -> (forall a, stable p (k a)) -> stable p (bind m k).
Proof.
  intros [ra Hm] Hk. destruct ra as [a|e].
  - destruct (Hk a) as [rb Hb]. exists rb. intros c Hc. unfold bind.
    destruct (Hm c Hc) as [H1 H2]. destruct (m c) as [r c1]. simpl in *.
    subst r. now apply Hb.
  - exists (Raise e). intros c Hc. unfold bind.
    destruct (Hm c Hc) as [H1 H2]. destruct (m c) as [r c1]. simpl in *.
    subst r. now split.
Qed.

Lemma stable_for_each {A S : Type} (body : S -> A -> M S) :
  (forall acc x, stable p (body acc x)) ->
  forall l acc, stable p (for_each body l acc).
Proof.
  intros Hb. induction l as [|x l IH]; intros acc; simpl.
  - apply stable_ret.
  - apply stable_bind; [apply Hb | exact IH].
Qed.

Lemma cache_ok_set (c : fuzzy_cache) (k : string) :
  cache_ok p c -> cache_ok p (dict_set k (fuzzy_matches p k) c).
Proof.
  intros Hc k' r H. destruct (String.eqb k' k) eqn:E.
  - apply String.eqb_eq in E. subst k'.
    rewrite dict_get_set_same in H. now injection H as <-.
  - apply String.eqb_neq in E. rewrite dict_get_set_other in H by exact E.
    now apply Hc.
Qed.

Lemma stable_fuzzy_search (term : string) : stable p (_fuzzy_search p term).
Proof.
  exists (Ok (fuzzy_matches p term)). intros c Hc. unfold _fuzzy_search.
  destruct (dict_get term c) as [r|] eqn:E; simpl.
  - split; [|exact Hc]. now rewrite (Hc _ _ E).
  - split; [reflexivity|].
    destruct (Nat.ltb (List.length c) 1000); [now apply cache_ok_set | exact Hc].
Qed.

End StableSteps.

(** Proves [stable] for a computation assembled from the pieces above. *)
Create HintDb stable discriminated.

Ltac stabilise :=
  repeat first
    [ apply stable_ret
    | apply stable_raise
    | apply stable_fuzzy_search
    | solve [auto 1 with stable nocore]
    | progress cbv beta zeta
    | apply stable_bind; [|intros ?]
    | apply stable_for_each; intros ? ?
    | match goal with
      | |- stable _ (match ?x with _ => _ end) => destruct x
      | |- stable _ (let (_, _) := ?x in _) => destruct x
      end ].

Lemma stable_find_column (p : QueryParser) (col_part : string) (prefer : option string) :
  stable p (find_column p col_part prefer).
Proof. unfold find_column. stabilise. Qed.

#[global] Hint Resolve stable_find_column : stable.

Lemma stable_find_all_columns (p : QueryParser) (col_part : string) :
  stable p (find_all_columns p col_part).
Proof. unfold find_all_columns. stabilise. Qed.

#[global] Hint Resolve stable_find_all_columns : stable.

Lemma stable_find_column_for_base (p : QueryParser) (col_part : string) (base : option string) :
  stable p (find_column_for_base p col_part base).
Proof.
  unfold find_column_for_base.
  destruct (PyStr.contains "." _); [apply stable_find_column|].
  stabilise.
Qed.

#[global] Hint Resolve stable_find_column_for_base : stable.

Lemma stable_add_column_condition (p : QueryParser) ci values op acc :
  stable p (add_column_condition p ci values op acc).
Proof. unfold add_column_condition. stabilise. Qed.

#[global] Hint Resolve stable_add_column_condition : stable.

Lemma stable_add_condition (p : QueryParser) col_part val_part op base acc :
  stable p (_add_condition p col_part val_part op base acc).
Proof.
  unfold _add_condition.
  stabilise.
Qed.

#[global] Hint Resolve stable_add_condition : stable.

Lemma stable_date_range (p : QueryParser)
    (strptime : string -> string -> option string) cond base acc :
  stable p (date_range strptime p cond base acc).
Proof.
  unfold date_range. stabilise.
Qed.

#[global] Hint Resolve stable_date_range : stable.

Lemma stable_null_test (p : QueryParser) cond idx sql base acc :
  stable p (null_test p cond idx sql base acc).
Proof.
  unfold null_test. stabilise.
Qed.

#[global] Hint Resolve stable_null_test : stable.

Lemma stable_process_condition (p : QueryParser)
    (strptime : string -> string -> option string) cond base acc :
  stable p (_process_condition strptime p cond base acc).
Proof.
  unfold _process_condition.
  apply stable_bind; [apply stable_date_range|]. intros ranged.
  stabilise.
Qed.

#[global] Hint Resolve stable_process_condition : stable.

Lemma stable_select_entry (p : QueryParser)
    (set_iter : list string -> list string) st col_str :
  stable p (select_entry set_iter p st col_str).
Proof.
  unfold select_entry.
  stabilise.
Qed.

#[global] Hint Resolve stable_select_entry : stable.

Lemma stable_parse (p : QueryParser)
    (strptime : string -> string -> option string)
    (set_iter : list string -> list string) (q : string) : stable p (parse strptime set_iter p q).
Proof.
  unfold parse.
  stabilise.
Qed.

#[global] Hint Resolve stable_parse : stable.

Lemma stable_build_sql (p : QueryParser)
    (set_iter : list string -> list string) parsed limit dflt :
  stable p (build_sql set_iter p parsed limit dflt).
Proof.
  unfold build_sql. stabilise.
Qed.

#[global] Hint Resolve stable_build_sql : stable.

Lemma stable_translate (p : QueryParser)
    (strptime : string -> string -> option string)
    (set_iter : list string -> list string) (q : string) :
  stable p (translate strptime set_iter p q).
Proof.
  unfold translate. apply stable_bind; [apply stable_parse|].
  intros parsed. apply stable_build_sql.
Qed.

(** C9: translating the same query again, with the cache the first
    translation left behind and the schema and the configuration unchanged,
    gives the same outcome: the same SQL text, the same parameter list and
    the same list of applied default filters, or the same error. *)
Theorem translate_twice (p : QueryParser)
    (strptime : string -> string -> option string)
    (set_iter : list string -> list string) (q : string) (c0 : fuzzy_cache) :
  cache_ok p c0 ->
  fst (translate strptime set_iter p q
         (snd (translate strptime set_iter p q c0)))
  = fst (translate strptime set_iter p q c0).
Proof.
  intros H0. destruct (stable_translate p strptime set_iter q) as [a Ha].
  destruct (Ha c0 H0) as [H1 H2]. destruct (Ha _ H2) as [H3 _]. congruence.
Qed.



Lemma cache_ok_empty (p : QueryParser) : cache_ok p [].
Proof. intros k r H. discriminate. Qed.

Lemma translate_twice_witness :
  fst (translate no_strptime insertion_order job_parser
         "show job_number, company_name where nme=acme order by jobnum"
         (snd (translate no_strptime insertion_order job_parser
                 "show job_number, company_name where nme=acme order by jobnum" [])))
  = fst (translate no_strptime insertion_order job_parser
           "show job_number, company_name where nme=acme order by jobnum" []).
Proof.
  apply (translate_twice job_parser no_strptime insertion_order
           "show job_number, company_name where nme=acme order by jobnum" []).
  intros k r H. discriminate.
Defined.

(* ------------------------------------------------------------------ *)
(** ** Where the identifiers of a fragment come from *)

Section Provenance.

Variable p : QueryParser.

Lemma stable_run {A : Type} (m : M A) (c c' : fuzzy_cache) (r : result A) :
  stable p m -> cache_ok p c -> m c = (r, c') -> cache_ok p c'.
Proof.
  intros [a Ha] Hc H. destruct (Ha c Hc) as [_ H2]. now rewrite H in H2.
Qed.

Lemma insert_desc_In {A : Type} (x y : nat * A) (l : list (nat * A)) :
  In x (insert_desc y l) -> x = y \/ In x l.
Proof.
  induction l as [|z l IH]; simpl.
  - intros [H|[]]; auto.
  - destruct (Nat.ltb (fst y) (fst z)); simpl; intros [H|H]; auto.
    destruct (IH H); auto.
Qed.

Lemma sort_desc_In {A : Type} (x : nat * A) (l : list (nat * A)) :
  In x (sort_desc l) -> In x l.
Proof.
  unfold sort_desc. induction l as [|y l IH]; simpl; [auto|].
  intros H. apply insert_desc_In in H. destruct H; auto.
Qed.

Lemma get_matches_known (key : string) (ci : col_info) :
  In ci (_get_matches p key) -> known_column p (table ci) (column ci).
Proof.
  unfold _get_matches. destruct (dict_get key (column_map p)) as [l|] eqn:E;
    [|contradiction].
  intros H. left. exists ci. split; [|split; reflexivity].
  apply in_flat_map. exists (key, l). split; [now apply dict_get_In | exact H].
Qed.

Lemma fuzzy_matches_known (term : string) (ci : col_info) :
  In ci (fuzzy_matches p term) -> known_column p (table ci) (column ci).
Proof.
  unfold fuzzy_matches. intros H. apply in_map_iff in H.
  destruct H as ([sc ci'] & E & H). simpl in E. subst ci'.
  apply sort_desc_In in H. apply in_flat_map in H.
  destruct H as ([tbl cols] & Ht & H). apply in_flat_map in H.
  destruct H as (c & Hc & H). simpl in *.
  destruct (fuzzy_score _ _ c); [|contradiction].
  destruct H as [E|[]]. injection E as _ <-. simpl.
  right. left. exists cols. now split.
Qed.

Lemma fuzzy_search_result (term : string) (c c' : fuzzy_cache)
    (r : list col_info) :
  cache_ok p c -> _fuzzy_search p term c = (Ok r, c') -> r = fuzzy_matches p term.
Proof.
  intros Hc H. unfold _fuzzy_search in H.
  destruct (dict_get term c) as [r0|] eqn:E; injection H as <- _.
  - now apply Hc in E.
  - reflexivity.
Qed.

Lemma find_qualified_known (table_hint col_name : string) (ci : col_info) :
  find_qualified p table_hint col_name = Some ci ->
  known_column p (table ci) (column ci).
Proof.
  unfold find_qualified.
  assert (G : forall tcs, incl tcs (table_columns p) ->
    forall hit,
    (fix scan (tcs : list (string * list string)) : option col_info :=
       match tcs with
       | [] => None
       | (tbl, cols) :: rest =>
           if String.eqb (PyStr.lower tbl) table_hint
              || PyStr.startswith table_hint (PyStr.lower tbl)
           then match List.find hit cols with
                | Some c => Some (mk_col tbl c)
                | None => scan rest
                end
           else scan rest
       end) tcs = Some ci ->
    known_column p (table ci) (column ci)).
  { induction tcs as [|[tbl cols] tcs IH]; intros Hi hit H; [discriminate|].
    assert (Hi' : incl tcs (table_columns p)) by (intros x Hx; apply Hi; now right).
    destruct (String.eqb (PyStr.lower tbl) table_hint
              || PyStr.startswith table_hint (PyStr.lower tbl)); [|eauto].
    destruct (List.find hit cols) as [c|] eqn:Ef; [|eauto].
    injection H as <-. apply find_some in Ef. simpl.
    right. left. exists cols. split; [apply Hi; now left | tauto]. }
  apply G. apply incl_refl.
Qed.

Lemma select_best_match_In (matches : list col_info) (term : string)
    (prefer : option string) (m : col_info) :
  _select_best_match p matches term prefer = Some m -> In m matches.
Proof.
  unfold _select_best_match.
  destruct (sort_desc _) as [|[sc m'] l] eqn:E; [discriminate|].
  intros H. injection H as <-.
  assert (Hin : In (sc, m') (sort_desc
            (map (fun m => (match_score p term prefer m, m)) matches)))
    by (rewrite E; now left).
  apply sort_desc_In in Hin. apply in_map_iff in Hin.
  destruct Hin as (m0 & E0 & Hin). now injection E0 as _ <-.
Qed.

Lemma all_known_get_matches (key : string) : all_known p (_get_matches p key).
Proof. intros ci. apply get_matches_known. Qed.

(** A column that [find_column] returns is a known column; the cache stays
    well-formed. *)
Lemma find_column_known (col_part : string) (prefer : option string)
    (c c' : fuzzy_cache) (ci : col_info) :
  cache_ok p c ->
  find_column p col_part prefer c = (Ok (Some ci), c') ->
  known_column p (table ci) (column ci).
Proof.
  intros Hc H. unfold find_column in H.
  set (cp := PyStr.lower (PyStr.strip col_part)) in *.
  destruct (match PyStr.cut "." cp with
            | Some (table_hint, col_name) => find_qualified p table_hint col_name
            | None => None
            end) as [q|] eqn:Eq.
  - apply ret_ok in H. destruct H as [H _]. injection H as ->.
    destruct (PyStr.cut "." cp) as [[th cn]|]; [|discriminate].
    eapply find_qualified_known; eauto.
  - clear Eq. apply bind_ok in H. destruct H as (matches & c1 & Hm & H).
    assert (Hk : all_known p matches).
    { match type of Hm with (if ?b then _ else _) _ = _ => destruct b eqn:Eb end.
      - apply (fuzzy_search_result _ _ _ _ Hc) in Hm. subst matches.
        intros x. apply fuzzy_matches_known.
      - apply ret_ok in Hm. destruct Hm as [<- _].
        repeat match goal with
        | |- all_known _ (if ?b then _ else _) => destruct b
        | |- all_known _ (_get_matches _ _) => apply all_known_get_matches
        end. }
    destruct matches as [|m [|m2 ms]].
    + apply ret_ok in H. destruct H; discriminate.
    + apply ret_ok in H. destruct H as [H _]. injection H as ->.
      apply Hk. now left.
    + apply ret_ok in H. destruct H as [H _].
      apply select_best_match_In in H. now apply Hk.
Qed.

Lemma column_exists_name (tbl c : string) :
  In c (map name (table_cols p tbl)) -> _column_exists p tbl c = true.
Proof.
  intros H. apply in_map_iff in H. destruct H as (sc & <- & H).
  unfold _column_exists. apply existsb_exists. exists sc.
  split; [exact H | apply String.eqb_refl].
Qed.

(** A column that a status value resolves to is a column of the table. *)
Lemma status_column_known (tbl status_val : string) (ci : col_info) (v : value) :
  status_column p tbl status_val = Some (ci, v) ->
  table ci = tbl /\ _column_exists p tbl (column ci) = true.
Proof.
  unfold status_column.
  set (bool_cols := map name (filter _ (table_cols p tbl))).
  set (is_cols := filter _ bool_cols).
  assert (Hb : forall c, In c bool_cols -> _column_exists p tbl c = true).
  { intros c Hc. apply column_exists_name. unfold bool_cols in Hc.
    apply in_map_iff in Hc. destruct Hc as (sc & <- & Hc).
    apply filter_In in Hc. apply in_map. tauto. }
  assert (Hi : forall c, In c is_cols -> _column_exists p tbl c = true).
  { intros c Hc. apply Hb. unfold is_cols in Hc. apply filter_In in Hc. tauto. }
  assert (Hf : forall f c, List.find f is_cols = Some c ->
                           _column_exists p tbl c = true).
  { intros f c Hc. apply find_some in Hc. apply Hi. tauto. }
  intros H.
  repeat match type of H with
  | match ?x with _ => _ end = Some _ =>
      let E := fresh "E" in destruct x eqn:E; try discriminate
  | (let (_, _) := ?x in _) = Some _ => destruct x
  | (if ?x then _ else _) = Some _ =>
      let E := fresh "E" in destruct x eqn:E; try discriminate
  | Some _ = Some _ => injection H as <- <-
  end;
  repeat match goal with
  | E : match ?x with _ => _ end = Some _ |- _ =>
      let E' := fresh "E" in destruct x eqn:E'; try discriminate
  | E : (if ?x then _ else _) = Some _ |- _ =>
      let E' := fresh "E" in destruct x eqn:E'; try discriminate
  | E : Some _ = Some _ |- _ => injection E as <-
  end;
  simpl; split; try reflexivity;
  first [ eapply Hf; eassumption
        | apply Hb; apply mem_In; assumption ].
Qed.

End Provenance.

(* ------------------------------------------------------------------ *)
(** ** Conditions add well-formed fragments *)

Section Fragments.

Variable p : QueryParser.

Lemma fragment_texts_app (a b : list fragment) :
  fragment_texts (a ++ b)%list = (fragment_texts a ++ fragment_texts b)%list.
Proof. apply map_app. Qed.

Lemma fragment_params_app (a b : list fragment) :
  fragment_params (a ++ b)%list = (fragment_params a ++ fragment_params b)%list.
Proof. apply flat_map_app. Qed.

Lemma extends_refl (acc : conds) : extends p acc acc.
Proof.
  exists []. split; [constructor|]. simpl. now rewrite !app_nil_r.
Qed.

Lemma extends_trans (a b c : conds) :
  extends p a b -> extends p b c -> extends p a c.
Proof.
  intros (f1 & H1 & W1 & P1) (f2 & H2 & W2 & P2). exists (f1 ++ f2)%list.
  split; [now apply Forall_app|].
  rewrite fragment_texts_app, fragment_params_app, W2, P2, W1, P1.
  now rewrite <- !app_assoc.
Qed.

(** Adding one fragment. *)
Lemma extends_one (acc : conds) (tpl : template) (w : string)
    (ps : list value) (tables : list string) :
  w = render tpl -> template_ok p tpl -> List.length ps = arity tpl ->
  extends p acc {| c_where := List.app (c_where acc) [w];
                   c_params := List.app (c_params acc) ps;
                   c_tables := tables |}.
Proof.
  intros -> Hok Har. exists [(tpl, ps)]. split.
  - constructor; [now split | constructor].
  - simpl. now rewrite app_nil_r.
Qed.

Lemma map_const_repeat {A B : Type} (x : B) (l : list A) :
  map (fun _ => x) l = repeat x (List.length l).
Proof. induction l; simpl; congruence. Qed.

Lemma add_column_condition_extends (ci : col_info) (values : list string)
    (op : string) (acc acc' : conds) (c c' : fuzzy_cache) :
  known_column p (table ci) (column ci) ->
  In op comparison_ops ->
  add_column_condition p ci values op acc c = (Ok acc', c') ->
  extends p acc acc'.
Proof.
  intros Hk Hop H. unfold add_column_condition in H.
  destruct (PyStr.mem (_get_column_type p (table ci) (column ci)) date_types).
  - destruct (match values with [v] => PyStr.mem v status_values | _ => false end).
    + destruct (List.find _ _) as [bool_col|] eqn:Ef;
        apply ret_ok in H; destruct H as [<- _].
      * apply find_some in Ef. destruct Ef as [_ Ef].
        apply (extends_one acc (TEquals [(table ci, bool_col)]));
          [reflexivity | | reflexivity].
        constructor; [|constructor]. right. right. now left.
      * now apply (extends_one acc (TIsNotNull (table ci) (column ci))).
    + destruct (match values with [v] => PyStr.mem v empty_values | _ => false end).
      * apply ret_ok in H. destruct H as [<- _].
        now apply (extends_one acc (TIsNull (table ci) (column ci))).
      * destruct (PyStr.mem _ text_types); destruct values as [|v [|v2 vs]];
          try (now apply raise_ok in H);
          apply ret_ok in H; destruct H as [<- _].
        -- now apply (extends_one acc (TIlike (table ci) (column ci) 1)).
        -- apply (extends_one acc (TIlike (table ci) (column ci) (S (S (List.length vs)))));
             [| exact Hk | simpl; now rewrite length_map].
           rewrite (map_const_repeat _ (v :: v2 :: vs)). reflexivity.
        -- apply (extends_one acc (TCompare (table ci) (column ci) op));
             [reflexivity | now split; [|left] | reflexivity].
        -- apply (extends_one acc (TIn (table ci) (column ci) (S (S (List.length vs)))));
             [| exact Hk | simpl; now rewrite length_map].
           rewrite (map_const_repeat _ (v :: v2 :: vs)). reflexivity.
  - destruct (PyStr.mem _ text_types); destruct values as [|v [|v2 vs]];
      try (now apply raise_ok in H);
      apply ret_ok in H; destruct H as [<- _].
    + now apply (extends_one acc (TIlike (table ci) (column ci) 1)).
    + apply (extends_one acc (TIlike (table ci) (column ci) (S (S (List.length vs)))));
        [| exact Hk | simpl; now rewrite length_map].
      rewrite (map_const_repeat _ (v :: v2 :: vs)). reflexivity.
    + apply (extends_one acc (TCompare (table ci) (column ci) op));
        [reflexivity | now split; [|left] | reflexivity].
    + apply (extends_one acc (TIn (table ci) (column ci) (S (S (List.length vs)))));
        [| exact Hk | simpl; now rewrite length_map].
      rewrite (map_const_repeat _ (v :: v2 :: vs)). reflexivity.
Qed.

End Fragments.

Section Conditions.

Variable p : QueryParser.
Variable strptime : string -> string -> option string.
Variable set_iter : list string -> list string.

Lemma find_boolean_known (tbl : string) (values : list string)
    (results : list (col_info * value)) :
  find_boolean_column_for_status p tbl values = Some results ->
  Forall (fun r => known_column p (table (fst r)) (column (fst r))) results.
Proof.
  unfold find_boolean_column_for_status.
  set (rs := flat_map _ values).
  assert (Hrs : Forall (fun r => known_column p (table (fst r)) (column (fst r))) rs).
  { apply Forall_forall. intros [ci v] Hin. apply in_flat_map in Hin.
    destruct Hin as (sv & _ & Hin).
    destruct (status_column p tbl sv) as [[ci' v']|] eqn:E; [|contradiction].
    destruct Hin as [Hin|[]]. injection Hin as -> ->.
    apply status_column_known in E. destruct E as [Et Ee]. simpl.
    right. right. left. now rewrite Et. }
  destruct rs; [discriminate|]. intros H. now injection H as <-.
Qed.

Lemma add_condition_extends (col_part val_part op : string)
    (base : option string) (acc acc' : conds) (c c' : fuzzy_cache) :
  cache_ok p c -> In op comparison_ops ->
  _add_condition p col_part val_part op base acc c = (Ok acc', c') ->
  extends p acc acc'.
Proof.
  intros Hc Hop H. unfold _add_condition in H.
  destruct (is_status_condition p col_part && truthy base).
  - destruct (find_boolean_column_for_status _ _ _) as [results|] eqn:Eb;
      [|now apply raise_ok in H].
    apply ret_ok in H. destruct H as [<- _].
    apply (extends_one p acc
             (TEquals (map (fun r => (table (fst r), column (fst r))) results))).
    + simpl. now rewrite map_map.
    + simpl. apply Forall_map. exact (find_boolean_known _ _ _ Eb).
    + simpl. now rewrite !length_map.
  - apply bind_ok in H. destruct H as ([ci|] & c1 & Hf & H).
    + eapply add_column_condition_extends; [|exact Hop|exact H].
      eapply find_column_known; eauto.
    + apply ret_ok in H. destruct H as [<- _]. apply extends_refl.
Qed.

Lemma date_range_extends (cond : string) (base : option string)
    (acc r : conds) (c c' : fuzzy_cache) :
  cache_ok p c ->
  date_range strptime p cond base acc c = (Ok (Some r), c') ->
  extends p acc r.
Proof.
  intros Hc H. unfold date_range in H.
  repeat match type of H with
  | (if ?b then _ else _) _ = _ => destruct b
  | match ?x with _ => _ end _ = _ => destruct x
  | (let (_, _) := ?x in _) _ = _ => destruct x
  | ret None _ = _ => apply ret_ok in H; destruct H; discriminate
  end.
  apply bind_ok in H. destruct H as ([ci|] & c1 & Hf & H);
    apply ret_ok in H; destruct H as [H _]; [|discriminate].
  injection H as <-.
  apply (extends_one p acc (TBetween (table ci) (column ci)));
    [reflexivity | | reflexivity].
  eapply find_column_known; eauto.
Qed.

Lemma null_test_extends (cond : string) (idx : nat) (sql : string)
    (base : option string) (acc acc' : conds) (c c' : fuzzy_cache) :
  cache_ok p c -> sql = " IS NOT NULL" \/ sql = " IS NULL" ->
  null_test p cond idx sql base acc c = (Ok acc', c') ->
  extends p acc acc'.
Proof.
  intros Hc Hsql H. unfold null_test in H.
  apply bind_ok in H. destruct H as ([ci|] & c1 & Hf & H);
    apply ret_ok in H; destruct H as [<- _]; [|apply extends_refl].
  assert (Hk : known_column p (table ci) (column ci))
    by (eapply find_column_known; eauto).
  rewrite <- (app_nil_r (c_params acc)).
  destruct Hsql as [-> | ->].
  - now apply (extends_one p acc (TIsNotNull (table ci) (column ci))).
  - now apply (extends_one p acc (TIsNull (table ci) (column ci))).
Qed.

Lemma cut_found (sep s a b : string) :
  PyStr.cut sep s = Some (a, b) -> PyStr.contains sep s = true.
Proof.
  unfold PyStr.cut, PyStr.contains. now destruct (PyStr.find sep s).
Qed.

Lemma first_operator_In (ops : list string) (cond op lhs rhs : string) :
  first_operator ops cond = Some (op, lhs, rhs) -> In op ops.
Proof.
  induction ops as [|o ops IH]; simpl; [discriminate|].
  destruct (PyStr.cut o cond) as [[l r]|].
  - intros H. injection H as <- _ _. now left.
  - intros H. right. auto.
Qed.

(** One condition adds well-formed fragments and nothing else. *)
Lemma process_condition_extends (cond : string) (base : option string)
    (acc acc' : conds) (c c' : fuzzy_cache) :
  cache_ok p c ->
  _process_condition strptime p cond base acc c = (Ok acc', c') ->
  extends p acc acc'.
Proof.
  intros Hc H. unfold _process_condition in H.
  apply bind_ok in H. destruct H as (ranged & c1 & Hr & H).
  assert (Hc1 : cache_ok p c1)
    by (eapply stable_run; [apply stable_date_range | exact Hc | exact Hr]).
  destruct ranged as [r|].
  - apply ret_ok in H. destruct H as [<- _].
    eapply date_range_extends; [exact Hc | exact Hr].
  - destruct (PyStr.find " is not null" _).
    { eapply null_test_extends; [exact Hc1 | now left | exact H]. }
    destruct (PyStr.find " is null" _).
    { eapply null_test_extends; [exact Hc1 | now right | exact H]. }
    destruct (first_operator comparison_ops cond) as [[[op lhs] rhs]|] eqn:Eo.
    { eapply add_condition_extends; [exact Hc1 | | exact H].
      eapply first_operator_In; eauto. }
    destruct (PyStr.split_ws1 cond) as [|a [|b [|x l]]];
      try (apply ret_ok in H; destruct H as [<- _]; apply extends_refl).
    eapply add_condition_extends; [exact Hc1 | | exact H].
    simpl. tauto.
Qed.

(** The fragments of a parsed query. *)
Lemma parse_fragments (q : string) (c0 c1 : fuzzy_cache) (pq : ParsedQuery) :
  cache_ok p c0 ->
  parse strptime set_iter p q c0 = (Ok pq, c1) ->
  cache_ok p c1
  /\ exists fs, Forall (fragment_ok p) fs
                /\ where_parts pq = fragment_texts fs
                /\ params pq = fragment_params fs.
Proof.
  intros Hc H. split.
  { eapply stable_run; [apply stable_parse | exact Hc | exact H]. }
  unfold parse in H.
  destruct (split_query (PyStr.strip q)) as [[primary ow]|e];
    [|now apply raise_ok in H].
  apply bind_ok in H. destruct H as (st0 & ca & Ha & H).
  assert (Hca : cache_ok p ca).
  { eapply stable_run; [|exact Hc|exact Ha]. stabilise. }
  apply bind_ok in H. destruct H as (st & cb & Hb & H).
  assert (Hcb : cache_ok p cb).
  { eapply stable_run; [|exact Hca|exact Hb]. stabilise. }
  destruct st as [bt cols]. destruct cols as [|col cols];
    [now apply raise_ok in H|].
  apply bind_ok in H. destruct H as (acc & cc & Hcond & H).
  apply ret_ok in H. destruct H as [<- _]. simpl.
  assert (Hext : extends p no_conds acc /\ cache_ok p cc).
  { destruct (ow_conditions ow) as [conditions_part|];
      [|apply ret_ok in Hcond; destruct Hcond as [<- <-];
        split; [apply extends_refl | exact Hcb]].
    destruct (String.eqb conditions_part EmptyString);
      [apply ret_ok in Hcond; destruct Hcond as [<- <-];
       split; [apply extends_refl | exact Hcb]|].
    eapply (for_each_invariant
              (fun a c => extends p no_conds a /\ cache_ok p c));
      [| |exact Hcond]; [|split; [apply extends_refl | exact Hcb]].
    intros a x cx a' cx' [Hea Hcx] Hbody. cbv beta zeta in Hbody.
    destruct (String.eqb (PyStr.strip x) EmptyString).
    - apply ret_ok in Hbody. destruct Hbody as [<- <-]. now split.
    - split.
      + eapply extends_trans; [exact Hea|].
        eapply process_condition_extends; [exact Hcx | exact Hbody].
      + eapply stable_run; [apply stable_process_condition | exact Hcx | exact Hbody]. }
  destruct Hext as [(fs & Hfs & Hw & Hp) _]. exists fs. auto.
Qed.

End Conditions.

(* ------------------------------------------------------------------ *)
(** ** Values are bound, not interpolated *)

(** C1, as the code has it: not every value of a condition is bound.  The
    value [done] of the condition on the timestamp column [completed_on]
    selects the fragment [IS NOT NULL] and is bound nowhere: the parameter
    list holds the value of the other condition only.  And the condition
    [salary=5], whose column does not resolve, is dropped with its value. *)
Lemma status_word_is_not_bound :
  fst (parse no_strptime insertion_order job_parser done_query []) = Ok done_parsed
  /\ fst (translate no_strptime insertion_order job_parser done_query [])
     = Ok (done_sql, [VStr "3"], [])
  /\ fst (translate no_strptime insertion_order job_parser
            "show job_number where salary=5, id=7" [])
     = Ok ("SELECT " ++ col_ref "job" "job_number" ++ " AS " ++ dq ++ "job number"
           ++ dq ++ nl ++ "FROM " ++ dq ++ "job" ++ dq ++ nl
           ++ "WHERE " ++ col_ref "job" "id" ++ " = %s" ++ nl ++ "LIMIT 1000",
           [VStr "7"], []).
Proof. repeat split; vm_compute; reflexivity. Qed.

(* ------------------------------------------------------------------ *)
(** * Further properties of the parser *)

(** ** Identifiers *)

Lemma take_while_forall (f : ascii -> bool) (s : string) (c : ascii) :
  PyStr.mem_char c (PyStr.take_while f s) = true -> f c = true.
Proof.
  induction s as [|a s IH]; simpl; [discriminate|].
  destruct (f a) eqn:E; simpl; [|discriminate].
  destruct (Ascii.eqb c a) eqn:Eca; simpl; [|exact IH].
  apply Ascii.eqb_eq in Eca. now subst.
Qed.

Lemma mem_char_append (c : ascii) (a b : string) :
  PyStr.mem_char c (a ++ b) = PyStr.mem_char c a || PyStr.mem_char c b.
Proof.
  induction a as [|x a IH]; simpl; [reflexivity|].
  rewrite IH. now rewrite orb_assoc.
Qed.

Lemma identifier_chars (n : string) (c : ascii) :
  PyRe.match_identifier n = true -> PyStr.mem_char c n = true ->
  PyRe.is_ident_char c = true \/ c = ascii_of_nat 10.
Proof.
  destruct n as [|a r]; [discriminate|].
  unfold PyRe.match_identifier. intros H. apply andb_true_iff in H.
  destruct H as [Ha Ht].
  change (PyStr.mem_char c (String a r))
    with (Ascii.eqb c a || PyStr.mem_char c r).
  intros Hc. apply orb_true_iff in Hc. destruct Hc as [Hc|Hc].
  - apply Ascii.eqb_eq in Hc. subst a. left.
    unfold PyRe.is_ident_char. now rewrite Ha.
  - rewrite <- (take_while_split PyRe.is_ident_char r), mem_char_append in Hc.
    apply orb_true_iff in Hc. destruct Hc as [Hc|Hc].
    + left. eapply take_while_forall; eauto.
    + apply orb_true_iff in Ht. destruct Ht as [Ht|Ht];
        apply String.eqb_eq in Ht; rewrite Ht in Hc.
      * discriminate.
      * right. change (PyStr.mem_char c (String (ascii_of_nat 10) EmptyString))
          with (Ascii.eqb c (ascii_of_nat 10) || false) in Hc.
        rewrite orb_false_r in Hc. now apply Ascii.eqb_eq.
Qed.

(** X1: an identifier that [sanitize_identifier] accepts comes back
    unchanged; each of its characters is an ASCII letter, a digit, an
    underscore or a line feed, so it holds no double quote and cannot close
    the quoted name it is put in. *)
Theorem sanitized_identifier_is_plain (ident n : string) :
  sanitize_identifier (Some ident) = Ok n ->
  n = ident
  /\ (forall c, PyStr.mem_char c n = true ->
                PyRe.is_ident_char c = true \/ c = ascii_of_nat 10)
  /\ PyStr.contains dq n = false.
Proof.
  intros H. apply sanitize_ok in H. destruct H as [E Hm].
  injection E as ->. split; [reflexivity|]. split.
  - intros c. now apply identifier_chars.
  - unfold dq. rewrite contains_char.
    destruct (PyStr.mem_char (ascii_of_nat 34) n) eqn:Hq; [|reflexivity].
    destruct (identifier_chars n _ Hm Hq) as [Hc|Hc]; discriminate.
Qed.

Lemma sanitized_identifier_is_plain_witness :
  "job_number" = "job_number"
  /\ (forall c, PyStr.mem_char c "job_number" = true ->
                PyRe.is_ident_char c = true \/ c = ascii_of_nat 10)
  /\ PyStr.contains dq "job_number" = false.
Proof.
  apply (sanitized_identifier_is_plain "job_number" "job_number").
  vm_compute. reflexivity.
Defined.

(** ** Results of [parse] *)

Lemma parse_order_where_dir (s : string) :
  ow_order_dir (_parse_order_where s) = "ASC"
  \/ ow_order_dir (_parse_order_where s) = "DESC".
Proof.
  unfold _parse_order_where.
  assert (Hd : forall parts : list string,
    let d := match parts with
             | _ :: _ :: _ =>
                 if PyStr.mem (PyStr.upper (last parts EmptyString)) ["ASC"; "DESC"]
                 then PyStr.upper (last parts EmptyString) else "ASC"
             | _ => "ASC"
             end in
    d = "ASC" \/ d = "DESC").
  { intros [|a [|b l]]; cbv zeta iota; auto.
    destruct (PyStr.mem (PyStr.upper (last (a :: b :: l) EmptyString))
                        ["ASC"; "DESC"]) eqn:E; [|now left].
    apply mem_In in E. destruct E as [E|[E|[]]]; rewrite <- E; auto. }
  destruct (PyStr.find " order by " (PyStr.lower s)) as [idx|].
  - specialize (Hd (PyStr.split_ws (PyStr.strip (PyStr.drop (idx + 10) s)))).
    cbv zeta in Hd.
    repeat match goal with
    | |- context [match ?x with Some _ => _ | None => _ end] =>
        match x with
        | PyStr.find _ _ => destruct x
        end
    end; simpl; exact Hd.
  - repeat match goal with
    | |- context [match ?x with Some _ => _ | None => _ end] =>
        match x with
        | PyStr.find _ _ => destruct x
        end
    end; simpl; now left.
Qed.

Lemma split_query_order_where (q : string) (primary : option string)
    (ow : order_where) :
  split_query q = Ok (primary, ow) -> exists s, ow = _parse_order_where s.
Proof.
  unfold split_query. intros H.
  repeat match type of H with
  | (if ?b then _ else _) = _ => destruct b
  | match ?x with _ => _ end = _ => destruct x
  end; try discriminate; injection H as _ <-; eexists; reflexivity.
Qed.

Section ParseResults.

Variable strptime : string -> string -> option string.
Variable set_iter : list string -> list string.
Variable p : QueryParser.

Lemma parse_order_dir (q : string) (c c' : fuzzy_cache) (pq : ParsedQuery) :
  parse strptime set_iter p q c = (Ok pq, c') ->
  order_dir pq = "ASC" \/ order_dir pq = "DESC".
Proof.
  intros H. unfold parse in H.
  destruct (split_query (PyStr.strip q)) as [[primary ow]|e] eqn:Es;
    [|now apply raise_ok in H].
  apply split_query_order_where in Es. destruct Es as [s ->].
  apply bind_ok in H. destruct H as (st0 & ca & _ & H).
  apply bind_ok in H. destruct H as ([bt cols] & cb & _ & H).
  destruct cols; [now apply raise_ok in H|].
  apply bind_ok in H. destruct H as (acc & cc & _ & H).
  apply ret_ok in H. destruct H as [<- _]. simpl. apply parse_order_where_dir.
Qed.

(** X2: the direction of ORDER BY in a parsed query is [ASC] or [DESC],
    whatever the user wrote after the column: no other text can reach the
    ORDER BY clause through it. *)
Theorem parsed_order_dir (q : string) (c c' : fuzzy_cache) (pq : ParsedQuery) :
  parse strptime set_iter p q c = (Ok pq, c') ->
  order_dir pq = "ASC" \/ order_dir pq = "DESC".
Proof. apply parse_order_dir. Qed.

(** X3: a query in none of the three forms (it does not start with
    [primary] or [show] followed by a space and has no colon) is refused
    with a [ValueError]; the schema is not consulted and the cache stays as
    it was. *)
Theorem unsupported_form_rejected (q : string) (c : fuzzy_cache) :
  PyStr.startswith "primary " (PyStr.lower (PyStr.strip q)) = false ->
  PyStr.startswith "show " (PyStr.lower (PyStr.strip q)) = false ->
  PyStr.contains ":" (PyStr.strip q) = false ->
  exists msg, parse strptime set_iter p q c = (Raise (ValueError msg), c).
Proof.
  intros Hp Hs Hc. unfold parse, split_query. rewrite Hp, Hs.
  unfold PyStr.contains in Hc.
  destruct (PyStr.find ":" (PyStr.strip q)); [discriminate|].
  eexists. reflexivity.
Qed.

Lemma parse_base_selected (q : string) (c c' : fuzzy_cache) (pq : ParsedQuery) :
  parse strptime set_iter p q c = (Ok pq, c') ->
  select_columns pq <> []
  /\ exists b, base_table pq = Some b /\ In b (map table (select_columns pq)).
Proof.
  intros H. unfold parse in H.
  destruct (split_query (PyStr.strip q)) as [[primary ow]|e];
    [|now apply raise_ok in H].
  apply bind_ok in H. destruct H as (st0 & cx & H0 & H).
  assert (Hst0 : first_is_base st0).
  { destruct (truthy primary).
    - apply bind_ok in H0. destruct H0 as ([ci|] & ca & _ & H0).
      + apply ret_ok in H0. destruct H0 as [<- _]. right.
        exists ci, []. now split.
      + now apply raise_ok in H0.
    - apply ret_ok in H0. destruct H0 as [<- _]. now left. }
  apply bind_ok in H. destruct H as (st & cy & H1 & H).
  assert (Hst : first_is_base st).
  { destruct (String.eqb (ow_columns ow) EmptyString).
    - apply ret_ok in H1. destruct H1 as [<- _]. exact Hst0.
    - eapply (for_each_invariant (fun st _ => first_is_base st)); [| |exact H1].
      + intros; eapply select_entry_first_is_base; eauto.
      + exact Hst0. }
  destruct st as [bt cols]. destruct cols as [|f r]; [now apply raise_ok in H|].
  destruct Hst as [[_ Hc] | (f' & r' & Hc & Hb)]; [discriminate|].
  simpl in Hc, Hb. injection Hc as <- <-. subst bt.
  apply bind_ok in H. destruct H as (acc & cz & _ & H).
  apply ret_ok in H. destruct H as [<- _]. simpl.
  split; [discriminate|].
  destruct primary as [pc|].
  - exists (table f). split; [reflexivity | now left].
  - unfold _detect_optimal_base_table.
    destruct (List.find _ priority_tables) as [t|] eqn:Ef.
    + exists t. split; [reflexivity|]. apply find_some in Ef.
      destruct Ef as [_ Ef]. now apply mem_In in Ef.
    + exists (table f). split; [reflexivity | now left].
Qed.

(** X4: a parsed query selects at least one column, and its base table is
    the table of one of the selected columns, in each of the three forms. *)
Theorem parsed_base_table_is_selected (q : string) (c c' : fuzzy_cache)
    (pq : ParsedQuery) :
  parse strptime set_iter p q c = (Ok pq, c') ->
  select_columns pq <> []
  /\ exists b, base_table pq = Some b /\ In b (map table (select_columns pq)).
Proof. apply parse_base_selected. Qed.

End ParseResults.

Lemma parsed_order_dir_witness :
  order_dir {| select_columns := [mk_col "job" "job_number"];
               base_table := Some "job"; where_parts := []; params := [];
               where_tables := []; order_by := Some "id";
               order_dir := "ASC" |} = "ASC"
  \/ order_dir {| select_columns := [mk_col "job" "job_number"];
                  base_table := Some "job"; where_parts := []; params := [];
                  where_tables := []; order_by := Some "id";
                  order_dir := "ASC" |} = "DESC".
Proof.
  apply (parsed_order_dir no_strptime insertion_order job_parser
           "show job_number order by id descending nulls first"
           [] []
           {| select_columns := [mk_col "job" "job_number"];
              base_table := Some "job"; where_parts := []; params := [];
              where_tables := []; order_by := Some "id";
              order_dir := "ASC" |}).
  vm_compute. reflexivity.
Defined.

Lemma unsupported_form_rejected_witness :
  exists msg,
    parse no_strptime insertion_order job_parser "select 1" []
    = (Raise (ValueError msg), []).
Proof.
  apply (unsupported_form_rejected no_strptime insertion_order job_parser
           "select 1" []); vm_compute; reflexivity.
Defined.

Lemma parsed_base_table_is_selected_witness :
  select_columns done_parsed <> []
  /\ exists b, base_table done_parsed = Some b
               /\ In b (map table (select_columns done_parsed)).
Proof.
  apply (parsed_base_table_is_selected no_strptime insertion_order job_parser
           done_query [] [] done_parsed).
  vm_compute. reflexivity.
Defined.

(* ------------------------------------------------------------------ *)
(** * Further properties of the join graph *)

(** ** Reverse relations *)

Section ReverseRelations.

Lemma add_reverse_same (from : string) (rr : list (string * list reverse_relation))
    (rel : relation) :
  exists rl, dict_get (to_table rel) (add_reverse from rr rel) = Some rl
             /\ In (reversed from rel) rl
             /\ forall r, In r rl ->
                  r = reversed from rel
                  \/ exists rl0, dict_get (to_table rel) rr = Some rl0 /\ In r rl0.
Proof.
  unfold add_reverse. eexists. split; [apply dict_get_set_same|]. split.
  - apply in_or_app. right. now left.
  - intros r Hr. apply in_app_or in Hr. destruct Hr as [Hr|[Hr|[]]].
    + right. destruct (dict_get (to_table rel) rr) as [l|]; [|contradiction].
      now exists l.
    + now left.
Qed.

Lemma add_reverse_keeps (from : string) (rr : list (string * list reverse_relation))
    (rel : relation) (t : string) (rl : list reverse_relation) (r : reverse_relation) :
  dict_get t rr = Some rl -> In r rl ->
  exists rl', dict_get t (add_reverse from rr rel) = Some rl' /\ In r rl'.
Proof.
  intros Hg Hr. destruct (String.eqb t (to_table rel)) eqn:E.
  - apply String.eqb_eq in E. subst t. unfold add_reverse. rewrite Hg.
    eexists. split; [apply dict_get_set_same|]. apply in_or_app. now left.
  - apply String.eqb_neq in E. exists rl. split; [|exact Hr].
    unfold add_reverse. now rewrite dict_get_set_other.
Qed.

Lemma add_reverse_from (from : string) (rr : list (string * list reverse_relation))
    (rel : relation) (t : string) (rl : list reverse_relation) (r : reverse_relation) :
  dict_get t (add_reverse from rr rel) = Some rl -> In r rl ->
  (r = reversed from rel /\ t = to_table rel)
  \/ exists rl0, dict_get t rr = Some rl0 /\ In r rl0.
Proof.
  intros Hg Hr. destruct (String.eqb t (to_table rel)) eqn:E.
  - apply String.eqb_eq in E. subst t.
    destruct (add_reverse_same from rr rel) as (rl' & Hg' & _ & Hall).
    rewrite Hg in Hg'. injection Hg' as <-.
    destruct (Hall r Hr) as [->|H]; [now left | now right].
  - apply String.eqb_neq in E. right. exists rl. split; [|exact Hr].
    unfold add_reverse in Hg. now rewrite dict_get_set_other in Hg.
Qed.

(** The two loops of [_build_reverse_relations], started from [rr0]. *)
Lemma reverse_fold (rc : relations) :
  forall rr0 t r,
    (exists rl, dict_get t
         (fold_left (fun rr e => fold_left (add_reverse (fst e)) (snd e) rr) rc rr0)
         = Some rl /\ In r rl)
    <-> ((exists rl0, dict_get t rr0 = Some rl0 /\ In r rl0)
         \/ exists rel, has_fk rc (from_table r) rel
                        /\ r = reversed (from_table r) rel /\ to_table rel = t).
Proof.
  assert (Hinner : forall from rels rr0 t r,
    (exists rl, dict_get t (fold_left (add_reverse from) rels rr0) = Some rl
                /\ In r rl)
    <-> ((exists rl0, dict_get t rr0 = Some rl0 /\ In r rl0)
         \/ exists rel, In rel rels /\ r = reversed from rel /\ to_table rel = t)).
  { intros from. induction rels as [|rel rels IH]; intros rr0 t r; simpl.
    - split; [now left | intros [H|(rel & [] & _)]; exact H].
    - rewrite IH. split.
      + intros [(rl & Hg & Hr)|(rel' & Hin & E1 & E2)].
        * destruct (add_reverse_from _ _ _ _ _ _ Hg Hr) as [[-> ->]|H].
          -- right. exists rel. auto.
          -- now left.
        * right. exists rel'. auto.
      + intros [(rl0 & Hg & Hr)|(rel' & Hin & -> & <-)].
        * left. eapply add_reverse_keeps; eauto.
        * destruct Hin as [E|Hin].
          -- subst rel'. left.
             destruct (add_reverse_same from rr0 rel) as (rl & Hg & Hin & _).
             now exists rl.
          -- right. exists rel'. auto. }
  induction rc as [|[from rels] rc IH]; intros rr0 t r; simpl.
  - split; [now left | intros [H|(rel & (rels & [] & _) & _)]; exact H].
  - rewrite IH, Hinner. split.
    + intros [[H|(rel & Hin & E1 & E2)]|(rel & (rels' & Hin & Hrel) & E1 & E2)].
      * now left.
      * right. exists rel. rewrite E1. simpl.
        split; [exists rels; split; [now left | exact Hin] | now split].
      * right. exists rel. split; [exists rels'; split; [now right | exact Hrel] | now split].
    + intros [H|(rel & (rels' & [E|Hin] & Hrel) & E1 & E2)].
      * left. now left.
      * injection E as Ef Er. subst rels'. left. right. exists rel.
        split; [exact Hrel|]. split; [rewrite Ef; exact E1 | exact E2].
      * right. exists rel. split; [now exists rels' | now split].
Qed.

Lemma reverse_relations_spec (rc : relations) (t : string)
    (r : reverse_relation) :
  (exists rl, dict_get t (_build_reverse_relations rc) = Some rl /\ In r rl)
  <-> has_fk rc (from_table r)
        {| from_column := rev_from_column r; to_table := t;
           to_column := rev_to_column r |}.
Proof.
  unfold _build_reverse_relations. rewrite reverse_fold. split.
  - intros [(rl0 & Hg & _)|(rel & Hfk & E1 & E2)]; [discriminate|].
    destruct rel as [fc tt tc]. simpl in E2. subst tt.
    rewrite E1. simpl. exact Hfk.
  - intros Hfk. right. eexists. split; [exact Hfk|].
    split; [now destruct r | reflexivity].
Qed.

(** X5: the reverse relations are exactly the relations, read backwards:
    table [t] has the reverse relation [r] if and only if the table
    [from_table r] has a foreign key to [t] with the columns of [r]. *)
Theorem reverse_relations_round_trip (rc : relations) (t : string)
    (r : reverse_relation) :
  (exists rl, dict_get t (_build_reverse_relations rc) = Some rl /\ In r rl)
  <-> has_fk rc (from_table r)
        {| from_column := rev_from_column r; to_table := t;
           to_column := rev_to_column r |}.
Proof. apply reverse_relations_spec. Qed.

End ReverseRelations.

(** ** Related tables *)

Section Related.

Lemma dict_has_set {V : Type} (k k' : string) (v : V) (d : list (string * V)) :
  dict_has k (dict_set k' v d) = String.eqb k k' || dict_has k d.
Proof.
  unfold dict_has. destruct (String.eqb k k') eqn:E.
  - apply String.eqb_eq in E. subst. now rewrite dict_get_set_same.
  - apply String.eqb_neq in E. now rewrite dict_get_set_other.
Qed.

Lemma dict_has_In {V : Type} (k : string) (d : list (string * V)) :
  dict_has k d = true <-> exists v, In (k, v) d.
Proof.
  unfold dict_has. split.
  - destruct (dict_get k d) as [v|] eqn:E; [|discriminate].
    intros _. exists v. now apply dict_get_In.
  - intros [v Hin]. induction d as [|[k2 v2] d IH]; [contradiction|].
    simpl. destruct (String.eqb k k2) eqn:E; [reflexivity|].
    destruct Hin as [Hin|Hin]; [|now apply IH].
    injection Hin as <- _. now rewrite String.eqb_refl in E.
Qed.

Lemma dict_get_unique {V : Type} (k : string) (v : V) (d : list (string * V)) :
  NoDup (map fst d) -> In (k, v) d -> dict_get k d = Some v.
Proof.
  induction d as [|[k2 v2] d IH]; intros Hn Hin; [contradiction|].
  inversion Hn as [|? ? Hnot Hn']; subst. simpl.
  destruct Hin as [Hin|Hin].
  - injection Hin as -> ->. now rewrite String.eqb_refl.
  - destruct (String.eqb k k2) eqn:E; [|now apply IH].
    apply String.eqb_eq in E. subst k2. exfalso. apply Hnot.
    apply in_map_iff. now exists (k, v).
Qed.

Lemma outgoing_spec (rels : list relation) (init : list (string * join_info))
    (k : string) (v : join_info) :
  In (k, v)
     (fold_left (fun related rel => dict_set (to_table rel) (out_info rel) related)
                rels init) ->
  In (k, v) init \/ exists rel, In rel rels /\ k = to_table rel /\ v = out_info rel.
Proof.
  revert init. induction rels as [|r rels IH]; intros init H; simpl in *.
  - now left.
  - destruct (IH _ H) as [H1|(rel & Hin & E)]; [|right; exists rel; tauto].
    apply dict_set_In in H1. destruct H1 as [E|H1]; [|now left].
    injection E as -> ->. right. exists r. auto.
Qed.

Lemma incoming_spec (rl : list reverse_relation)
    (init : list (string * join_info)) (k : string) (v : join_info) :
  In (k, v)
     (fold_left (fun related r =>
        if dict_has (from_table r) related then related
        else dict_set (from_table r) (in_info r) related) rl init) ->
  In (k, v) init \/ exists r, In r rl /\ k = from_table r /\ v = in_info r.
Proof.
  revert init. induction rl as [|r rl IH]; intros init H; simpl in *.
  - now left.
  - destruct (IH _ H) as [H1|(r' & Hin & E)]; [|right; exists r'; tauto].
    destruct (dict_has (from_table r) init); [now left|].
    apply dict_set_In in H1. destruct H1 as [E|H1]; [|now left].
    injection E as -> ->. right. exists r. auto.
Qed.

Lemma outgoing_has (rels : list relation) (init : list (string * join_info))
    (k : string) :
  dict_has k init = true \/ In k (map to_table rels) ->
  dict_has k
    (fold_left (fun related rel => dict_set (to_table rel) (out_info rel) related)
               rels init) = true.
Proof.
  revert init. induction rels as [|r rels IH]; intros init H; simpl in *.
  - destruct H as [H|[]]. exact H.
  - apply IH. rewrite dict_has_set.
    destruct H as [H|[H|H]]; [left | left | now right].
    + rewrite H. apply orb_true_r.
    + subst k. now rewrite String.eqb_refl.
Qed.

Lemma incoming_has (rl : list reverse_relation)
    (init : list (string * join_info)) (k : string) :
  dict_has k init = true \/ In k (map from_table rl) ->
  dict_has k
    (fold_left (fun related r =>
       if dict_has (from_table r) related then related
       else dict_set (from_table r) (in_info r) related) rl init) = true.
Proof.
  revert init. induction rl as [|r rl IH]; intros init H; simpl in *.
  - destruct H as [H|[]]. exact H.
  - apply IH. destruct H as [H|[H|H]]; [left | left | now right].
    + destruct (dict_has (from_table r) init); [exact H|].
      rewrite dict_has_set, H. apply orb_true_r.
    + subst k. destruct (dict_has (from_table r) init) eqn:E; [exact E|].
      rewrite dict_has_set, String.eqb_refl. reflexivity.
Qed.

Variable p : QueryParser.

(** What an entry of [get_related_tables] stands for. *)
Lemma related_spec (base t : string) (ji : join_info) :
  In (t, ji) (get_related_tables p base) ->
  (exists rels rel, dict_get base (relations_cache p) = Some rels
                    /\ In rel rels /\ t = to_table rel /\ ji = out_info rel)
  \/ (exists rl r, dict_get base (reverse_relations p) = Some rl
                   /\ In r rl /\ t = from_table r /\ ji = in_info r).
Proof.
  unfold get_related_tables. intros H.
  assert (Hout : In (t, ji)
            match dict_get base (relations_cache p) with
            | Some rels =>
                fold_left (fun related rel =>
                  dict_set (to_table rel) (out_info rel) related) rels []
            | None => []
            end ->
          exists rels rel, dict_get base (relations_cache p) = Some rels
                           /\ In rel rels /\ t = to_table rel /\ ji = out_info rel).
  { destruct (dict_get base (relations_cache p)) as [rels|]; [|contradiction].
    intros Ho. apply outgoing_spec in Ho. destruct Ho as [[]|(rel & Hin & E1 & E2)].
    exists rels, rel. auto. }
  destruct (dict_get base (reverse_relations p)) as [rl|] eqn:Er.
  - apply incoming_spec in H. destruct H as [H|(r & Hin & E1 & E2)].
    + left. now apply Hout.
    + right. exists rl, r. auto.
  - left. now apply Hout.
Qed.

Lemma related_has_outgoing (base : string) (rels : list relation) (rel : relation) :
  dict_get base (relations_cache p) = Some rels -> In rel rels ->
  dict_has (to_table rel) (get_related_tables p base) = true.
Proof.
  intros Hg Hin. unfold get_related_tables. rewrite Hg.
  assert (Ho : dict_has (to_table rel)
            (fold_left (fun related rel =>
               dict_set (to_table rel) (out_info rel) related) rels []) = true)
    by (apply outgoing_has; right; now apply in_map).
  destruct (dict_get base (reverse_relations p)); [|exact Ho].
  apply incoming_has. now left.
Qed.

Lemma related_has_incoming (base : string) (rl : list reverse_relation)
    (r : reverse_relation) :
  dict_get base (reverse_relations p) = Some rl -> In r rl ->
  dict_has (from_table r) (get_related_tables p base) = true.
Proof.
  intros Hg Hin. unfold get_related_tables. rewrite Hg.
  apply incoming_has. right. now apply in_map.
Qed.

End Related.

Lemma related_fk (sc : schema) (rc : relations) (conf : config) (base t : string)
    (ji : join_info) :
  In (t, ji) (get_related_tables (parser_of sc rc conf) base) ->
  match jtype ji with
  | outgoing => has_fk rc base {| from_column := base_column ji; to_table := t;
                                  to_column := target_column ji |}
  | incoming => has_fk rc t {| from_column := target_column ji; to_table := base;
                               to_column := base_column ji |}
  end.
Proof.
  intros H. apply related_spec in H.
  destruct H as [(rels & rel & Hg & Hin & -> & ->)|(rl & r & Hg & Hin & -> & ->)].
  - simpl. exists rels. split; [now apply dict_get_In | now destruct rel].
  - simpl. apply (reverse_relations_spec rc base r). now exists rl.
Qed.

(** X6: every table that [get_related_tables] reports for [base] stands
    for an actual foreign key, and its direction says which side holds it:
    an outgoing entry is a foreign key of [base] with [base_column] pointing
    to [target_column] of the related table, an incoming entry is a foreign
    key of the related table with [target_column] pointing to [base_column]
    of [base]. *)
Theorem related_is_foreign_key (sc : schema) (rc : relations) (conf : config)
    (base t : string) (ji : join_info) :
  In (t, ji) (get_related_tables (parser_of sc rc conf) base) ->
  match jtype ji with
  | outgoing => has_fk rc base {| from_column := base_column ji; to_table := t;
                                  to_column := target_column ji |}
  | incoming => has_fk rc t {| from_column := target_column ji; to_table := base;
                               to_column := base_column ji |}
  end.
Proof. apply related_fk. Qed.

Lemma related_is_foreign_key_witness :
  has_fk job_relations "job" (fk "company_id" "company" "id").
Proof.
  apply (related_is_foreign_key job_schema job_relations no_config "company" "job"
           {| jtype := incoming; base_column := "id";
              target_column := "company_id" |}).
  vm_compute. tauto.
Defined.

(** X7: the relation between tables is symmetric, as the path search needs
    it: when [t] is related to [base], [base] is related to [t].  (The keys
    of the relations are distinct, as the keys of a dict are.) *)
Theorem related_is_symmetric (sc : schema) (rc : relations) (conf : config)
    (base t : string) :
  NoDup (map fst rc) ->
  dict_has t (get_related_tables (parser_of sc rc conf) base) = true ->
  dict_has base (get_related_tables (parser_of sc rc conf) t) = true.
Proof.
  intros Hn H. apply dict_has_In in H. destruct H as [ji H].
  apply related_fk in H. destruct (jtype ji).
  - apply (reverse_relations_spec rc t
             {| from_table := base; rev_from_column := base_column ji;
                rev_to_column := target_column ji |}) in H.
    destruct H as (rl & Hg & Hin).
    apply (related_has_incoming (parser_of sc rc conf) t rl _ Hg Hin).
  - destruct H as (rels & Hin & Hrel).
    apply (related_has_outgoing (parser_of sc rc conf) t rels _
             (dict_get_unique _ _ _ Hn Hin) Hrel).
Qed.

Lemma related_is_symmetric_witness :
  dict_has "job" (get_related_tables job_parser "company") = true.
Proof.
  apply (related_is_symmetric job_schema job_relations no_config "job" "company").
  - repeat constructor. intros [].
  - vm_compute. reflexivity.
Defined.

(* ------------------------------------------------------------------ *)
(** ** What the path search finds *)

Section Reach.

Variable p : QueryParser.

Lemma expand_direct (target current : string) (score : nat) (pth : path)
    (ji : join_info) :
  forall related st,
    dict_get target related = Some ji ->
    expand target current score pth related st
    = inl (pth ++ [(target, ji)])%list.
Proof.
  induction related as [|[t j] related IH]; intros st H; [discriminate|].
  simpl in H. simpl expand. rewrite String.eqb_sym.
  destruct (String.eqb target t) eqn:E.
  - now injection H as ->.
  - destruct (PyStr.mem t (visited st)); now apply IH.
Qed.

Lemma preferred_path_exists (hops : list string) :
  forall from, hops_related p from hops ->
  exists pth, _build_preferred_path p from hops = Some pth
              /\ map fst pth = hops.
Proof.
  induction hops as [|h hops IH]; intros from H; simpl.
  - now exists [].
  - destruct H as [Hh Hrest]. unfold dict_has in Hh.
    destruct (dict_get h (get_related_tables p from)) as [ji|]; [|discriminate].
    destruct (IH h Hrest) as (tl & -> & Hm).
    exists ((h, ji) :: tl). simpl. now rewrite Hm.
Qed.

(** X8: when the configuration names a preferred path for the pair and each
    of its tables, the target last, is directly related to the one before
    it, [find_join_path] returns a path through exactly these tables without
    searching. *)
Theorem preferred_path_is_used (base target : string) (intermediates : list string) :
  base <> target ->
  pair_get (base, target) (preferred_paths (cfg p)) = Some intermediates ->
  hops_related p base (intermediates ++ [target])%list ->
  exists pth, find_join_path p base target = Some pth
              /\ map fst pth = (intermediates ++ [target])%list.
Proof.
  intros Hbt Hpref Hhops. unfold find_join_path.
  apply String.eqb_neq in Hbt. rewrite Hbt, Hpref.
  destruct (preferred_path_exists _ _ Hhops) as (pth & -> & Hm).
  exists pth. split; [|exact Hm].
  destruct pth as [|hop rest]; [|reflexivity].
  destruct intermediates; discriminate.
Qed.

(** X9: without a preferred path for the pair, a target that is directly
    related to the base table is joined in one hop, with the join
    information of that relation, whatever it costs. *)
Theorem direct_relation_is_one_hop (base target : string) (ji : join_info) :
  base <> target ->
  pair_get (base, target) (preferred_paths (cfg p)) = None ->
  dict_get target (get_related_tables p base) = Some ji ->
  find_join_path p base target = Some [(target, ji)].
Proof.
  intros Hbt Hpref Hrel. unfold find_join_path, scored_search.
  apply String.eqb_neq in Hbt. rewrite Hbt, Hpref.
  now rewrite (expand_direct target base 0 [] ji _ _ Hrel).
Qed.

Section Frontier.

Variables base target : string.

Lemma closed_mono (vis vis' : list string) (t : string) :
  incl vis vis' -> closed p target vis t -> closed p target vis' t.
Proof.
  intros Hi Hc n ji Hin. destruct (Hc n ji Hin) as [H1 H2]. split; auto.
Qed.

(** The loop over the related tables of [current]: when it does not return
    a path, the tables it went through are visited and are not the target,
    and the frontier is kept. *)
Lemma expand_frontier (current : string) (score : nat) (pth : path) :
  forall related st st',
    frontier_ok p target current st ->
    expand target current score pth related st = inr st' ->
    frontier_ok p target current st'
    /\ incl (visited st) (visited st')
    /\ forall n ji, In (n, ji) related -> n <> target /\ In n (visited st').
Proof.
  induction related as [|[t ji] related IH]; intros st st' Hf H.
  - injection H as <-. split; [exact Hf|]. split; [apply incl_refl|].
    intros n j [].
  - simpl in H. destruct (String.eqb t target) eqn:Et; [discriminate|].
    apply String.eqb_neq in Et.
    destruct (PyStr.mem t (visited st)) eqn:Ev.
    + destruct (IH _ _ Hf H) as (Hf' & Hi & Hr).
      split; [exact Hf'|]. split; [exact Hi|].
      intros n j [E|Hin]; [|now apply (Hr n j)].
      injection E as <- <-. split; [exact Et|]. apply Hi. now apply mem_In.
    + match type of H with expand _ _ _ _ _ ?s = _ => set (st1 := s) in H end.
      assert (Hi1 : incl (visited st) (visited st1))
        by (intros x Hx; apply set_add_In; now right).
      assert (Hf1 : frontier_ok p target current st1).
      { intros x Hx. simpl in Hx. apply set_add_In in Hx.
        destruct Hx as [->|Hx].
        - right. right. eexists. split; [apply heappush_In; now left|reflexivity].
        - destruct (Hf x Hx) as [H1|[H1|(e & He & Ee)]]; [now left| |].
          + right. left. eapply closed_mono; eauto.
          + right. right. exists e. split; [|exact Ee].
            apply heappush_In. now right. }
      destruct (IH _ _ Hf1 H) as (Hf' & Hi & Hr).
      split; [exact Hf'|]. split; [eapply incl_tran; eauto|].
      intros n j [E|Hin]; [|now apply (Hr n j)].
      injection E as <- <-. split; [exact Et|]. apply Hi.
      apply set_add_In. now left.
Qed.

(** When the loop ends without a path, the visited tables are closed under
    the relation and none of them has the target as a neighbour. *)
Lemma search_loop_none (fuel : nat) :
  forall st,
    (forall t, In t (visited st) ->
       closed p target (visited st) t \/ exists e, In e (heap st) /\ e_table e = t) ->
    search_loop p target fuel st = Some None ->
    exists vis, incl (visited st) vis
                /\ forall t, In t vis -> closed p target vis t.
Proof.
  induction fuel as [|fuel IH]; intros st Hinv H; [discriminate|].
  simpl in H. destruct (heap st) as [|e h] eqn:Eh.
  - exists (visited st). split; [apply incl_refl|].
    intros t Ht. destruct (Hinv t Ht) as [Hc|(e & [] & _)]. exact Hc.
  - set (st0 := {| heap := h; visited := visited st; counter := counter st |}) in H.
    assert (Hf0 : frontier_ok p target (e_table e) st0).
    { intros t Ht. destruct (Hinv t Ht) as [Hc|(e' & [<-|He] & Ee)].
      - right. now left.
      - now left.
      - right. right. now exists e'. }
    destruct (expand target (e_table e) (e_score e) (e_path e)
                (get_related_tables p (e_table e)) st0) as [found|st'] eqn:Ex;
      [discriminate|].
    destruct (expand_frontier _ _ _ _ _ _ Hf0 Ex) as (Hf' & Hi & Hr).
    assert (Hinv' : forall t, In t (visited st') ->
              closed p target (visited st') t
              \/ exists e, In e (heap st') /\ e_table e = t).
    { intros t Ht. destruct (Hf' t Ht) as [Hcur|[H1|H1]];
        [left | now left | now right].
      subst t. intros n ji Hin. now apply (Hr n ji). }
    destruct (IH st' Hinv' H) as (vis & Hv & Hc).
    exists vis. split; [|exact Hc]. eapply incl_tran; eauto.
Qed.

(** A chain that starts inside a closed set never leaves it and never
    reaches the target. *)
Lemma chain_stays_closed (vis : list string) :
  (forall t, In t vis -> closed p target vis t) ->
  forall pth from,
    In from vis -> chain p from pth -> pth <> [] ->
    path_end from pth <> target.
Proof.
  intros Hc. induction pth as [|[t ji] pth IH]; intros from Hin Hch Hne;
    [contradiction|].
  destruct Hch as [Hrel Hch]. destruct (Hc from Hin t ji Hrel) as [Ht Hv].
  rewrite path_end_cons. destruct pth as [|hop pth'].
  - exact Ht.
  - apply IH; [exact Hv | exact Hch | discriminate].
Qed.

Lemma scored_search_complete (pth : path) :
  base <> target ->
  chain p base pth -> path_end base pth = target ->
  exists found, scored_search p (search_fuel p) base target = Some (Some found).
Proof.
  intros Hbt Hch Hend.
  destruct (scored_search_ends p base target Hbt) as (r & Hr & _).
  rewrite (Hr _ (le_n _)). destruct r as [found|]; [now exists found|].
  exfalso. specialize (Hr _ (le_n _)). unfold scored_search in Hr.
  set (st0 := {| heap := []; visited := [base]; counter := 0 |}) in Hr.
  assert (Hf0 : frontier_ok p target base st0).
  { intros t [<-|[]]. now left. }
  destruct (expand target base 0 [] (get_related_tables p base) st0)
    as [found|st'] eqn:Ex; [discriminate|].
  destruct (expand_frontier _ _ _ _ _ _ Hf0 Ex) as (Hf' & Hi & Hrel).
  assert (Hinv' : forall t, In t (visited st') ->
            closed p target (visited st') t
            \/ exists e, In e (heap st') /\ e_table e = t).
  { intros t Ht. destruct (Hf' t Ht) as [Hcur|[H1|H1]];
      [left | now left | now right].
    subst t. intros n ji Hin. now apply (Hrel n ji). }
  destruct (search_loop_none _ st' Hinv' Hr) as (vis & Hv & Hc).
  assert (Hne : pth <> []).
  { intros ->. apply Hbt. exact Hend. }
  apply (chain_stays_closed vis Hc pth base); auto.
  apply Hv, Hi. now left.
Qed.

End Frontier.

(** X10: the search is complete: whenever some chain of direct relations
    leads from the base table to the target table, [find_join_path] returns
    a path; it answers [None] only for a target that cannot be reached. *)
Theorem reachable_target_is_found (base target : string) (pth : path) :
  chain p base pth -> path_end base pth = target ->
  exists found, find_join_path p base target = Some found.
Proof.
  intros Hch Hend. unfold find_join_path.
  destruct (String.eqb base target) eqn:Ebt; [now exists []|].
  apply String.eqb_neq in Ebt.
  destruct (scored_search_complete base target pth Ebt Hch Hend) as [found ->].
  destruct (pair_get (base, target) (preferred_paths (cfg p))) as [pref|];
    [|now exists found].
  destruct (_build_preferred_path p base (pref ++ [target])%list) as [[|h rest]|];
    eexists; reflexivity.
Qed.

End Reach.

Lemma preferred_path_is_used_witness :
  exists pth, find_join_path preferred_parser "a" "t" = Some pth
              /\ map fst pth = ["b"; "t"].
Proof.
  apply (preferred_path_is_used preferred_parser "a" "t" ["b"]).
  - discriminate.
  - vm_compute. reflexivity.
  - vm_compute. repeat split; reflexivity.
Defined.

Lemma direct_relation_is_one_hop_witness :
  find_join_path detour_parser "a" "t" = Some [hop "t" outgoing "x" "id"].
Proof.
  apply (direct_relation_is_one_hop detour_parser "a" "t").
  - discriminate.
  - vm_compute. reflexivity.
  - vm_compute. reflexivity.
Defined.

Lemma reachable_target_is_found_witness :
  exists found, find_join_path cyclic_parser "a" "c" = Some found.
Proof.
  apply (reachable_target_is_found cyclic_parser "a" "c"
           [hop "b" outgoing "b_id" "id"; hop "c" outgoing "c_id" "id"]).
  - vm_compute. tauto.
  - vm_compute. reflexivity.
Defined.

(* ------------------------------------------------------------------ *)
(** ** Ranking of candidates *)

Section SortDesc.

Context {A : Type}.

Lemma insert_desc_not_nil (x : nat * A) (l : list (nat * A)) :
  insert_desc x l <> [].
Proof. destruct l as [|y l]; simpl; [|destruct (Nat.ltb _ _)]; discriminate. Qed.

Lemma sort_desc_nil (l : list (nat * A)) : sort_desc l = [] -> l = [].
Proof.
  destruct l as [|x l]; [reflexivity|]. unfold sort_desc. simpl.
  intros H. now apply insert_desc_not_nil in H.
Qed.

Lemma In_insert_desc (x y : nat * A) (l : list (nat * A)) :
  x = y \/ In x l -> In x (insert_desc y l).
Proof.
  induction l as [|z l IH]; simpl.
  - intros [H|[]]; auto.
  - destruct (Nat.ltb (fst y) (fst z)); simpl; intros [H|[H|H]]; auto.
Qed.

Lemma In_sort_desc (x : nat * A) (l : list (nat * A)) :
  In x l -> In x (sort_desc l).
Proof.
  unfold sort_desc. induction l as [|y l IH]; simpl; [auto|].
  intros [H|H]; apply In_insert_desc; auto.
Qed.

(** The head of the sorted list is the first element of the list with the
    highest score: the sort is stable. *)
Lemma sort_desc_head (l : list (nat * A)) (y : nat * A) (r : list (nat * A)) :
  sort_desc l = y :: r ->
  exists l1 l2, l = (l1 ++ y :: l2)%list
    /\ (forall z, In z l1 -> fst z < fst y)
    /\ (forall z, In z l2 -> fst z <= fst y).
Proof.
  revert y r. induction l as [|x l IH]; intros y r H; [discriminate|].
  change (sort_desc (x :: l)) with (insert_desc x (sort_desc l)) in H.
  destruct (sort_desc l) as [|y0 r0] eqn:E.
  - apply sort_desc_nil in E. subst l. simpl in H. injection H as <- _.
    exists [], []. repeat split; intros z [].
  - destruct (IH y0 r0 eq_refl) as (l1 & l2 & El & H1 & H2).
    simpl in H. destruct (Nat.ltb (fst x) (fst y0)) eqn:Elt.
    + injection H as <- _. apply Nat.ltb_lt in Elt.
      exists (x :: l1), l2. subst l. repeat split.
      * intros z [<-|Hz]; auto.
      * exact H2.
    + injection H as <- _. apply Nat.ltb_ge in Elt.
      exists [], l. repeat split; [intros z []|].
      intros z Hz. subst l. apply in_app_or in Hz.
      destruct Hz as [Hz|[<-|Hz]].
      * apply H1 in Hz. lia.
      * exact Elt.
      * apply H2 in Hz. lia.
Qed.

End SortDesc.

Section Ranking.

Variable p : QueryParser.

Lemma best_match_split (matches : list col_info) (term : string)
    (prefer : option string) (m : col_info) :
  _select_best_match p matches term prefer = Some m ->
  exists before after,
    matches = (before ++ m :: after)%list
    /\ (forall m', In m' before ->
          match_score p term prefer m' < match_score p term prefer m)
    /\ (forall m', In m' after ->
          match_score p term prefer m' <= match_score p term prefer m).
Proof.
  unfold _select_best_match.
  destruct (sort_desc _) as [|[sc m0] r] eqn:E; [discriminate|].
  intros H. injection H as ->.
  apply sort_desc_head in E. destruct E as (l1 & l2 & El & H1 & H2).
  apply map_eq_app in El. destruct El as (before & rest & -> & <- & El).
  apply map_eq_cons in El. destruct El as (m1 & after & -> & Em & <-).
  injection Em as <- ->.
  exists before, after. split; [reflexivity|]. split.
  - intros m' Hm.
    apply (H1 (match_score p term prefer m', m')).
    apply in_map_iff. now exists m'.
  - intros m' Hm.
    apply (H2 (match_score p term prefer m', m')).
    apply in_map_iff. now exists m'.
Qed.

(** X11: [_select_best_match] returns the candidate with the highest score,
    and of several candidates with that score the one that comes first in
    the list of matches. *)
Theorem best_match_is_first_maximal (matches : list col_info) (term : string)
    (prefer : option string) (m : col_info) :
  _select_best_match p matches term prefer = Some m ->
  exists before after,
    matches = (before ++ m :: after)%list
    /\ (forall m', In m' before ->
          match_score p term prefer m' < match_score p term prefer m)
    /\ (forall m', In m' after ->
          match_score p term prefer m' <= match_score p term prefer m).
Proof. apply best_match_split. Qed.

Lemma best_match_some (matches : list col_info) (term : string)
    (prefer : option string) :
  matches <> [] -> exists m, _select_best_match p matches term prefer = Some m.
Proof.
  intros Hne. unfold _select_best_match.
  destruct (sort_desc _) as [|[sc m] r] eqn:E; [|now exists m].
  apply sort_desc_nil in E. destruct matches; [contradiction | discriminate].
Qed.

(** Without the bonus of the preferred table a score stays below 100. *)
Lemma match_score_other_table (term pt : string) (m : col_info) :
  String.eqb (PyStr.lower (table m)) (PyStr.lower pt) = false ->
  match_score p term (Some pt) m <= 85.
Proof.
  intros H. unfold match_score. rewrite H, andb_false_r. cbv iota.
  repeat match goal with
         | |- context [if ?b then _ else _] => destruct b eqn:?
         end; lia.
Qed.

Lemma match_score_preferred (term pt : string) (m : col_info) :
  pt <> EmptyString ->
  PyStr.lower (table m) = PyStr.lower pt ->
  100 <= match_score p term (Some pt) m.
Proof.
  intros Hne H. unfold match_score. rewrite H, String.eqb_refl.
  apply String.eqb_neq in Hne. rewrite Hne. cbn [negb andb]. cbv iota. lia.
Qed.

(** X12: the preferred table always wins: when one of the candidates lies in
    the preferred table (compared without case), the candidate that
    [_select_best_match] returns lies in it too, whatever the other bonuses
    of the other candidates are. *)
Theorem preferred_table_wins (matches : list col_info) (term pt : string)
    (m0 m : col_info) :
  pt <> EmptyString ->
  In m0 matches ->
  PyStr.lower (table m0) = PyStr.lower pt ->
  _select_best_match p matches term (Some pt) = Some m ->
  PyStr.lower (table m) = PyStr.lower pt.
Proof.
  intros Hne Hin Ht H. apply best_match_split in H.
  destruct H as (before & after & -> & H1 & H2).
  assert (H0 : 100 <= match_score p term (Some pt) m0)
    by now apply match_score_preferred.
  destruct (String.eqb (PyStr.lower (table m)) (PyStr.lower pt)) eqn:E;
    [now apply String.eqb_eq in E|].
  apply (match_score_other_table term) in E.
  apply in_app_or in Hin. destruct Hin as [Hin|[Hin|Hin]].
  - apply H1 in Hin. lia.
  - subst m0. lia.
  - apply H2 in Hin. lia.
Qed.

(** The scored candidates of [fuzzy_matches], before sorting. *)
Lemma fuzzy_scored_In (term clean : string) (sc : nat) (ci : col_info) :
  In (sc, ci)
     (flat_map (fun tc =>
        flat_map (fun col =>
          match fuzzy_score term clean col with
          | Some sc => [(sc, mk_col (fst tc) col)]
          | None => []
          end) (snd tc)) (table_columns p))
  <-> exists tbl cols col,
        In (tbl, cols) (table_columns p) /\ In col cols
        /\ fuzzy_score term clean col = Some sc /\ ci = mk_col tbl col.
Proof.
  rewrite in_flat_map. split.
  - intros ([tbl cols] & Ht & H). apply in_flat_map in H.
    destruct H as (col & Hc & H). simpl in *.
    destruct (fuzzy_score term clean col) as [s|] eqn:E; [|contradiction].
    destruct H as [H|[]]. injection H as -> <-.
    now exists tbl, cols, col.
  - intros (tbl & cols & col & Ht & Hc & E & ->).
    exists (tbl, cols). split; [exact Ht|]. apply in_flat_map.
    exists col. split; [exact Hc|]. simpl. rewrite E. now left.
Qed.

(** X13: the fuzzy search ranks by score: the first column of its result has
    the highest score of all columns of the index. *)
Theorem best_fuzzy_match_first (term : string) (ci : col_info)
    (rest : list col_info) (tbl : string) (cols : list string) (col : string)
    (sc : nat) :
  fuzzy_matches p term = ci :: rest ->
  In (tbl, cols) (table_columns p) -> In col cols ->
  fuzzy_score term (PyStr.replace " " "" (PyStr.replace "_" "" term)) col = Some sc ->
  exists sc0,
    fuzzy_score term (PyStr.replace " " "" (PyStr.replace "_" "" term)) (column ci)
      = Some sc0
    /\ sc <= sc0.
Proof.
  unfold fuzzy_matches. set (clean := PyStr.replace " " "" _).
  intros H Ht Hc Hs.
  destruct (sort_desc _) as [|[s0 c0] r] eqn:E; [discriminate|].
  simpl in H. injection H as -> _.
  assert (Hin : In (s0, ci) (sort_desc
            (flat_map (fun tc =>
               flat_map (fun col =>
                 match fuzzy_score term clean col with
                 | Some sc => [(sc, mk_col (fst tc) col)]
                 | None => []
                 end) (snd tc)) (table_columns p))))
    by (rewrite E; now left).
  apply sort_desc_In, fuzzy_scored_In in Hin.
  destruct Hin as (tbl0 & cols0 & col0 & _ & _ & E0 & ->).
  exists s0. split; [exact E0|].
  apply sort_desc_head in E. destruct E as (l1 & l2 & El & H1 & H2).
  assert (Hx : In (sc, mk_col tbl col) (l1 ++ (s0, mk_col tbl0 col0) :: l2)%list).
  { rewrite <- El. apply fuzzy_scored_In. now exists tbl, cols, col. }
  apply in_app_or in Hx. destruct Hx as [Hx|[Hx|Hx]].
  - apply H1 in Hx. simpl in Hx. lia.
  - injection Hx as ->. lia.
  - apply H2 in Hx. exact Hx.
Qed.

Lemma contains_empty (s : string) : PyStr.contains EmptyString s = true.
Proof. unfold PyStr.contains. destruct s; reflexivity. Qed.

Lemma fuzzy_score_substring (term clean col : string) :
  PyStr.contains term (PyStr.lower col) = true ->
  exists sc, fuzzy_score term clean col = Some sc.
Proof.
  intros H. unfold fuzzy_score.
  destruct (String.eqb (PyStr.lower col) term); [now exists 100|].
  rewrite H. now exists 80.
Qed.

Lemma fuzzy_matches_substring (term tbl : string) (cols : list string)
    (col : string) :
  In (tbl, cols) (table_columns p) -> In col cols ->
  PyStr.contains term (PyStr.lower col) = true ->
  In (mk_col tbl col) (fuzzy_matches p term).
Proof.
  intros Ht Hc H. unfold fuzzy_matches.
  destruct (fuzzy_score_substring term
              (PyStr.replace " " "" (PyStr.replace "_" "" term)) col H) as [sc E].
  apply in_map_iff. exists (sc, mk_col tbl col). split; [reflexivity|].
  apply In_sort_desc. apply fuzzy_scored_In. now exists tbl, cols, col.
Qed.

(** X14: the fuzzy search finds every column whose lower-cased name contains
    the search term, from a well-formed cache as well as from the index. *)
Theorem fuzzy_search_finds_substrings (term tbl : string) (cols : list string)
    (col : string) (c c' : fuzzy_cache) (r : list col_info) :
  cache_ok p c ->
  _fuzzy_search p term c = (Ok r, c') ->
  In (tbl, cols) (table_columns p) -> In col cols ->
  PyStr.contains term (PyStr.lower col) = true ->
  In (mk_col tbl col) r.
Proof.
  intros Hc H Ht Hcol Hs.
  rewrite (fuzzy_search_result p term c c' r Hc H).
  now apply fuzzy_matches_substring with cols.
Qed.

(** X15: a blank column name is not refused: when the index has at least one
    column, [find_column] resolves a name that is empty after stripping to
    some column, since the empty term is contained in every column name. *)
Theorem blank_column_resolves (s : string) (prefer : option string)
    (c : fuzzy_cache) (tbl : string) (cols : list string) (col : string) :
  PyStr.lower (PyStr.strip s) = EmptyString ->
  cache_ok p c ->
  In (tbl, cols) (table_columns p) -> In col cols ->
  exists ci c', find_column p s prefer c = (Ok (Some ci), c').
Proof.
  intros Hs Hc Ht Hcol. unfold find_column. rewrite Hs.
  change (PyStr.cut "." EmptyString) with (@None (string * string)).
  cbv beta iota zeta.
  match goal with
  | |- context [bind (if is_empty ?m then _ else _) _] => set (matches := m)
  end.
  clearbody matches.
  assert (Hrun : exists ms c',
            (if is_empty matches then _fuzzy_search p EmptyString
             else ret matches) c = (Ok ms, c') /\ ms <> []).
  { destruct matches as [|m ms]; unfold is_empty.
    - destruct (_fuzzy_search p EmptyString c) as [r c'] eqn:Ef.
      assert (Er : r = Ok (fuzzy_matches p EmptyString)).
      { unfold _fuzzy_search in Ef.
        destruct (dict_get EmptyString c) as [r0|] eqn:Eg; injection Ef as <- _.
        - now rewrite (Hc _ _ Eg).
        - reflexivity. }
      subst r. exists (fuzzy_matches p EmptyString), c'. split; [reflexivity|].
      intros E.
      assert (Hin : In (mk_col tbl col) (fuzzy_matches p EmptyString))
        by (apply fuzzy_matches_substring with cols; auto using contains_empty).
      rewrite E in Hin. contradiction.
    - exists (m :: ms), c. split; [reflexivity | discriminate]. }
  destruct Hrun as (ms & c' & Hrun & Hne).
  unfold bind. rewrite Hrun.
  destruct ms as [|m [|m2 ms]]; [contradiction | now exists m, c' |].
  destruct (best_match_some (m :: m2 :: ms) EmptyString prefer) as [b Hb];
    [discriminate|].
  exists b, c'. unfold ret. now rewrite Hb.
Qed.

End Ranking.

Lemma best_match_is_first_maximal_witness :
  exists before after,
    [mk_col "company" "id"; mk_col "job" "id"]
      = (before ++ mk_col "job" "id" :: after)%list
    /\ (forall m', In m' before ->
          match_score job_parser "id" None m'
          < match_score job_parser "id" None (mk_col "job" "id"))
    /\ (forall m', In m' after ->
          match_score job_parser "id" None m'
          <= match_score job_parser "id" None (mk_col "job" "id")).
Proof.
  apply (best_match_is_first_maximal job_parser
           [mk_col "company" "id"; mk_col "job" "id"] "id" None (mk_col "job" "id")).
  vm_compute. reflexivity.
Defined.

Lemma preferred_table_wins_witness :
  PyStr.lower (table (mk_col "company" "id")) = PyStr.lower "Company".
Proof.
  apply (preferred_table_wins job_parser
           [mk_col "job" "id"; mk_col "company" "id"] "id" "Company"
           (mk_col "company" "id") (mk_col "company" "id")).
  - discriminate.
  - right. left. reflexivity.
  - vm_compute. reflexivity.
  - vm_compute. reflexivity.
Defined.

Lemma best_fuzzy_match_first_witness :
  exists sc0,
    fuzzy_score "id" (PyStr.replace " " "" (PyStr.replace "_" "" "id"))
                (column (mk_col "job" "id")) = Some sc0
    /\ 80 <= sc0.
Proof.
  apply (best_fuzzy_match_first job_parser "id" (mk_col "job" "id")
           [mk_col "company" "id"; mk_col "job" "company_id"]
           "job" ["id"; "job_number"; "company_id"; "status"; "completed_on"]
           "company_id" 80).
  - vm_compute. reflexivity.
  - left. vm_compute. reflexivity.
  - right. right. left. reflexivity.
  - vm_compute. reflexivity.
Defined.

Lemma fuzzy_search_finds_substrings_witness :
  In (mk_col "job" "completed_on") [mk_col "job" "completed_on"].
Proof.
  apply (fuzzy_search_finds_substrings job_parser "leted" "job"
           ["id"; "job_number"; "company_id"; "status"; "completed_on"]
           "completed_on" [] [("leted", [mk_col "job" "completed_on"])]).
  - intros k r H. discriminate.
  - vm_compute. reflexivity.
  - left. vm_compute. reflexivity.
  - do 4 right. left. reflexivity.
  - vm_compute. reflexivity.
Defined.

Lemma blank_column_resolves_witness :
  exists ci c', find_column job_parser "  " (Some "company") [] = (Ok (Some ci), c').
Proof.
  apply (blank_column_resolves job_parser "  " (Some "company") [] "job"
           ["id"; "job_number"; "company_id"; "status"; "completed_on"] "id").
  - vm_compute. reflexivity.
  - intros k r H. discriminate.
  - left. vm_compute. reflexivity.
  - left. reflexivity.
Defined.

(* ------------------------------------------------------------------ *)
(** ** The index holds columns of the schema and alias targets only *)

Section IndexSound.

Variable good : col_info -> Prop.

Lemma dict_set_pairs {V : Type} (k0 k : string) (v0 v : V) (d : list (string * V)) :
  In (k0, v0) (dict_set k v d) -> (k0 = k /\ v0 = v) \/ In (k0, v0) d.
Proof.
  induction d as [|[k2 v2] d IH]; simpl.
  - intros [H|[]]. injection H as <- <-. now left.
  - destruct (String.eqb k k2); simpl; intros [H|H]; auto.
    + injection H as <- <-. now left.
    + destruct (IH H); auto.
Qed.

Lemma add_to_map_good (cm : column_map_t) (key : string) (ci : col_info)
    (unique : bool) :
  (forall k l x, In (k, l) cm -> In x l -> good x) ->
  good ci ->
  forall k l x, In (k, l) (_add_to_map cm key ci unique) -> In x l -> good x.
Proof.
  intros Hcm Hci k l x Hin Hx. unfold _add_to_map in Hin.
  destruct (dict_get key cm) as [existing|] eqn:E.
  - apply dict_get_In in E. destruct unique.
    + apply dict_set_pairs in Hin. destruct Hin as [[_ ->]|Hin]; [|eauto].
      destruct Hx as [<-|[]]. exact Hci.
    + destruct (existsb _ existing); [eauto|].
      apply dict_set_pairs in Hin. destruct Hin as [[_ ->]|Hin]; [|eauto].
      apply in_app_or in Hx. destruct Hx as [Hx|[<-|[]]]; eauto.
  - apply dict_set_pairs in Hin. destruct Hin as [[_ ->]|Hin]; [|eauto].
    destruct Hx as [<-|[]]. exact Hci.
Qed.

Lemma map_column_good (tbl : string) (cm : column_map_t) (c : schema_col) :
  (forall k l x, In (k, l) cm -> In x l -> good x) ->
  good (mk_col tbl (name c)) ->
  forall k l x, In (k, l) (map_column tbl cm c) -> In x l -> good x.
Proof.
  intros Hcm Hc. unfold map_column.
  repeat match goal with
  | |- context [if ?b then _ else _] => destruct b
  end; repeat (apply add_to_map_good; [|exact Hc]); exact Hcm.
Qed.

Lemma map_columns_good (tbl : string) (cols : list schema_col) :
  forall cm,
  (forall k l x, In (k, l) cm -> In x l -> good x) ->
  (forall c, In c cols -> good (mk_col tbl (name c))) ->
  forall k l x, In (k, l) (fold_left (map_column tbl) cols cm) -> In x l -> good x.
Proof.
  induction cols as [|c cols IH]; intros cm Hcm Hc; simpl; [exact Hcm|].
  apply IH.
  - apply map_column_good; [exact Hcm | apply Hc; now left].
  - intros c' Hc'. apply Hc. now right.
Qed.

Lemma map_tables_good (sc : schema) :
  forall st,
  (forall k l x, In (k, l) (fst st) -> In x l -> good x) ->
  (forall tbl cols c, In (tbl, cols) sc -> In c cols -> good (mk_col tbl (name c))) ->
  forall k l x, In (k, l) (fst (fold_left map_table sc st)) -> In x l -> good x.
Proof.
  induction sc as [|[tbl cols] sc IH]; intros st Hst Hsc; simpl; [exact Hst|].
  apply IH.
  - simpl. apply map_columns_good; [exact Hst|].
    intros c Hc. apply (Hsc tbl cols); [now left | exact Hc].
  - intros t cs c Ht. apply (Hsc t cs). now right.
Qed.

Lemma aliases_good (al : list (string * col_info)) :
  forall cm,
  (forall k l x, In (k, l) cm -> In x l -> good x) ->
  (forall a, In a al -> good (snd a)) ->
  forall k l x,
    In (k, l) (fold_left (fun cm a => dict_set (PyStr.lower (fst a)) [snd a] cm) al cm) ->
    In x l -> good x.
Proof.
  induction al as [|a al IH]; intros cm Hcm Hal; simpl; [exact Hcm|].
  apply IH.
  - intros k l x Hin Hx. apply dict_set_pairs in Hin.
    destruct Hin as [[_ ->]|Hin]; [|eauto].
    destruct Hx as [<-|[]]. apply Hal. now left.
  - intros a' Ha'. apply Hal. now right.
Qed.

Lemma table_columns_from_schema (sc : schema) :
  forall st t names,
  In (t, names) (snd (fold_left map_table sc st)) ->
  In (t, names) (snd st)
  \/ exists cols, In (t, cols) sc /\ names = map name cols.
Proof.
  induction sc as [|[tbl cols] sc IH]; intros st t names H; simpl in H; [now left|].
  apply IH in H. destruct H as [H|(cs & Hcs & E)].
  - simpl in H. apply dict_set_pairs in H. destruct H as [[-> ->]|H]; [|now left].
    right. exists cols. split; [now left | reflexivity].
  - right. exists cs. split; [now right | exact E].
Qed.

End IndexSound.

Section ResolverSound.

Variable p : QueryParser.
Variable good : col_info -> Prop.

Hypothesis map_good :
  forall k l x, In (k, l) (column_map p) -> In x l -> good x.
Hypothesis columns_good :
  forall tbl cols col, In (tbl, cols) (table_columns p) -> In col cols ->
                       good (mk_col tbl col).

Lemma get_matches_good (key : string) (ci : col_info) :
  In ci (_get_matches p key) -> good ci.
Proof.
  unfold _get_matches. destruct (dict_get key (column_map p)) as [l|] eqn:E;
    [|contradiction].
  apply dict_get_In in E. eauto.
Qed.

Lemma fuzzy_matches_good (term : string) (ci : col_info) :
  In ci (fuzzy_matches p term) -> good ci.
Proof.
  unfold fuzzy_matches. intros H. apply in_map_iff in H.
  destruct H as ([sc ci'] & E & H). simpl in E. subst ci'.
  apply sort_desc_In, fuzzy_scored_In in H.
  destruct H as (tbl & cols & col & Ht & Hc & _ & ->). eauto.
Qed.

Lemma find_qualified_good (table_hint col_name : string) (ci : col_info) :
  find_qualified p table_hint col_name = Some ci -> good ci.
Proof.
  unfold find_qualified.
  assert (G : forall tcs, incl tcs (table_columns p) ->
    forall hit,
    (fix scan (tcs : list (string * list string)) : option col_info :=
       match tcs with
       | [] => None
       | (tbl, cols) :: rest =>
           if String.eqb (PyStr.lower tbl) table_hint
              || PyStr.startswith table_hint (PyStr.lower tbl)
           then match List.find hit cols with
                | Some c => Some (mk_col tbl c)
                | None => scan rest
                end
           else scan rest
       end) tcs = Some ci -> good ci).
  { induction tcs as [|[tbl cols] tcs IH]; intros Hi hit H; [discriminate|].
    assert (Hi' : incl tcs (table_columns p)) by (intros x Hx; apply Hi; now right).
    destruct (String.eqb (PyStr.lower tbl) table_hint
              || PyStr.startswith table_hint (PyStr.lower tbl)); [|eauto].
    destruct (List.find hit cols) as [c|] eqn:Ef; [|eauto].
    injection H as <-. apply find_some in Ef.
    apply (columns_good tbl cols); [apply Hi; now left | tauto]. }
  apply G. apply incl_refl.
Qed.

(** The candidates both resolvers choose from. *)
Lemma candidates_good (matches : list col_info) (term : string)
    (c c' : fuzzy_cache) (ms : list col_info) :
  cache_ok p c ->
  (forall ci, In ci matches -> good ci) ->
  (if is_empty matches then _fuzzy_search p term else ret matches) c = (Ok ms, c') ->
  forall ci, In ci ms -> good ci.
Proof.
  intros Hc Hm H. destruct (is_empty matches).
  - apply (fuzzy_search_result p _ _ _ _ Hc) in H. subst ms.
    intros ci. apply fuzzy_matches_good.
  - apply ret_ok in H. destruct H as [<- _]. exact Hm.
Qed.

Lemma find_column_good (col_part : string) (prefer : option string)
    (c c' : fuzzy_cache) (ci : col_info) :
  cache_ok p c ->
  find_column p col_part prefer c = (Ok (Some ci), c') -> good ci.
Proof.
  intros Hc H. unfold find_column in H.
  set (cp := PyStr.lower (PyStr.strip col_part)) in *.
  destruct (match PyStr.cut "." cp with
            | Some (table_hint, col_name) => find_qualified p table_hint col_name
            | None => None
            end) as [q|] eqn:Eq.
  - apply ret_ok in H. destruct H as [H _]. injection H as ->.
    destruct (PyStr.cut "." cp) as [[th cn]|]; [|discriminate].
    eapply find_qualified_good; eauto.
  - clear Eq. apply bind_ok in H. destruct H as (matches & c1 & Hm & H).
    assert (Hk : forall x, In x matches -> good x).
    { eapply candidates_good; [exact Hc| |exact Hm].
      intros x.
      repeat match goal with
      | |- In _ (if ?b then _ else _) -> _ => destruct b
      end; apply get_matches_good. }
    destruct matches as [|m [|m2 ms]].
    + apply ret_ok in H. destruct H; discriminate.
    + apply ret_ok in H. destruct H as [H _]. injection H as ->.
      apply Hk. now left.
    + apply ret_ok in H. destruct H as [H _].
      apply select_best_match_In in H. now apply Hk.
Qed.

Lemma find_column_for_base_good (col_part : string) (base : option string)
    (c c' : fuzzy_cache) (ci : col_info) :
  cache_ok p c ->
  find_column_for_base p col_part base c = (Ok (Some ci), c') -> good ci.
Proof.
  intros Hc H. unfold find_column_for_base in H.
  destruct (PyStr.contains "." _); [now apply find_column_good in H|].
  apply bind_ok in H. destruct H as (matches & c1 & Hm & H).
  assert (Hk : forall x, In x matches -> good x).
  { eapply candidates_good; [exact Hc| |exact Hm].
    intros x.
    repeat match goal with
    | |- In _ (if ?b then _ else _) -> _ => destruct b
    end; apply get_matches_good. }
  destruct matches as [|m [|m2 ms]].
  - apply ret_ok in H. destruct H; discriminate.
  - apply ret_ok in H. destruct H as [H _]. injection H as ->.
    apply Hk. now left.
  - set (l := m :: m2 :: ms) in *. clearbody l.
    match type of H with
    | match ?b with _ => _ end _ = _ => destruct b as [r|] eqn:Er
    end.
    + apply ret_ok in H. destruct H as [H _]. injection H as ->.
      destruct base as [bt|]; [|discriminate].
      destruct (String.eqb bt ""); [discriminate|].
      repeat match type of Er with
      | match List.find ?f ?l with _ => _ end = _ =>
          let E := fresh "E" in
          destruct (List.find f l) eqn:E;
          [injection Er as ->; apply find_some in E; apply Hk; tauto|]
      end.
      apply find_some in Er. apply Hk. tauto.
    + apply ret_ok in H. destruct H as [H _].
      apply select_best_match_In in H. now apply Hk.
Qed.

End ResolverSound.

Lemma index_sound (sc : schema) (rc : relations) (conf : config) :
  (forall k l x, In (k, l) (column_map (parser_of sc rc conf)) -> In x l ->
                 schema_column sc x \/ alias_target conf x)
  /\ (forall tbl cols col,
        In (tbl, cols) (table_columns (parser_of sc rc conf)) -> In col cols ->
        schema_column sc (mk_col tbl col) \/ alias_target conf (mk_col tbl col)).
Proof.
  split.
  - simpl. apply aliases_good.
    + apply map_tables_good; [intros k l x []|].
      intros tbl cols c Ht Hc. left. exists cols, c. now repeat split.
    + intros a Ha. right. unfold alias_target. now apply in_map.
  - simpl. intros tbl names col Ht Hc.
    apply table_columns_from_schema in Ht. destruct Ht as [[]|(cols & Ht & ->)].
    apply in_map_iff in Hc. destruct Hc as (c & <- & Hc).
    left. exists cols, c. now repeat split.
Qed.

(** X16: the resolvers never invent a column: whatever the text, a column
    that [find_column] or [find_column_for_base] returns is a column of a
    table of the schema snapshot, under the name the snapshot gives it, or
    the target of a configured alias. *)
Theorem resolved_column_exists (sc : schema) (rc : relations) (conf : config) :
  (forall text prefer c c' ci,
     cache_ok (parser_of sc rc conf) c ->
     find_column (parser_of sc rc conf) text prefer c = (Ok (Some ci), c') ->
     schema_column sc ci \/ alias_target conf ci)
  /\ (forall text base c c' ci,
        cache_ok (parser_of sc rc conf) c ->
        find_column_for_base (parser_of sc rc conf) text base c = (Ok (Some ci), c') ->
        schema_column sc ci \/ alias_target conf ci).
Proof.
  destruct (index_sound sc rc conf) as [Hm Hc]. split.
  - intros text prefer c c' ci.
    apply (find_column_good _ (fun x => schema_column sc x \/ alias_target conf x)
             Hm Hc).
  - intros text base c c' ci.
    apply (find_column_for_base_good _
             (fun x => schema_column sc x \/ alias_target conf x) Hm Hc).
Qed.

(* ------------------------------------------------------------------ *)
(** ** Configured aliases *)

Lemma alias_key (sc : schema) (rc : relations) (conf : config)
    (pre post : list (string * col_info)) (a : string) (target : col_info) :
  custom_mappings conf = List.app pre ((a, target) :: post) ->
  Forall (fun e => PyStr.lower (fst e) <> PyStr.lower a) post ->
  _get_matches (parser_of sc rc conf) (PyStr.lower a) = [target].
Proof.
  intros Hcm Hpost. unfold _get_matches, parser_of, _build_column_map. simpl.
  rewrite Hcm, fold_left_app. simpl.
  rewrite aliases_keep_other_keys by exact Hpost.
  now rewrite dict_get_set_same.
Qed.

Lemma cut_none (sep s : string) :
  PyStr.contains sep s = false -> PyStr.cut sep s = None.
Proof.
  unfold PyStr.contains, PyStr.cut. now destruct (PyStr.find sep s).
Qed.

(** X17: a configured alias resolves to its target: when the text is the
    alias up to case and surrounding whitespace, the alias has no dot and
    no later alias has the same lower-cased name, both resolvers return the
    configured target, whatever the schema holds under that name, and leave
    the cache as it is. *)
Theorem alias_resolves (sc : schema) (rc : relations) (conf : config)
    (pre post : list (string * col_info)) (a text : string) (target : col_info)
    (prefer : option string) (c : fuzzy_cache) :
  custom_mappings conf = List.app pre ((a, target) :: post) ->
  Forall (fun e => PyStr.lower (fst e) <> PyStr.lower a) post ->
  PyStr.lower (PyStr.strip text) = PyStr.lower a ->
  PyStr.contains "." (PyStr.lower a) = false ->
  find_column (parser_of sc rc conf) text prefer c = (Ok (Some target), c)
  /\ find_column_for_base (parser_of sc rc conf) text prefer c
     = (Ok (Some target), c).
Proof.
  intros Hcm Hpost Ht Hdot.
  pose proof (alias_key sc rc conf pre post a target Hcm Hpost) as Hk.
  split.
  - unfold find_column. rewrite Ht, (cut_none _ _ Hdot), Hk. reflexivity.
  - unfold find_column_for_base. rewrite Ht, Hdot, Hk. reflexivity.
Qed.

(** X18: with a base table, [find_column_for_base] prefers the base table's
    own column: when the column map holds candidates for the name and one of
    them lies in the base table, the column returned lies in the base table,
    and the cache is not consulted. *)
Theorem base_table_column_preferred (p : QueryParser) (text bt : string)
    (m : col_info) (c : fuzzy_cache) :
  PyStr.contains "." (PyStr.lower (PyStr.strip text)) = false ->
  bt <> EmptyString ->
  In m (_get_matches p (PyStr.lower (PyStr.strip text))) ->
  table m = bt ->
  exists ci,
    find_column_for_base p text (Some bt) c = (Ok (Some ci), c)
    /\ table ci = bt
    /\ In ci (_get_matches p (PyStr.lower (PyStr.strip text))).
Proof.
  intros Hdot Hne Hin Ht. unfold find_column_for_base. rewrite Hdot.
  destruct (_get_matches p (PyStr.lower (PyStr.strip text))) as [|m1 [|m2 ms]] eqn:E.
  - contradiction.
  - destruct Hin as [->|[]]. exists m. simpl. auto.
  - unfold is_empty, bind, ret. cbv beta iota.
    apply String.eqb_neq in Hne. rewrite Hne.
    destruct (List.find (fun x => String.eqb (table x) bt) (m1 :: m2 :: ms))
      as [r|] eqn:Ef.
    + exists r. apply find_some in Ef. destruct Ef as [Hr Er].
      apply String.eqb_eq in Er. auto.
    + exfalso. apply (find_none _ _ Ef) in Hin.
      rewrite Ht, String.eqb_refl in Hin. discriminate.
Qed.

Lemma alias_resolves_witness :
  find_column (parser_of job_schema job_relations
                 {| custom_mappings := [("Client", mk_col "company" "name")];
                    status_mappings := []; status_keywords := [];
                    default_filters := []; preferred_paths := [] |})
              " CLIENT " None []
    = (Ok (Some (mk_col "company" "name")), [])
  /\ find_column_for_base
       (parser_of job_schema job_relations
          {| custom_mappings := [("Client", mk_col "company" "name")];
             status_mappings := []; status_keywords := [];
             default_filters := []; preferred_paths := [] |})
       " CLIENT " None []
     = (Ok (Some (mk_col "company" "name")), []).
Proof.
  apply (alias_resolves job_schema job_relations
           {| custom_mappings := [("Client", mk_col "company" "name")];
              status_mappings := []; status_keywords := [];
              default_filters := []; preferred_paths := [] |}
           [] [] "Client" " CLIENT " (mk_col "company" "name") None []).
  - reflexivity.
  - constructor.
  - vm_compute. reflexivity.
  - vm_compute. reflexivity.
Defined.

Lemma base_table_column_preferred_witness :
  exists ci,
    find_column_for_base job_parser "ID" (Some "job") [] = (Ok (Some ci), [])
    /\ table ci = "job"
    /\ In ci (_get_matches job_parser (PyStr.lower (PyStr.strip "ID"))).
Proof.
  apply (base_table_column_preferred job_parser "ID" "job" (mk_col "job" "id") []).
  - vm_compute. reflexivity.
  - discriminate.
  - vm_compute. left. reflexivity.
  - reflexivity.
Defined.

(* ------------------------------------------------------------------ *)
(** ** JOIN clauses *)

Section Joins.

Variable set_iter : list string -> list string.
Variable p : QueryParser.
Variable base : string.

Lemma join_clause_joins (current next_table : string) (ji : join_info) :
  joins_table (join_clause current next_table ji) next_table.
Proof. unfold join_clause, joins_table. destruct (jtype ji); eexists; reflexivity. Qed.

Lemma joins_ok_add (ts : list string) (st : list string * list string)
    (clause t : string) :
  joins_ok base ts st -> PyStr.mem t (snd st) = false -> joins_table clause t ->
  joins_ok base (ts ++ [t])%list
           (List.app (fst st) [clause], set_add t (snd st)).
Proof.
  intros (Hf & Hn & Hs) Hm Hj. apply mem_false in Hm.
  split; [|split]; simpl.
  - apply Forall2_app; [exact Hf | now constructor].
  - change (base :: ts ++ [t])%list with ((base :: ts) ++ [t])%list.
    apply NoDup_snoc; [exact Hn|]. intros Hin. apply Hm, Hs.
    destruct Hin; auto.
  - intros x. rewrite set_add_In, Hs, in_app_iff. simpl.
    intuition (subst; auto).
Qed.

Lemma joins_ok_incl (ts ts' : list string) (st st' : list string * list string) :
  joins_ok base ts st -> joins_ok base (ts ++ ts')%list st' ->
  incl (snd st) (snd st').
Proof.
  intros (_ & _ & Hs) (_ & _ & Hs') x Hx. apply Hs'. apply Hs in Hx.
  rewrite in_app_iff. tauto.
Qed.

Lemma walk_path_joins (pth : path) :
  forall current ts st,
    joins_ok base ts st ->
    exists ts', joins_ok base (ts ++ ts')%list (walk_path current pth st)
                /\ incl (map fst pth) (snd (walk_path current pth st)).
Proof.
  induction pth as [|[next_table ji] pth IH]; intros current ts st Hok.
  - exists []. rewrite app_nil_r. split; [exact Hok | intros x []].
  - simpl walk_path. destruct (PyStr.mem next_table (snd st)) eqn:Em.
    + destruct (IH next_table ts st Hok) as (ts' & Hok' & Hi).
      exists ts'. split; [exact Hok'|].
      intros x [<-|Hx]; [|now apply Hi].
      apply (joins_ok_incl _ _ _ _ Hok Hok'). now apply mem_In.
    + pose proof (joins_ok_add ts st _ next_table Hok Em
                    (join_clause_joins current next_table ji)) as Hok1.
      destruct (IH next_table _ _ Hok1) as (ts' & Hok' & Hi).
      exists ([next_table] ++ ts')%list. rewrite app_assoc.
      split; [exact Hok'|].
      intros x [<-|Hx]; [|now apply Hi].
      apply (joins_ok_incl _ _ _ _ Hok1 Hok'). simpl.
      apply set_add_In. now left.
Qed.

Lemma direct_join_joins (target : string) (ts : list string)
    (st : list string * list string) :
  joins_ok base ts st -> PyStr.mem target (snd st) = false ->
  exists ts', joins_ok base (ts ++ ts')%list (direct_join p base target st).
Proof.
  intros Hok Hm. unfold direct_join.
  set (st1 := match dict_get base (relations_cache p) with
              | Some rels => _
              | None => st
              end).
  assert (H1 : exists ts1, joins_ok base (ts ++ ts1)%list st1).
  { unfold st1. destruct (dict_get base (relations_cache p)) as [rels|];
      [|exists []; now rewrite app_nil_r].
    destruct (List.find _ rels) as [rel|]; [|exists []; now rewrite app_nil_r].
    exists [target]. apply joins_ok_add; [exact Hok | exact Hm|].
    eexists. reflexivity. }
  clearbody st1. destruct H1 as (ts1 & Hok1).
  destruct (PyStr.mem target (snd st1)) eqn:Em1; [now exists ts1|].
  destruct (dict_get target (relations_cache p)) as [rels|]; [|now exists ts1].
  destruct (List.find _ rels) as [rel|]; [|now exists ts1].
  exists (ts1 ++ [target])%list. rewrite app_assoc.
  apply joins_ok_add; [exact Hok1 | exact Em1|].
  eexists. reflexivity.
Qed.

(** A path that [find_join_path] returns ends at the target. *)
Lemma find_join_path_end (target : string) (pth : path) :
  find_join_path p base target = Some pth -> path_end base pth = target.
Proof.
  unfold find_join_path. destruct (String.eqb base target) eqn:Ebt.
  - apply String.eqb_eq in Ebt. intros H. now injection H as <-.
  - apply String.eqb_neq in Ebt.
    destruct (scored_search_ends p base target Ebt) as (r & Hr & Hg).
    rewrite (Hr (search_fuel p) (le_n _)).
    assert (Hauto : r = Some pth -> path_end base pth = target).
    { intros ->. now destruct Hg as (_ & _ & He). }
    destruct (pair_get (base, target) (preferred_paths (cfg p))) as [pref|];
      [|exact Hauto].
    destruct (_build_preferred_path p base (pref ++ [target])%list)
      as [[|h rest]|] eqn:Ep; try exact Hauto.
    intros H. injection H as <-.
    destruct (preferred_path_chain _ _ _ _ Ep) as [_ Hm].
    unfold path_end. rewrite Hm. apply last_last.
Qed.

Lemma path_end_In (from : string) (pth : path) :
  pth <> [] -> In (path_end from pth) (map fst pth).
Proof.
  intros Hne. unfold path_end.
  destruct (exists_last Hne) as (pre & [t ji] & ->).
  rewrite map_app. simpl. rewrite last_last. apply in_or_app. right. now left.
Qed.

(** The loop of [_build_joins] over the tables that remain. *)
Lemma join_loop (l : list string) :
  forall ts st,
    joins_ok base ts st ->
    exists ts',
      joins_ok base (ts ++ ts')%list
        (fold_left (fun st target_table =>
           if PyStr.mem target_table (snd st) then st
           else match find_join_path p base target_table with
                | Some (hop :: rest) => walk_path base (hop :: rest) st
                | _ => direct_join p base target_table st
                end) l st)
      /\ forall t, In t l -> find_join_path p base t <> None ->
                   t = base \/ In t (ts ++ ts')%list.
Proof.
  induction l as [|t l IH]; intros ts st Hok.
  - exists []. rewrite app_nil_r. split; [exact Hok | intros t []].
  - simpl fold_left.
    set (st1 := if PyStr.mem t (snd st) then st else _).
    assert (H1 : exists ts1, joins_ok base (ts ++ ts1)%list st1
                   /\ (find_join_path p base t <> None -> In t (snd st1))).
    { unfold st1. destruct (PyStr.mem t (snd st)) eqn:Em.
      - exists []. rewrite app_nil_r. split; [exact Hok|].
        intros _. now apply mem_In.
      - destruct (find_join_path p base t) as [[|hop rest]|] eqn:Ef.
        + apply find_join_path_end in Ef. unfold path_end in Ef. simpl in Ef.
          exfalso. apply mem_false in Em. apply Em.
          destruct Hok as (_ & _ & Hs). apply Hs. now left.
        + destruct (walk_path_joins (hop :: rest) base ts st Hok)
            as (ts1 & Hok1 & Hi).
          exists ts1. split; [exact Hok1|]. intros _. apply Hi.
          apply find_join_path_end in Ef. rewrite <- Ef.
          apply path_end_In. discriminate.
        + destruct (direct_join_joins t ts st Hok Em) as (ts1 & Hok1).
          exists ts1. split; [exact Hok1|]. intros H. now contradiction H. }
    clearbody st1. destruct H1 as (ts1 & Hok1 & Ht).
    destruct (IH _ _ Hok1) as (ts2 & Hok2 & Hl).
    exists (ts1 ++ ts2)%list. rewrite app_assoc. split; [exact Hok2|].
    intros x [<-|Hx] Hp; [|now apply Hl].
    apply Ht in Hp. destruct Hok1 as (_ & _ & Hs1). apply Hs1 in Hp.
    rewrite in_app_iff. tauto.
Qed.

Lemma build_joins_spec (tables_needed : list string) :
  exists ts,
    Forall2 joins_table (_build_joins set_iter p base tables_needed) ts
    /\ NoDup (base :: ts)
    /\ forall t,
         In t (set_iter (filter (fun t => negb (PyStr.mem t [base]))
                                (set_iter tables_needed))) ->
         find_join_path p base t <> None ->
         t = base \/ In t ts.
Proof.
  unfold _build_joins.
  assert (H0 : joins_ok base [] ([], [base])).
  { split; [constructor|]. split; [repeat constructor; intros []|].
    intros t. simpl. intuition. }
  destruct (join_loop
              (set_iter (filter (fun t => negb (PyStr.mem t [base]))
                                (set_iter tables_needed))) [] _ H0)
    as (ts & (Hf & Hn & _) & Hl).
  exists ts. auto.
Qed.

(** X19: [_build_joins] joins no table twice and never joins the base
    table: its clauses are LEFT JOINs of pairwise distinct tables, all of
    them other than the base table. *)
Theorem joins_are_distinct (tables_needed : list string) :
  exists ts,
    Forall2 joins_table (_build_joins set_iter p base tables_needed) ts
    /\ NoDup (base :: ts).
Proof.
  destruct (build_joins_spec tables_needed) as (ts & Hf & Hn & _).
  now exists ts.
Qed.

Lemma Forall2_In_r {A B : Type} (R : A -> B -> Prop) (l : list A) (l' : list B)
    (y : B) :
  Forall2 R l l' -> In y l' -> exists x, In x l /\ R x y.
Proof.
  induction 1 as [|a b l l' Hab _ IH]; intros Hin; [contradiction|].
  destruct Hin as [<-|Hin].
  - exists a. split; [now left | exact Hab].
  - destruct (IH Hin) as (x & Hx & Hr). exists x. split; [now right | exact Hr].
Qed.

(** X20: every needed table that can be reached from the base table is
    joined, whatever the order in which the set of needed tables is
    iterated: [_build_joins] emits a LEFT JOIN clause for it. *)
Theorem reachable_tables_are_joined (tables_needed : list string) (t : string) :
  (forall l x, In x l -> In x (set_iter l)) ->
  In t tables_needed -> t <> base ->
  find_join_path p base t <> None ->
  exists clause,
    In clause (_build_joins set_iter p base tables_needed)
    /\ joins_table clause t.
Proof.
  intros Hiter Hin Hne Hp.
  destruct (build_joins_spec tables_needed) as (ts & Hf & _ & Hl).
  assert (Ht : t = base \/ In t ts).
  { apply Hl; [|exact Hp]. apply Hiter, filter_In. split; [now apply Hiter|].
    apply negb_true_iff, mem_false. intros [E|[]]. now apply Hne. }
  destruct Ht as [E|Ht]; [now contradiction Hne|].
  eapply Forall2_In_r; eauto.
Qed.

End Joins.

Lemma direct_relation_found (p : QueryParser) (base target : string) :
  base <> target ->
  dict_has target (get_related_tables p base) = true ->
  find_join_path p base target <> None.
Proof.
  intros Hbt H. unfold dict_has in H.
  destruct (dict_get target (get_related_tables p base)) as [ji|] eqn:E;
    [|discriminate].
  unfold find_join_path, scored_search. apply String.eqb_neq in Hbt. rewrite Hbt.
  rewrite (expand_direct target base 0 [] ji _ _ E).
  destruct (pair_get _ _) as [pref|]; [|discriminate].
  destruct (_build_preferred_path _ _ _) as [[|h r]|]; discriminate.
Qed.

(** X21: the fallback of [_build_joins] never adds a JOIN for a table that
    [find_join_path] found no path to: then neither the base table has a
    foreign key to it nor the other way round, the fallback finds nothing
    and the table stays out of the FROM clause. *)
Theorem join_fallback_never_fires (sc : schema) (rc : relations) (conf : config)
    (base target : string) (st : list string * list string) :
  find_join_path (parser_of sc rc conf) base target = None ->
  direct_join (parser_of sc rc conf) base target st = st.
Proof.
  intros Hp.
  assert (Hbt : base <> target).
  { intros <-. unfold find_join_path in Hp. now rewrite String.eqb_refl in Hp. }
  assert (Hno : dict_has target (get_related_tables (parser_of sc rc conf) base)
                = false).
  { destruct (dict_has target _) eqn:E; [|reflexivity].
    now apply direct_relation_found in E. }
  unfold direct_join.
  destruct (dict_get base (relations_cache (parser_of sc rc conf))) as [rels|] eqn:Eb.
  - destruct (List.find (fun rel => String.eqb (to_table rel) target) rels)
      as [rel|] eqn:Ef.
    + exfalso. apply find_some in Ef. destruct Ef as [Hin Et].
      apply String.eqb_eq in Et. subst target.
      now rewrite (related_has_outgoing _ base rels rel Eb Hin) in Hno.
    + destruct (PyStr.mem target (snd st)); [reflexivity|].
      destruct (dict_get target (relations_cache (parser_of sc rc conf)))
        as [rels2|] eqn:Et; [|reflexivity].
      destruct (List.find (fun rel => String.eqb (to_table rel) base) rels2)
        as [rel|] eqn:Ef2; [|reflexivity].
      exfalso. apply find_some in Ef2. destruct Ef2 as [Hin Eb2].
      apply String.eqb_eq in Eb2.
      assert (Hfk : has_fk rc target
                {| from_column := from_column rel; to_table := base;
                   to_column := to_column rel |}).
      { exists rels2. split; [now apply dict_get_In|]. rewrite <- Eb2.
        now destruct rel. }
      apply (reverse_relations_spec rc base
               {| from_table := target; rev_from_column := from_column rel;
                  rev_to_column := to_column rel |}) in Hfk.
      destruct Hfk as (rl & Hg & Hr).
      pose proof (related_has_incoming (parser_of sc rc conf) base rl _ Hg Hr)
        as Hyes.
      simpl in Hyes. congruence.
  - destruct (PyStr.mem target (snd st)); [reflexivity|].
    destruct (dict_get target (relations_cache (parser_of sc rc conf)))
      as [rels2|] eqn:Et; [|reflexivity].
    destruct (List.find (fun rel => String.eqb (to_table rel) base) rels2)
      as [rel|] eqn:Ef2; [|reflexivity].
    exfalso. apply find_some in Ef2. destruct Ef2 as [Hin Eb2].
    apply String.eqb_eq in Eb2.
    assert (Hfk : has_fk rc target
              {| from_column := from_column rel; to_table := base;
                 to_column := to_column rel |}).
    { exists rels2. split; [now apply dict_get_In|]. rewrite <- Eb2.
      now destruct rel. }
    apply (reverse_relations_spec rc base
             {| from_table := target; rev_from_column := from_column rel;
                rev_to_column := to_column rel |}) in Hfk.
    destruct Hfk as (rl & Hg & Hr).
    pose proof (related_has_incoming (parser_of sc rc conf) base rl _ Hg Hr)
      as Hyes.
    simpl in Hyes. congruence.
Qed.

Lemma reachable_tables_are_joined_witness :
  exists clause,
    In clause (_build_joins insertion_order cyclic_parser "a" ["a"; "c"])
    /\ joins_table clause "c".
Proof.
  apply (reachable_tables_are_joined insertion_order cyclic_parser "a" ["a"; "c"] "c").
  - intros l x H. exact H.
  - right. left. reflexivity.
  - discriminate.
  - vm_compute. discriminate.
Defined.

Lemma join_fallback_never_fires_witness :
  direct_join (parser_of job_schema job_relations no_config) "job" "talent"
              ([], ["job"])
  = ([], ["job"]).
Proof.
  apply (join_fallback_never_fires job_schema job_relations no_config
           "job" "talent" ([], ["job"])).
  vm_compute. reflexivity.
Defined.

(* ------------------------------------------------------------------ *)
(** ** Default filters *)

Section DefaultFilters.

Variable set_iter : list string -> list string.
Variable p : QueryParser.

Lemma keys_of_part (ms : list (string * string)) :
  forall s k,
    In k (fold_left (fun s m => set_add (fst m ++ "." ++ snd m) s) ms s)
    <-> In k s \/ exists t c, In (t, c) ms /\ k = t ++ "." ++ c.
Proof.
  induction ms as [|[t c] ms IH]; intros s k; simpl.
  - split; [now left | intros [H|(t & c & [] & _)]; exact H].
  - rewrite IH, set_add_In. split.
    + intros [[->|H]|(t' & c' & Hin & E)].
      * right. exists t, c. split; [now left | reflexivity].
      * now left.
      * right. exists t', c'. split; [now right | exact E].
    + intros [H|(t' & c' & [E|Hin] & Ek)].
      * left. now right.
      * injection E as <- <-. left. now left.
      * right. now exists t', c'.
Qed.

Lemma existing_filters_spec (parts : list string) :
  forall s k,
    In k (fold_left (fun s part =>
            fold_left (fun s m => set_add (fst m ++ "." ++ snd m) s)
                      (PyRe.findall_quoted_pair part) s) parts s)
    <-> In k s \/ mentioned parts k.
Proof.
  induction parts as [|part parts IH]; intros s k; simpl.
  - split; [now left | intros [H|(part & t & c & [] & _)]; exact H].
  - rewrite IH, keys_of_part. unfold mentioned. split.
    + intros [[H|(t & c & Hin & E)]|(part' & t & c & Hp & Hin & E)].
      * now left.
      * right. exists part, t, c. split; [now left | now split].
      * right. exists part', t, c. split; [now right | now split].
    + intros [H|(part' & t & c & [<-|Hp] & Hin & E)].
      * left. now left.
      * left. right. now exists t, c.
      * right. exists part', t, c. now split.
Qed.

Lemma filter_step_state (existing : list string) (tbl : string)
    (flts : list default_filter) (flt : default_filter)
    (fl : list (string * default_filter)) (acc : filters) :
  dict_get tbl (default_filters (cfg p)) = Some flts -> In flt flts ->
  filters_state p existing fl acc ->
  exists fl',
    filters_state p existing (fl ++ fl')%list (default_filter_step tbl acc flt)
    /\ In (tbl ++ "." ++ flt_column flt)
          (f_existing (default_filter_step tbl acc flt)).
Proof.
  intros Hg Hin Hst. unfold default_filter_step.
  destruct (PyStr.mem (tbl ++ "." ++ flt_column flt) (f_existing acc)) eqn:Em.
  - exists []. rewrite app_nil_r. split; [exact Hst|]. now apply mem_In.
  - destruct Hst as (Hw & Hp & Ha & Hn & He & Hf).
    exists [(tbl, flt)]. apply mem_false in Em. split.
    + split; [|split; [|split; [|split; [|split]]]]; simpl.
      * rewrite Hw, map_app. reflexivity.
      * rewrite Hp, map_app. reflexivity.
      * rewrite !length_app, Ha. reflexivity.
      * rewrite map_app. apply NoDup_snoc; [exact Hn|].
        intros H. apply Em, He. now right.
      * intros k. rewrite set_add_In, He, map_app, in_app_iff. simpl.
        unfold filter_key. simpl. intuition (subst; auto).
      * apply Forall_app. split; [exact Hf|]. constructor; [|constructor].
        split; [|now exists flts].
        intros H. apply Em, He. now left.
    + simpl. apply set_add_In. now left.
Qed.

Lemma filters_state_incl (existing : list string)
    (fl fl' : list (string * default_filter)) (acc acc' : filters) :
  filters_state p existing fl acc ->
  filters_state p existing (fl ++ fl')%list acc' ->
  incl (f_existing acc) (f_existing acc').
Proof.
  intros (_ & _ & _ & _ & He & _) (_ & _ & _ & _ & He' & _) k Hk.
  apply He'. apply He in Hk. rewrite map_app, in_app_iff. tauto.
Qed.

Lemma table_filters_state (existing : list string) (tbl : string)
    (flts : list default_filter) :
  dict_get tbl (default_filters (cfg p)) = Some flts ->
  forall l fl acc,
    incl l flts ->
    filters_state p existing fl acc ->
    exists fl',
      filters_state p existing (fl ++ fl')%list
        (fold_left (default_filter_step tbl) l acc)
      /\ forall flt, In flt l ->
           In (tbl ++ "." ++ flt_column flt)
              (f_existing (fold_left (default_filter_step tbl) l acc)).
Proof.
  intros Hg. induction l as [|flt l IH]; intros fl acc Hi Hst.
  - exists []. rewrite app_nil_r. split; [exact Hst | intros flt []].
  - simpl fold_left.
    destruct (filter_step_state existing tbl flts flt fl acc Hg
                (Hi flt (or_introl eq_refl)) Hst) as (fl1 & Hst1 & Hk).
    destruct (IH _ _ (fun x Hx => Hi x (or_intror Hx)) Hst1) as (fl2 & Hst2 & Hl).
    exists (fl1 ++ fl2)%list. rewrite app_assoc. split; [exact Hst2|].
    intros x [<-|Hx]; [|now apply Hl].
    apply (filters_state_incl _ _ _ _ _ Hst1 Hst2). exact Hk.
Qed.

Lemma all_filters_state (existing : list string) :
  forall l fl acc,
    filters_state p existing fl acc ->
    exists fl',
      filters_state p existing (fl ++ fl')%list
        (fold_left (fun acc tbl =>
           match dict_get tbl (default_filters (cfg p)) with
           | Some flts => fold_left (default_filter_step tbl) flts acc
           | None => acc
           end) l acc)
      /\ forall tbl flts flt,
           In tbl l -> dict_get tbl (default_filters (cfg p)) = Some flts ->
           In flt flts ->
           In (tbl ++ "." ++ flt_column flt)
              (f_existing
                 (fold_left (fun acc tbl =>
                    match dict_get tbl (default_filters (cfg p)) with
                    | Some flts => fold_left (default_filter_step tbl) flts acc
                    | None => acc
                    end) l acc)).
Proof.
  induction l as [|tbl l IH]; intros fl acc Hst.
  - exists []. rewrite app_nil_r. split; [exact Hst | intros t fs f []].
  - simpl fold_left.
    set (acc1 := match dict_get tbl (default_filters (cfg p)) with
                 | Some flts => _
                 | None => acc
                 end).
    assert (H1 : exists fl1, filters_state p existing (fl ++ fl1)%list acc1
                   /\ forall flts flt,
                        dict_get tbl (default_filters (cfg p)) = Some flts ->
                        In flt flts ->
                        In (tbl ++ "." ++ flt_column flt) (f_existing acc1)).
    { unfold acc1. destruct (dict_get tbl (default_filters (cfg p))) as [flts|] eqn:Eg.
      - destruct (table_filters_state existing tbl flts Eg flts fl acc
                    (incl_refl _) Hst) as (fl1 & Hst1 & Hk).
        exists fl1. split; [exact Hst1|].
        intros flts' flt E. injection E as <-. apply Hk.
      - exists []. rewrite app_nil_r. split; [exact Hst | discriminate]. }
    clearbody acc1. destruct H1 as (fl1 & Hst1 & Hk1).
    destruct (IH _ _ Hst1) as (fl2 & Hst2 & Hl).
    exists (fl1 ++ fl2)%list. rewrite app_assoc. split; [exact Hst2|].
    intros t flts flt [<-|Ht] Hg Hin; [|now apply (Hl t flts)].
    apply (filters_state_incl _ _ _ _ _ Hst1 Hst2). now apply (Hk1 flts).
Qed.

(** The filters that [_build_default_filters] applies. *)
Lemma default_filters_spec (tables existing : list string)
    (w : list string) (ps : list value) (applied : list string) :
  _build_default_filters set_iter p tables existing = (w, ps, applied) ->
  exists fl,
    w = map filter_clause fl
    /\ ps = map (fun tf => flt_value (snd tf)) fl
    /\ List.length applied = List.length fl
    /\ NoDup (map filter_key fl)
    /\ Forall (fun tf => ~ mentioned existing (filter_key tf)
                         /\ exists flts,
                              dict_get (fst tf) (default_filters (cfg p)) = Some flts
                              /\ In (snd tf) flts) fl
    /\ forall tbl flts flt,
         In tbl (set_iter tables) ->
         dict_get tbl (default_filters (cfg p)) = Some flts -> In flt flts ->
         mentioned existing (tbl ++ "." ++ flt_column flt)
         \/ In (tbl ++ "." ++ flt_column flt) (map filter_key fl).
Proof.
  unfold _build_default_filters.
  set (ex := fold_left _ existing []).
  assert (Hex : forall k, In k ex <-> mentioned existing k).
  { intros k. unfold ex. rewrite existing_filters_spec. simpl. tauto. }
  clearbody ex.
  assert (H0 : filters_state p ex []
                 {| f_where := []; f_params := []; f_applied := [];
                    f_existing := ex |}).
  { repeat split; simpl; try constructor; tauto. }
  destruct (all_filters_state ex (set_iter tables) [] _ H0) as (fl & Hst & Hl).
  simpl in Hst. destruct Hst as (Hw & Hp & Ha & Hn & He & Hf).
  intros H. injection H as <- <- <-.
  exists fl. split; [exact Hw|]. split; [exact Hp|]. split; [exact Ha|].
  split; [exact Hn|]. split.
  - eapply Forall_impl; [|exact Hf]. intros tf [H1 H2]. split; [|exact H2].
    intros Hm. apply H1. now apply Hex.
  - intros tbl flts flt Ht Hg Hin. specialize (Hl tbl flts flt Ht Hg Hin).
    apply He in Hl. destruct Hl as [Hl|Hl]; [left; now apply Hex | now right].
Qed.


(** X22: default filters are applied once per column and only to columns
    the query does not filter itself: the fragments and parameters returned
    are those of a list of configured filters whose keys [table.column] are
    pairwise distinct and are mentioned by no existing WHERE part; and every
    configured filter of an iterated table finds its key either mentioned
    by the query or applied. *)
Theorem default_filters_applied_once (tables existing : list string)
    (w : list string) (ps : list value) (applied : list string) :
  _build_default_filters set_iter p tables existing = (w, ps, applied) ->
  exists fl,
    w = map filter_clause fl
    /\ ps = map (fun tf => flt_value (snd tf)) fl
    /\ List.length applied = List.length fl
    /\ NoDup (map filter_key fl)
    /\ Forall (fun tf => ~ mentioned existing (filter_key tf)
                         /\ exists flts,
                              dict_get (fst tf) (default_filters (cfg p)) = Some flts
                              /\ In (snd tf) flts) fl
    /\ forall tbl flts flt,
         In tbl (set_iter tables) ->
         dict_get tbl (default_filters (cfg p)) = Some flts -> In flt flts ->
         mentioned existing (tbl ++ "." ++ flt_column flt)
         \/ In (tbl ++ "." ++ flt_column flt) (map filter_key fl).
Proof. apply default_filters_spec. Qed.

End DefaultFilters.

(* ------------------------------------------------------------------ *)
(** ** Status values *)

Section Status.

Variable p : QueryParser.

Lemma status_column_boolean (tbl status_val : string) (ci : col_info) (v : value) :
  status_column p tbl status_val = Some (ci, v) ->
  table ci = tbl
  /\ exists c, In c (table_cols p tbl) /\ name c = column ci
               /\ (type c = "boolean" \/ type c = "bool").
Proof.
  unfold status_column.
  set (bool_cols := map name (filter _ (table_cols p tbl))).
  set (is_cols := filter _ bool_cols).
  assert (Hb : forall n, In n bool_cols ->
             exists c, In c (table_cols p tbl) /\ name c = n
                       /\ (type c = "boolean" \/ type c = "bool")).
  { intros n Hn. unfold bool_cols in Hn. apply in_map_iff in Hn.
    destruct Hn as (sc & <- & Hn). apply filter_In in Hn. destruct Hn as [Hn Ht].
    exists sc. split; [exact Hn|]. split; [reflexivity|].
    apply mem_In in Ht. simpl in Ht. intuition. }
  assert (Hf : forall f n, List.find f is_cols = Some n ->
             exists c, In c (table_cols p tbl) /\ name c = n
                       /\ (type c = "boolean" \/ type c = "bool")).
  { intros f n Hn. apply find_some in Hn. destruct Hn as [Hn _].
    apply Hb. unfold is_cols in Hn. apply filter_In in Hn. tauto. }
  intros H.
  repeat match type of H with
  | match ?x with _ => _ end = Some _ =>
      let E := fresh "E" in destruct x eqn:E; try discriminate
  | (let (_, _) := ?x in _) = Some _ => destruct x
  | (if ?x then _ else _) = Some _ =>
      let E := fresh "E" in destruct x eqn:E; try discriminate
  | Some _ = Some _ => injection H as <- <-
  end;
  repeat match goal with
  | E : match ?x with _ => _ end = Some _ |- _ =>
      let E' := fresh "E" in destruct x eqn:E'; try discriminate
  | E : (if ?x then _ else _) = Some _ |- _ =>
      let E' := fresh "E" in destruct x eqn:E'; try discriminate
  | E : Some _ = Some _ |- _ => injection E as <-
  end;
  simpl; split; try reflexivity;
  first [ eapply Hf; eassumption
        | apply Hb; apply mem_In; assumption ].
Qed.

(** X23: the columns a status value resolves to are boolean columns of the
    given table: every pair that [find_boolean_column_for_status] returns
    names a column of the table whose type in the schema is [boolean] or
    [bool]; there is at most one pair per status value and the result is
    never an empty list. *)
Theorem status_columns_are_boolean (tbl : string) (status_values : list string)
    (rs : list (col_info * value)) :
  find_boolean_column_for_status p tbl status_values = Some rs ->
  rs <> []
  /\ List.length rs <= List.length status_values
  /\ Forall (fun r =>
       table (fst r) = tbl
       /\ exists c, In c (table_cols p tbl) /\ name c = column (fst r)
                    /\ (type c = "boolean" \/ type c = "bool")) rs.
Proof.
  unfold find_boolean_column_for_status.
  set (results := flat_map _ status_values).
  assert (Hl : List.length results <= List.length status_values
               /\ Forall (fun r =>
                    table (fst r) = tbl
                    /\ exists c, In c (table_cols p tbl) /\ name c = column (fst r)
                                 /\ (type c = "boolean" \/ type c = "bool")) results).
  { unfold results. induction status_values as [|v vs IH]; simpl.
    - split; [lia | constructor].
    - destruct IH as [IH1 IH2].
      destruct (status_column p tbl v) as [[ci val]|] eqn:E; simpl.
      + split; [lia|]. constructor; [|exact IH2].
        now apply status_column_boolean in E.
      + split; [lia | exact IH2]. }
  clearbody results. destruct results as [|r rest]; [discriminate|].
  intros H. injection H as <-. split; [discriminate | exact Hl].
Qed.

End Status.

Lemma status_columns_are_boolean_witness :
  [(mk_col "job" "is_done", VBool true)] <> []
  /\ List.length [(mk_col "job" "is_done", VBool true)] <= List.length ["done"; "late"]
  /\ Forall (fun r =>
       table (fst r) = "job"
       /\ exists c,
            In c (table_cols
                    (parser_of [("job", [col "id" "integer"; col "is_done" "boolean"])]
                               [] no_config) "job")
            /\ name c = column (fst r)
            /\ (type c = "boolean" \/ type c = "bool"))
       [(mk_col "job" "is_done", VBool true)].
Proof.
  apply (status_columns_are_boolean
           (parser_of [("job", [col "id" "integer"; col "is_done" "boolean"])]
                      [] no_config) "job" ["done"; "late"]).
  vm_compute. reflexivity.
Defined.

Lemma default_filters_applied_once_witness :
  exists fl,
    [col_ref "job" "deleted" ++ " = %s"] = map filter_clause fl
    /\ [VBool false] = map (fun tf => flt_value (snd tf)) fl
    /\ List.length ["job.deleted=False"] = List.length fl
    /\ NoDup (map filter_key fl)
    /\ Forall (fun tf =>
         ~ mentioned [col_ref "job" "id" ++ " = %s"] (filter_key tf)
         /\ exists flts,
              dict_get (fst tf)
                [("job", [{| flt_column := "deleted"; flt_op := None;
                             flt_value := VBool false |};
                          {| flt_column := "id"; flt_op := Some ">";
                             flt_value := VInt 0 |}])] = Some flts
              /\ In (snd tf) flts) fl
    /\ forall tbl flts flt,
         In tbl ["job"; "company"] ->
         dict_get tbl
           [("job", [{| flt_column := "deleted"; flt_op := None;
                        flt_value := VBool false |};
                     {| flt_column := "id"; flt_op := Some ">";
                        flt_value := VInt 0 |}])] = Some flts ->
         In flt flts ->
         mentioned [col_ref "job" "id" ++ " = %s"] (tbl ++ "." ++ flt_column flt)
         \/ In (tbl ++ "." ++ flt_column flt) (map filter_key fl).
Proof.
  apply (default_filters_applied_once insertion_order
           (parser_of job_schema job_relations
              {| custom_mappings := []; status_mappings := []; status_keywords := [];
                 default_filters :=
                   [("job", [{| flt_column := "deleted"; flt_op := None;
                                flt_value := VBool false |};
                             {| flt_column := "id"; flt_op := Some ">";
                                flt_value := VInt 0 |}])];
                 preferred_paths := [] |})
           ["job"; "company"] [col_ref "job" "id" ++ " = %s"]
           [col_ref "job" "deleted" ++ " = %s"] [VBool false] ["job.deleted=False"]).
  vm_compute. reflexivity.
Defined.

(* ------------------------------------------------------------------ *)
(** ** Conditions the parser drops or fails on *)

Section CharFacts.

Lemma word_not_space (a : ascii) :
  PyStr.is_word a = true -> PyStr.is_space a = false.
Proof.
  destruct a as [[] [] [] [] [] [] [] []]; vm_compute; intros H;
    first [reflexivity | discriminate H].
Qed.

Lemma word_lower (a : ascii) :
  PyStr.is_word a = true -> PyStr.is_word (PyStr.lower_char a) = true.
Proof.
  destruct a as [[] [] [] [] [] [] [] []]; vm_compute; intros H;
    first [reflexivity | discriminate H].
Qed.

Lemma all_chars_lower (s : string) :
  all_chars PyStr.is_word s = true ->
  all_chars PyStr.is_word (PyStr.lower s) = true.
Proof.
  induction s as [|a s IH]; [reflexivity|].
  cbn [all_chars PyStr.lower]. intros H. apply andb_true_iff in H.
  destruct H as [Ha Hs]. now rewrite (word_lower a Ha), IH.
Qed.

Lemma all_chars_impl (f g : ascii -> bool) (s : string) :
  (forall a, f a = true -> g a = true) ->
  all_chars f s = true -> all_chars g s = true.
Proof.
  intros Hfg. induction s as [|a s IH]; [reflexivity|].
  cbn [all_chars]. intros H. apply andb_true_iff in H. destruct H as [Ha Hs].
  now rewrite (Hfg a Ha), IH.
Qed.

Lemma all_chars_mem (f : ascii -> bool) (s : string) (c : ascii) :
  all_chars f s = true -> f c = false -> PyStr.mem_char c s = false.
Proof.
  intros Hs Hc. induction s as [|a s IH]; [reflexivity|].
  cbn [all_chars] in Hs. apply andb_true_iff in Hs. destruct Hs as [Ha Hs].
  cbn [PyStr.mem_char]. rewrite (IH Hs), orb_false_r.
  destruct (Ascii.eqb c a) eqn:E; [|reflexivity].
  apply Ascii.eqb_eq in E. subst. congruence.
Qed.

Lemma find_unfold (sub s : string) :
  PyStr.find sub s
  = if PyStr.startswith sub s then Some 0
    else match s with
         | EmptyString => None
         | String _ s' => option_map S (PyStr.find sub s')
         end.
Proof. destruct s; reflexivity. Qed.

Lemma startswith_mem_char (sub s : string) (c : ascii) :
  PyStr.startswith sub s = true -> PyStr.mem_char c sub = true ->
  PyStr.mem_char c s = true.
Proof.
  revert s. induction sub as [|a sub IH]; intros s Hs Hc; [discriminate|].
  destruct s as [|b s]; [discriminate|].
  cbn [PyStr.startswith] in Hs. apply andb_true_iff in Hs.
  destruct Hs as [Hab Hs]. apply Ascii.eqb_eq in Hab. subst b.
  cbn [PyStr.mem_char] in *. destruct (Ascii.eqb c a); [reflexivity|].
  simpl in *. now apply IH.
Qed.

Lemma find_none_char (c : ascii) (sub s : string) :
  PyStr.mem_char c sub = true -> PyStr.mem_char c s = false ->
  PyStr.find sub s = None.
Proof.
  intros Hsub. induction s as [|a s IH]; intros Hs; rewrite find_unfold.
  - destruct (PyStr.startswith sub EmptyString) eqn:E; [|reflexivity].
    now rewrite (startswith_mem_char _ _ c E Hsub) in Hs.
  - destruct (PyStr.startswith sub (String a s)) eqn:E.
    + now rewrite (startswith_mem_char _ _ c E Hsub) in Hs.
    + cbn [PyStr.mem_char] in Hs. apply orb_false_iff in Hs.
      now rewrite (IH (proj2 Hs)).
Qed.

Lemma take_while_id (f : ascii -> bool) (s : string) :
  all_chars f s = true -> PyStr.take_while f s = s.
Proof.
  induction s as [|a s IH]; [reflexivity|].
  cbn [all_chars PyStr.take_while]. intros H. apply andb_true_iff in H.
  destruct H as [Ha Hs]. now rewrite Ha, IH.
Qed.

Lemma drop_all (s : string) : PyStr.drop (String.length s) s = EmptyString.
Proof. induction s as [|a s IH]; [reflexivity | exact IH]. Qed.

Lemma split_ws1_word (s : string) :
  s <> EmptyString -> all_chars PyStr.is_word s = true ->
  PyStr.split_ws1 s = [s].
Proof.
  intros Hne Hs. destruct s as [|a s]; [contradiction|].
  assert (Ha : PyStr.is_space a = false).
  { cbn [all_chars] in Hs. apply andb_true_iff in Hs.
    now apply word_not_space. }
  assert (Hn : all_chars (fun c => negb (PyStr.is_space c)) (String a s) = true).
  { apply (all_chars_impl PyStr.is_word); [|exact Hs].
    intros b Hb. now rewrite (word_not_space b Hb). }
  unfold PyStr.split_ws1.
  assert (Hl : PyStr.lstrip_by PyStr.is_space (String a s) = String a s)
    by (cbn [PyStr.lstrip_by]; now rewrite Ha).
  rewrite Hl, (take_while_id _ _ Hn), drop_all. reflexivity.
Qed.

End CharFacts.

Section DroppedConditions.

Variable strptime : string -> string -> option string.
Variable p : QueryParser.

(** X24: a WHERE condition that is a single word of letters, digits and
    underscores (no operator, no value) is dropped without a word: it adds
    nothing to the WHERE clause, raises nothing and does not touch the
    cache. *)
Theorem bare_word_condition_ignored (cond : string) (base : option string)
    (acc : conds) (c : fuzzy_cache) :
  cond <> EmptyString ->
  all_chars PyStr.is_word cond = true ->
  _process_condition strptime p cond base acc c = (Ok acc, c).
Proof.
  intros Hne Hw.
  assert (Hfind : forall sub ch, PyStr.mem_char ch sub = true ->
            PyStr.is_word ch = false -> PyStr.find sub cond = None).
  { intros sub ch Hsub Hch. apply (find_none_char ch); [exact Hsub|].
    now apply (all_chars_mem PyStr.is_word). }
  assert (Hfindl : forall sub ch, PyStr.mem_char ch sub = true ->
            PyStr.is_word ch = false -> PyStr.find sub (PyStr.lower cond) = None).
  { intros sub ch Hsub Hch. apply (find_none_char ch); [exact Hsub|].
    apply (all_chars_mem PyStr.is_word); [now apply all_chars_lower | exact Hch]. }
  unfold _process_condition, date_range, PyStr.contains.
  rewrite (Hfind ".." "."%char eq_refl eq_refl).
  rewrite (Hfindl " to " " "%char eq_refl eq_refl).
  cbn [orb]. cbv iota. unfold bind at 1. unfold ret at 1. cbv iota beta.
  rewrite (Hfindl " is not null" " "%char eq_refl eq_refl).
  rewrite (Hfindl " is null" " "%char eq_refl eq_refl).
  unfold comparison_ops, first_operator, PyStr.cut.
  rewrite (Hfind ">=" ">"%char eq_refl eq_refl).
  rewrite (Hfind "<=" "<"%char eq_refl eq_refl).
  rewrite (Hfind "!=" "!"%char eq_refl eq_refl).
  rewrite (Hfind "<>" "<"%char eq_refl eq_refl).
  rewrite (Hfind ">" ">"%char eq_refl eq_refl).
  rewrite (Hfind "<" "<"%char eq_refl eq_refl).
  rewrite (Hfind "=" "="%char eq_refl eq_refl).
  rewrite (split_ws1_word cond Hne Hw). reflexivity.
Qed.

(** X25: a condition whose value holds nothing but separators has an empty
    list of values, and on a column that resolves [_add_condition] then
    fails with [IndexError], not with the [ValueError] its callers report
    as a query error. *)
Theorem empty_value_list_raises_index_error (col_part val_part op : string)
    (base : option string) (acc : conds) (c c' : fuzzy_cache) (ci : col_info) :
  condition_values val_part = [] ->
  is_status_condition p col_part && truthy base = false ->
  find_column p col_part base c = (Ok (Some ci), c') ->
  _add_condition p col_part val_part op base acc c = (Raise IndexError, c').
Proof.
  intros Hv Hst Hfind. unfold _add_condition. rewrite Hv, Hst.
  unfold bind. rewrite Hfind. unfold add_column_condition.
  destruct (PyStr.mem (_get_column_type p (table ci) (column ci)) date_types);
    destruct (PyStr.mem (_get_column_type p (table ci) (column ci)) text_types);
    reflexivity.
Qed.

End DroppedConditions.

Lemma bare_word_condition_ignored_witness :
  _process_condition no_strptime job_parser "status" (Some "job") no_conds []
  = (Ok no_conds, []).
Proof.
  apply (bare_word_condition_ignored no_strptime job_parser "status" (Some "job")
           no_conds []).
  - discriminate.
  - vm_compute. reflexivity.
Defined.

Lemma empty_value_list_raises_index_error_witness :
  _add_condition job_parser "id" " / " "=" (Some "job") no_conds []
  = (Raise IndexError, []).
Proof.
  apply (empty_value_list_raises_index_error job_parser "id" " / " "=" (Some "job")
           no_conds [] [] (mk_col "job" "id")).
  - vm_compute. reflexivity.
  - vm_compute. reflexivity.
  - vm_compute. reflexivity.
Defined.

(* ------------------------------------------------------------------ *)
(** ** The cache stays within its bound *)

Section GrowingSteps.

Lemma cache_grows_refl (c : fuzzy_cache) : cache_grows c c.
Proof. split; auto. Qed.

Lemma cache_grows_trans (c1 c2 c3 : fuzzy_cache) :
  cache_grows c1 c2 -> cache_grows c2 c3 -> cache_grows c1 c3.
Proof. intros [H1 H2] [H3 H4]. split; auto. Qed.

Lemma growing_ret {A : Type} (a : A) : growing (ret a).
Proof. intros c. apply cache_grows_refl. Qed.

Lemma growing_raise {A : Type} (e : error) : growing (@raise A e).
Proof. intros c. apply cache_grows_refl. Qed.

Lemma growing_bind {A B : Type} (m : M A) (k : A -> M B) :
  growing m -> (forall a, growing (k a)) -> growing (bind m k).
Proof.
  intros Hm Hk c. unfold bind. specialize (Hm c).
  destruct (m c) as [[a|e] c1]; simpl in *; [|exact Hm].
  eapply cache_grows_trans; [exact Hm | apply Hk].
Qed.

Lemma growing_for_each {A S : Type} (body : S -> A -> M S) :
  (forall acc x, growing (body acc x)) ->
  forall l acc, growing (for_each body l acc).
Proof.
  intros Hb. induction l as [|x l IH]; intros acc; simpl.
  - apply growing_ret.
  - apply growing_bind; [apply Hb | exact IH].
Qed.

Lemma dict_set_length {V : Type} (k : string) (v : V) (d : list (string * V)) :
  List.length (dict_set k v d) <= S (List.length d).
Proof.
  induction d as [|[k2 v2] d IH]; simpl; [lia|].
  destruct (String.eqb k k2); simpl; lia.
Qed.

Lemma growing_fuzzy_search (p : QueryParser) (term : string) :
  growing (_fuzzy_search p term).
Proof.
  intros c. unfold _fuzzy_search.
  destruct (dict_get term c) as [r|] eqn:E; simpl; [apply cache_grows_refl|].
  destruct (Nat.ltb (List.length c) 1000) eqn:El; [|apply cache_grows_refl].
  apply Nat.ltb_lt in El. split.
  - intros _. pose proof (dict_set_length term (fuzzy_matches p term) c). lia.
  - intros k r Hk. rewrite dict_get_set_other; [exact Hk|]. congruence.
Qed.

End GrowingSteps.

Create HintDb growing discriminated.

Ltac grow :=
  repeat first
    [ apply growing_ret
    | apply growing_raise
    | apply growing_fuzzy_search
    | solve [auto 1 with growing nocore]
    | progress cbv beta zeta
    | apply growing_bind; [|intros ?]
    | apply growing_for_each; intros ? ?
    | match goal with
      | |- growing (match ?x with _ => _ end) => destruct x
      | |- growing (let (_, _) := ?x in _) => destruct x
      end ].

Lemma growing_find_column (p : QueryParser) (col_part : string)
    (prefer : option string) : growing (find_column p col_part prefer).
Proof. unfold find_column. grow. Qed.

#[global] Hint Resolve growing_find_column : growing.

Lemma growing_find_all_columns (p : QueryParser) (col_part : string) :
  growing (find_all_columns p col_part).
Proof. unfold find_all_columns. grow. Qed.

#[global] Hint Resolve growing_find_all_columns : growing.

Lemma growing_find_column_for_base (p : QueryParser) (col_part : string)
    (base : option string) : growing (find_column_for_base p col_part base).
Proof.
  unfold find_column_for_base.
  destruct (PyStr.contains "." _); [apply growing_find_column|].
  grow.
Qed.

#[global] Hint Resolve growing_find_column_for_base : growing.

Lemma growing_add_column_condition (p : QueryParser) ci values op acc :
  growing (add_column_condition p ci values op acc).
Proof. unfold add_column_condition. grow. Qed.

#[global] Hint Resolve growing_add_column_condition : growing.

Lemma growing_add_condition (p : QueryParser) col_part val_part op base acc :
  growing (_add_condition p col_part val_part op base acc).
Proof. unfold _add_condition. grow. Qed.

#[global] Hint Resolve growing_add_condition : growing.

Lemma growing_date_range (p : QueryParser)
    (strptime : string -> string -> option string) cond base acc :
  growing (date_range strptime p cond base acc).
Proof. unfold date_range. grow. Qed.

#[global] Hint Resolve growing_date_range : growing.

Lemma growing_null_test (p : QueryParser) cond idx sql base acc :
  growing (null_test p cond idx sql base acc).
Proof. unfold null_test. grow. Qed.

#[global] Hint Resolve growing_null_test : growing.

Lemma growing_process_condition (p : QueryParser)
    (strptime : string -> string -> option string) cond base acc :
  growing (_process_condition strptime p cond base acc).
Proof.
  unfold _process_condition.
  apply growing_bind; [apply growing_date_range|]. intros ranged.
  grow.
Qed.

#[global] Hint Resolve growing_process_condition : growing.

Lemma growing_select_entry (p : QueryParser)
    (set_iter : list string -> list string) st col_str :
  growing (select_entry set_iter p st col_str).
Proof. unfold select_entry. grow. Qed.

#[global] Hint Resolve growing_select_entry : growing.

Lemma growing_parse (p : QueryParser)
    (strptime : string -> string -> option string)
    (set_iter : list string -> list string) (q : string) :
  growing (parse strptime set_iter p q).
Proof. unfold parse. grow. Qed.

#[global] Hint Resolve growing_parse : growing.

Lemma growing_build_sql (p : QueryParser)
    (set_iter : list string -> list string) parsed limit dflt :
  growing (build_sql set_iter p parsed limit dflt).
Proof. unfold build_sql. grow. Qed.

#[global] Hint Resolve growing_build_sql : growing.

(** X26: a translation keeps the fuzzy-search cache within its bound and
    never evicts: whether it succeeds or raises, a cache of at most 1000
    entries still has at most 1000 entries afterwards, and every entry it
    held is still there, unchanged. *)
Theorem translate_keeps_cache_bounded (p : QueryParser)
    (strptime : string -> string -> option string)
    (set_iter : list string -> list string) (q : string) (c : fuzzy_cache) :
  (List.length c <= 1000 ->
   List.length (snd (translate strptime set_iter p q c)) <= 1000)
  /\ (forall k r, dict_get k c = Some r ->
                  dict_get k (snd (translate strptime set_iter p q c)) = Some r).
Proof.
  assert (H : growing (translate strptime set_iter p q)).
  { unfold translate. apply growing_bind; [apply growing_parse|].
    intros parsed. apply growing_build_sql. }
  exact (H c).
Qed.

(* ------------------------------------------------------------------ *)
(** ** Quoted names in the SQL text *)

Lemma identifier_no_quote (n : string) :
  PyRe.match_identifier n = true -> PyStr.contains dq n = false.
Proof.
  intros Hm. unfold dq. rewrite contains_char.
  destruct (PyStr.mem_char (ascii_of_nat 34) n) eqn:Hq; [|reflexivity].
  destruct (identifier_chars n _ Hm Hq) as [Hc|Hc]; discriminate.
Qed.

(** X27: when [build_sql] returns SQL, the names it validated cannot close
    the double quotes they are written in: the base table and the table and
    the column of every selected column contain no double quote. *)
Theorem built_sql_selected_names_are_plain (set_iter : list string -> list string)
    (p : QueryParser) (parsed : ParsedQuery) (limit : Z) (dflt : bool)
    (c c' : fuzzy_cache) (r : string * list value * list string) :
  build_sql set_iter p parsed limit dflt c = (Ok r, c') ->
  (exists base, base_table parsed = Some base /\ PyStr.contains dq base = false)
  /\ Forall (fun col => PyStr.contains dq (table col) = false
                        /\ PyStr.contains dq (column col) = false)
            (select_columns parsed).
Proof.
  intros H. apply build_sql_validates_selected in H.
  destruct H as [(base & Eb & Hb) Hcols]. split.
  - exists base. split; [exact Eb | now apply identifier_no_quote].
  - eapply Forall_impl; [|exact Hcols]. intros col [Ht Hc].
    split; now apply identifier_no_quote.
Qed.

Lemma built_sql_selected_names_are_plain_witness :
  (exists base, base_table done_parsed = Some base
                /\ PyStr.contains dq base = false)
  /\ Forall (fun col => PyStr.contains dq (table col) = false
                        /\ PyStr.contains dq (column col) = false)
            (select_columns done_parsed).
Proof.
  apply (built_sql_selected_names_are_plain insertion_order job_parser done_parsed
           1000 true [] [] (done_sql, [VStr "3"], [])).
  vm_compute. reflexivity.
Defined.

(* ------------------------------------------------------------------ *)
(** ** [parse] and [build_sql] compose *)

Section SelectedColumns.

Variable strptime : string -> string -> option string.
Variable set_iter : list string -> list string.
Variable p : QueryParser.
Variable good : col_info -> Prop.

Hypothesis map_good :
  forall k l x, In (k, l) (column_map p) -> In x l -> good x.
Hypothesis columns_good :
  forall tbl cols col, In (tbl, cols) (table_columns p) -> In col cols ->
                       good (mk_col tbl col).
Hypothesis good_aggregate :
  forall ci f, good ci ->
    good {| table := table ci; column := column ci; aggregate := Some f |}.

Lemma select_entry_good st col_str c st' c' :
  cache_ok p c /\ Forall good (snd st) ->
  select_entry set_iter p st col_str c = (Ok st', c') ->
  cache_ok p c' /\ Forall good (snd st').
Proof.
  intros [Hc Hst] H. unfold select_entry in H.
  destruct (String.eqb (PyStr.strip col_str) EmptyString).
  - apply ret_ok in H. destruct H; subst. now split.
  - destruct (split_aggregate (PyStr.strip col_str)) as [agg cs].
    apply bind_ok in H. destruct H as ([ci|] & c1 & Hfind & H).
    + apply ret_ok in H. destruct H as [<- <-]. split.
      * apply (stable_run p _ _ _ _ (stable_find_column_for_base p cs (fst st))
                 Hc Hfind).
      * simpl. apply Forall_app. split; [exact Hst|].
        constructor; [|constructor].
        pose proof (find_column_for_base_good p good map_good columns_good
                      _ _ _ _ _ Hc Hfind) as Hci.
        destruct agg as [f|]; [now apply good_aggregate | exact Hci].
    + apply bind_ok in H. destruct H as ([|m ms] & c2 & _ & H);
        now apply raise_ok in H.
Qed.

Lemma parse_selected_good (q : string) (c c' : fuzzy_cache) (pq : ParsedQuery) :
  cache_ok p c ->
  parse strptime set_iter p q c = (Ok pq, c') ->
  Forall good (select_columns pq).
Proof.
  intros Hc H. unfold parse in H.
  destruct (split_query (PyStr.strip q)) as [[primary ow]|e];
    [|now apply raise_ok in H].
  apply bind_ok in H. destruct H as (st0 & cx & H0 & H).
  assert (Hst0 : cache_ok p cx /\ Forall good (snd st0)).
  { destruct (truthy primary).
    - apply bind_ok in H0. destruct H0 as ([ci|] & ca & Hfind & H0).
      + apply ret_ok in H0. destruct H0 as [<- <-]. split.
        * apply (stable_run p _ _ _ _ (stable_find_column p _ None) Hc Hfind).
        * constructor; [|constructor].
          apply (find_column_good p good map_good columns_good _ _ _ _ _ Hc Hfind).
      + now apply raise_ok in H0.
    - apply ret_ok in H0. destruct H0 as [<- <-]. split; [exact Hc | constructor]. }
  apply bind_ok in H. destruct H as (st & cy & H1 & H).
  assert (Hst : cache_ok p cy /\ Forall good (snd st)).
  { destruct (String.eqb (ow_columns ow) EmptyString).
    - apply ret_ok in H1. destruct H1 as [<- <-]. exact Hst0.
    - eapply (for_each_invariant
                (fun st c => cache_ok p c /\ Forall good (snd st)));
        [| |exact H1].
      + intros; eapply select_entry_good; eauto.
      + exact Hst0. }
  destruct st as [bt cols]. destruct cols as [|f r]; [now apply raise_ok in H|].
  apply bind_ok in H. destruct H as (acc & cz & _ & H).
  apply ret_ok in H. destruct H as [<- _]. simpl. exact (proj2 Hst).
Qed.

End SelectedColumns.

Lemma sanitize_valid (n : string) :
  PyRe.match_identifier n = true -> sanitize_identifier (Some n) = Ok n.
Proof.
  intros H. unfold sanitize_identifier. rewrite H.
  destruct n; [discriminate | reflexivity].
Qed.

Lemma validate_selected (cols : list col_info) (c : fuzzy_cache) :
  Forall names_ok cols ->
  for_each (fun (_ : unit) col =>
    match sanitize_identifier (Some (table col)) with
    | Raise e => raise e
    | Ok _ =>
        match sanitize_identifier (Some (column col)) with
        | Raise e => raise e
        | Ok _ => ret tt
        end
    end) cols tt c = (Ok tt, c).
Proof.
  induction 1 as [|x l [Ht Hc] _ IH]; [reflexivity|].
  rewrite for_each_cons. unfold bind at 1.
  rewrite (sanitize_valid _ Ht), (sanitize_valid _ Hc). exact IH.
Qed.

Lemma fuzzy_search_returns (p : QueryParser) (term : string) (c : fuzzy_cache) :
  exists r c', _fuzzy_search p term c = (Ok r, c').
Proof.
  unfold _fuzzy_search. destruct (dict_get term c); eexists; eexists; reflexivity.
Qed.

Lemma find_column_returns (p : QueryParser) (col_part : string)
    (prefer : option string) (c : fuzzy_cache) :
  exists r c', find_column p col_part prefer c = (Ok r, c').
Proof.
  unfold find_column.
  destruct (match PyStr.cut "." _ with Some _ => _ | None => None end);
    [eexists; eexists; reflexivity|].
  match goal with
  | |- context [bind (if is_empty ?m then _ else _) _] => generalize m
  end.
  intros matches. unfold bind.
  destruct (is_empty matches).
  - destruct (fuzzy_search_returns p (PyStr.lower (PyStr.strip col_part)) c)
      as (r & c' & ->).
    destruct r as [|m [|m2 ms]]; eexists; eexists; reflexivity.
  - destruct matches as [|m [|m2 ms]]; eexists; eexists; reflexivity.
Qed.

(** X28: [build_sql] never refuses what [parse] produced: when every table
    and column of the snapshot and every alias target has a name that
    matches the identifier pattern, a query that parses is also built into
    SQL, for every limit, with and without default filters. *)
Theorem parsed_query_is_built (sc : schema) (rc : relations) (conf : config)
    (strptime : string -> string -> option string)
    (set_iter : list string -> list string) (q : string) (c c1 : fuzzy_cache)
    (pq : ParsedQuery) (limit : Z) (dflt : bool) :
  schema_names_ok sc conf ->
  cache_ok (parser_of sc rc conf) c ->
  parse strptime set_iter (parser_of sc rc conf) q c = (Ok pq, c1) ->
  exists r c2,
    build_sql set_iter (parser_of sc rc conf) pq limit dflt c1 = (Ok r, c2).
Proof.
  intros [Hsc Hal] Hc Hparse.
  assert (Hsel : Forall names_ok (select_columns pq)).
  { apply (parse_selected_good strptime set_iter (parser_of sc rc conf) names_ok)
      with (q := q) (c := c) (c' := c1); try assumption.
    - simpl. apply aliases_good.
      + apply map_tables_good; [intros k l x []|].
        intros tbl cols col Ht Hcol. exact (Hsc tbl cols col Ht Hcol).
      + exact Hal.
    - simpl. intros tbl names col Ht Hcol.
      apply table_columns_from_schema in Ht. destruct Ht as [[]|(cols & Ht & ->)].
      apply in_map_iff in Hcol. destruct Hcol as (sc0 & <- & Hcol).
      exact (Hsc tbl cols sc0 Ht Hcol).
    - intros ci f Hci. exact Hci. }
  destruct (parse_base_selected strptime set_iter _ q c c1 pq Hparse)
    as (_ & b & Hb & Hin).
  assert (Hbase : PyRe.match_identifier b = true).
  { apply in_map_iff in Hin. destruct Hin as (ci & <- & Hci).
    rewrite Forall_forall in Hsel. exact (proj1 (Hsel ci Hci)). }
  unfold build_sql. rewrite Hb, (sanitize_valid b Hbase).
  unfold bind at 1. rewrite (validate_selected _ c1 Hsel).
  destruct (select_list _ (select_columns pq) []) as [sp gb].
  destruct (default_part set_iter _ b pq dflt) as [[dw dp] da].
  unfold bind.
  destruct (truthy (order_by pq)).
  - destruct (find_column_returns (parser_of sc rc conf)
                (match order_by pq with Some o => o | None => EmptyString end)
                (Some b) c1) as (r & c2 & ->).
    eexists; eexists; reflexivity.
  - eexists; eexists; reflexivity.
Qed.

Lemma parsed_query_is_built_witness :
  exists r c2,
    build_sql insertion_order (parser_of job_schema job_relations no_config)
              done_parsed 1000 true [] = (Ok r, c2).
Proof.
  apply (parsed_query_is_built job_schema job_relations no_config no_strptime
           insertion_order done_query [] [] done_parsed 1000 true).
  - split.
    + intros tbl cols c Ht Hc. simpl in Ht.
      destruct Ht as [E|[E|[]]]; injection E as <- <-; simpl in Hc;
        repeat (destruct Hc as [<-|Hc]; [split; vm_compute; reflexivity|]);
        contradiction.
    + intros a [].
  - intros k r H. discriminate.
  - vm_compute. reflexivity.
Defined.

(* ------------------------------------------------------------------ *)
(** ** Normalised column text *)

Section Normalise.

Lemma space_lower (a : ascii) :
  PyStr.is_space (PyStr.lower_char a) = PyStr.is_space a.
Proof. destruct a as [[] [] [] [] [] [] [] []]; vm_compute; reflexivity. Qed.

Lemma lower_char_idem (a : ascii) :
  PyStr.lower_char (PyStr.lower_char a) = PyStr.lower_char a.
Proof. destruct a as [[] [] [] [] [] [] [] []]; vm_compute; reflexivity. Qed.

Lemma lower_idem (s : string) : PyStr.lower (PyStr.lower s) = PyStr.lower s.
Proof.
  induction s as [|a s IH]; [reflexivity|].
  cbn [PyStr.lower]. now rewrite lower_char_idem, IH.
Qed.

Lemma lower_lstrip (s : string) :
  PyStr.lower (PyStr.lstrip_by PyStr.is_space s)
  = PyStr.lstrip_by PyStr.is_space (PyStr.lower s).
Proof.
  induction s as [|a s IH]; [reflexivity|].
  cbn [PyStr.lstrip_by PyStr.lower]. rewrite space_lower.
  destruct (PyStr.is_space a); [exact IH | reflexivity].
Qed.

Lemma lower_append (a b : string) :
  PyStr.lower (a ++ b) = PyStr.lower a ++ PyStr.lower b.
Proof. induction a as [|x a IH]; simpl; [reflexivity | now rewrite IH]. Qed.

Lemma lower_rev (s : string) : PyStr.lower (PyStr.rev s) = PyStr.rev (PyStr.lower s).
Proof.
  induction s as [|a s IH]; [reflexivity|].
  cbn [PyStr.lower]. rewrite !rev_cons, lower_append, IH. reflexivity.
Qed.

Lemma lower_strip (s : string) :
  PyStr.lower (PyStr.strip s) = PyStr.strip (PyStr.lower s).
Proof.
  unfold PyStr.strip, PyStr.strip_by.
  now rewrite lower_rev, lower_lstrip, lower_rev, lower_lstrip.
Qed.

Lemma rev_append (a b : string) :
  PyStr.rev (a ++ b) = PyStr.rev b ++ PyStr.rev a.
Proof.
  induction a as [|x a IH].
  - simpl. symmetry. apply append_nil_r.
  - change (String x a ++ b) with (String x (a ++ b)).
    rewrite !rev_cons, IH, append_assoc. reflexivity.
Qed.

Lemma rev_involutive (s : string) : PyStr.rev (PyStr.rev s) = s.
Proof.
  induction s as [|a s IH]; [reflexivity|].
  rewrite rev_cons, rev_append, IH. reflexivity.
Qed.

Lemma lstrip_idem (f : ascii -> bool) (s : string) :
  PyStr.lstrip_by f (PyStr.lstrip_by f s) = PyStr.lstrip_by f s.
Proof.
  induction s as [|a s IH]; [reflexivity|].
  cbn [PyStr.lstrip_by]. destruct (f a) eqn:E; [exact IH|].
  cbn [PyStr.lstrip_by]. now rewrite E.
Qed.

Lemma lstrip_suffix (f : ascii -> bool) (s : string) :
  exists pre, s = pre ++ PyStr.lstrip_by f s.
Proof.
  induction s as [|a s [pre IH]]; [now exists EmptyString|].
  cbn [PyStr.lstrip_by]. destruct (f a).
  - exists (String a pre). simpl. now rewrite <- IH.
  - now exists EmptyString.
Qed.

Lemma lstrip_length (f : ascii -> bool) (s : string) :
  String.length (PyStr.lstrip_by f s) <= String.length s.
Proof.
  induction s as [|a s IH]; [simpl; lia|].
  cbn [PyStr.lstrip_by]. destruct (f a); simpl; lia.
Qed.

Lemma lstrip_fixed_head (f : ascii -> bool) (a : ascii) (s : string) :
  PyStr.lstrip_by f (String a s) = String a s -> f a = false.
Proof.
  cbn [PyStr.lstrip_by]. destruct (f a); [|reflexivity].
  intros H. pose proof (lstrip_length f s) as L. rewrite H in L.
  simpl in L. lia.
Qed.

(** Text that starts with no space ends with no space once reversed and
    stripped on the left. *)
Lemma lstrip_rev_fixed (f : ascii -> bool) (u : string) :
  PyStr.lstrip_by f u = u ->
  PyStr.lstrip_by f (PyStr.rev (PyStr.lstrip_by f (PyStr.rev u)))
  = PyStr.rev (PyStr.lstrip_by f (PyStr.rev u)).
Proof.
  intros Hu. destruct (lstrip_suffix f (PyStr.rev u)) as [pre Hpre].
  set (w := PyStr.lstrip_by f (PyStr.rev u)) in *.
  assert (E : u = PyStr.rev w ++ PyStr.rev pre).
  { rewrite <- rev_append, <- Hpre. symmetry. apply rev_involutive. }
  destruct (PyStr.rev w) as [|a r]; [reflexivity|].
  simpl in E. rewrite E in Hu. apply lstrip_fixed_head in Hu.
  cbn [PyStr.lstrip_by]. now rewrite Hu.
Qed.

Lemma strip_idem (s : string) : PyStr.strip (PyStr.strip s) = PyStr.strip s.
Proof.
  unfold PyStr.strip, PyStr.strip_by.
  rewrite (lstrip_rev_fixed _ _ (lstrip_idem _ s)).
  rewrite rev_involutive, lstrip_idem. reflexivity.
Qed.

(** [strip().lower()] applied twice is [strip().lower()]. *)
Lemma normalise_idem (s : string) :
  PyStr.lower (PyStr.strip (PyStr.lower (PyStr.strip s)))
  = PyStr.lower (PyStr.strip s).
Proof. now rewrite <- lower_strip, strip_idem, lower_idem. Qed.

End Normalise.

(* ------------------------------------------------------------------ *)
(** ** Select entries that do not resolve *)

Section Unresolved.

Variable set_iter : list string -> list string.
Variable p : QueryParser.

Lemma is_empty_nil {A : Type} (l : list A) : is_empty l = true -> l = [].
Proof. destruct l; [reflexivity | discriminate]. Qed.

(** The last step of both resolvers: when it answers [None], there were no
    candidates and the fuzzy search found none. *)
Lemma no_candidates {B : Type} (matches : list col_info) (term : string)
    (k : list col_info -> M (option B)) (c c1 : fuzzy_cache) :
  cache_ok p c ->
  (forall ms cx cy, ms <> [] -> k ms cx <> (Ok None, cy)) ->
  bind (if is_empty matches then _fuzzy_search p term else ret matches) k c
    = (Ok None, c1) ->
  matches = [] /\ fuzzy_matches p term = [].
Proof.
  intros Hc Hk H. apply bind_ok in H. destruct H as (ms & cx & Hm & H).
  assert (Hms : ms = []).
  { destruct ms as [|m ms]; [reflexivity|].
    exfalso. apply (Hk (m :: ms) cx c1); [discriminate | exact H]. }
  subst ms. destruct (is_empty matches) eqn:Ee.
  - split; [now apply is_empty_nil|].
    symmetry. exact (fuzzy_search_result p term c cx [] Hc Hm).
  - apply ret_ok in Hm. destruct Hm as [-> _]. discriminate.
Qed.

(** The exact candidates: none under the name and none under the name with
    spaces for underscores. *)
Lemma no_exact_matches (key : string) (other : list col_info) :
  (if is_empty
        (if is_empty (_get_matches p key)
         then if negb (String.eqb (PyStr.replace "_" " " key) key)
              then _get_matches p (PyStr.replace "_" " " key)
              else _get_matches p key
         else _get_matches p key)
   then other
   else if is_empty (_get_matches p key)
        then if negb (String.eqb (PyStr.replace "_" " " key) key)
             then _get_matches p (PyStr.replace "_" " " key)
             else _get_matches p key
        else _get_matches p key) = [] ->
  _get_matches p key = [] /\ _get_matches p (PyStr.replace "_" " " key) = [].
Proof.
  destruct (_get_matches p key) as [|m ms] eqn:G0.
  - cbn [is_empty].
    destruct (String.eqb (PyStr.replace "_" " " key) key) eqn:Es; cbn [negb].
    + apply String.eqb_eq in Es. rewrite Es, G0. now split.
    + destruct (_get_matches p (PyStr.replace "_" " " key)) as [|m ms];
        cbn [is_empty]; [now split | discriminate].
  - cbn [is_empty]. discriminate.
Qed.

Lemma find_column_none (col_part : string) (prefer : option string)
    (c c1 : fuzzy_cache) :
  cache_ok p c ->
  find_column p col_part prefer c = (Ok None, c1) ->
  _get_matches p (PyStr.lower (PyStr.strip col_part)) = []
  /\ _get_matches p (PyStr.replace "_" " " (PyStr.lower (PyStr.strip col_part))) = []
  /\ fuzzy_matches p (PyStr.lower (PyStr.strip col_part)) = [].
Proof.
  intros Hc H. unfold find_column in H.
  set (key := PyStr.lower (PyStr.strip col_part)) in *.
  destruct (match PyStr.cut "." key with
            | Some (table_hint, col_name) => find_qualified p table_hint col_name
            | None => None
            end) as [q|].
  - apply ret_ok in H. destruct H; discriminate.
  - apply no_candidates in H; [|exact Hc|].
    + destruct H as [Hm Hf]. apply no_exact_matches in Hm. tauto.
    + intros ms cx cy Hne E. destruct ms as [|m [|m2 ms]]; [now apply Hne| |].
      * apply ret_ok in E. destruct E; discriminate.
      * apply ret_ok in E. destruct E as [E _].
        destruct (best_match_some p (m :: m2 :: ms) key prefer) as [b Hb];
          [discriminate|]. congruence.
Qed.

Lemma find_column_for_base_none (col_part : string) (base : option string)
    (c c1 : fuzzy_cache) :
  cache_ok p c ->
  find_column_for_base p col_part base c = (Ok None, c1) ->
  _get_matches p (PyStr.lower (PyStr.strip col_part)) = []
  /\ _get_matches p (PyStr.replace "_" " " (PyStr.lower (PyStr.strip col_part))) = []
  /\ fuzzy_matches p (PyStr.lower (PyStr.strip col_part)) = [].
Proof.
  intros Hc H. unfold find_column_for_base in H.
  set (key := PyStr.lower (PyStr.strip col_part)) in *.
  destruct (PyStr.contains "." key).
  - apply find_column_none in H; [|exact Hc].
    unfold key in H. rewrite normalise_idem in H. exact H.
  - apply no_candidates in H; [|exact Hc|].
    + destruct H as [Hm Hf]. apply no_exact_matches in Hm. tauto.
    + intros ms cx cy Hne E. destruct ms as [|m [|m2 ms]]; [now apply Hne| |].
      * apply ret_ok in E. destruct E; discriminate.
      * match type of E with
        | match ?b with _ => _ end _ = _ => destruct b
        end.
        -- apply ret_ok in E. destruct E; discriminate.
        -- apply ret_ok in E. destruct E as [E _].
           destruct (best_match_some p (m :: m2 :: ms) key base) as [b Hb];
             [discriminate|]. congruence.
Qed.

Lemma find_column_for_base_returns (col_part : string) (base : option string)
    (c : fuzzy_cache) :
  exists r c', find_column_for_base p col_part base c = (Ok r, c').
Proof.
  unfold find_column_for_base.
  destruct (PyStr.contains "." _); [apply find_column_returns|].
  match goal with
  | |- context [bind (if is_empty ?m then _ else _) _] => generalize m
  end.
  intros matches. unfold bind.
  assert (Hk : forall ms cx,
    exists r c',
      match ms with
      | [] => ret None
      | [m] => ret (Some m)
      | _ :: _ :: _ =>
          match
            match base with
            | Some bt =>
                if String.eqb bt ""
                then None
                else
                 match List.find (fun m => String.eqb (table m) bt) ms with
                 | Some m => Some m
                 | None =>
                     match
                       List.find
                         (fun m => dict_has (table m) (get_related_tables p bt)) ms
                     with
                     | Some m => Some m
                     | None =>
                         List.find
                           (fun m =>
                            match find_join_path p bt (table m) with
                            | Some _ => true
                            | None => false
                            end) ms
                     end
                 end
            | None => None
            end
          with
          | Some m => ret (Some m)
          | None =>
              ret (_select_best_match p ms
                     (PyStr.lower (PyStr.strip col_part)) base)
          end
      end cx = (Ok r, c')).
  { intros ms cx. destruct ms as [|m [|m2 ms]];
      [eexists; eexists; reflexivity | eexists; eexists; reflexivity |].
    match goal with
    | |- exists r c', match ?b with _ => _ end _ = _ => destruct b
    end; eexists; eexists; reflexivity. }
  destruct (is_empty matches).
  - destruct (fuzzy_search_returns p (PyStr.lower (PyStr.strip col_part)) c)
      as (r & c' & ->).
    apply Hk.
  - apply Hk.
Qed.

(** When a select entry does not resolve, [find_all_columns] finds nothing
    either. *)
Lemma unresolved_has_no_match (col_part : string) (base : option string)
    (c c1 : fuzzy_cache) :
  cache_ok p c ->
  find_column_for_base p col_part base c = (Ok None, c1) ->
  exists c2, find_all_columns p col_part c1 = (Ok [], c2).
Proof.
  intros Hc H.
  pose proof (stable_run p _ _ _ _ (stable_find_column_for_base p col_part base)
                Hc H) as Hc1.
  destruct (find_column_for_base_none _ _ _ _ Hc H) as (G0 & G1 & Gf).
  unfold find_all_columns. rewrite G0. cbn [is_empty]. rewrite G1.
  cbn [is_empty].
  destruct (_fuzzy_search p (PyStr.lower (PyStr.strip col_part)) c1)
    as [r c2] eqn:Ef.
  destruct (fuzzy_search_returns p (PyStr.lower (PyStr.strip col_part)) c1)
    as (r' & c2' & Ef').
  rewrite Ef in Ef'. injection Ef' as -> ->.
  apply (fuzzy_search_result p _ _ _ _ Hc1) in Ef. rewrite Gf in Ef. subst r'.
  now exists c2'.
Qed.

(** X29: the ambiguity error of the select list is never raised: from a
    well-formed cache, whenever a select entry fails, it fails with the
    [ValueError] that says the column was not found; when the resolver
    finds no column, [find_all_columns] finds none either. *)
Theorem select_entry_error_is_not_found (st : option string * list col_info)
    (col_str : string) (c c' : fuzzy_cache) (e : error) :
  cache_ok p c ->
  select_entry set_iter p st col_str c = (Raise e, c') ->
  exists name, e = ValueError ("Kolom '" ++ name ++ "' tidak ditemukan").
Proof.
  intros Hc H. unfold select_entry in H.
  destruct (String.eqb (PyStr.strip col_str) EmptyString); [discriminate|].
  destruct (split_aggregate (PyStr.strip col_str)) as [agg cs].
  unfold bind in H.
  destruct (find_column_for_base_returns cs (fst st) c) as (r & c1 & E).
  rewrite E in H. destruct r as [ci|]; [discriminate|].
  destruct (unresolved_has_no_match cs (fst st) c c1 Hc E) as (c2 & E2).
  rewrite E2 in H. unfold raise in H. injection H as <- _.
  now exists cs.
Qed.

End Unresolved.

Lemma select_entry_error_is_not_found_witness :
  exists name, ValueError "Kolom 'salary' tidak ditemukan"
               = ValueError ("Kolom '" ++ name ++ "' tidak ditemukan").
Proof.
  apply (select_entry_error_is_not_found insertion_order job_parser (Some "job", [])
           " salary " [] [("salary", [])]).
  - intros k r H. discriminate.
  - vm_compute. reflexivity.
Defined.

(* ------------------------------------------------------------------ *)
(** ** GROUP BY *)

(** X30: the GROUP BY list of [build_sql], which runs this loop with
    [has_aggregate] set when some selected column is aggregated and with no
    alias in use: with the flag set the list holds exactly the selected
    columns that are not aggregated, in the order of the select list,
    whatever aliases are given; without it the list is empty.  The select
    list has one expression per selected column. *)
Theorem group_by_lists_plain_columns (has_aggregate : bool)
    (cols : list col_info) (used : list string) :
  snd (select_list has_aggregate cols used)
  = (if has_aggregate
     then map (fun c => col_ref (table c) (column c))
              (filter (fun c => negb (truthy (aggregate c))) cols)
     else [])
  /\ List.length (fst (select_list has_aggregate cols used)) = List.length cols.
Proof.
  revert used. induction cols as [|c cols IH]; intros used.
  - simpl. destruct has_aggregate; now split.
  - cbn [select_list].
    destruct (IH (set_add (_build_column_alias (table c) (column c) used) used))
      as [IH1 IH2].
    destruct (select_list has_aggregate cols _) as [parts groups].
    simpl in IH1, IH2. cbn [filter].
    destruct (truthy (aggregate c)); cbn [negb fst snd List.length map].
    + split; [exact IH1 | now rewrite IH2].
    + split; [|now rewrite IH2].
      destruct has_aggregate; [now rewrite IH1 | exact IH1].
Qed.

(* ------------------------------------------------------------------ *)
(** ** What the conditions bind *)

Section Binding.

Variable p : QueryParser.
Variable strptime : string -> string -> option string.
Variable set_iter : list string -> list string.

(** From a well-formed cache the resolver finds the same column as from
    the empty one. *)
Lemma resolved_run (col_part : string) (base : option string)
    (c c' : fuzzy_cache) (r : option col_info) :
  cache_ok p c -> find_column p col_part base c = (Ok r, c') ->
  resolved p col_part base = r.
Proof.
  intros Hc H. destruct (stable_find_column p col_part base) as [a Ha].
  destruct (Ha c Hc) as [E1 _]. destruct (Ha [] (cache_ok_empty p)) as [E2 _].
  unfold resolved. rewrite E2, <- E1, H. reflexivity.
Qed.

Lemma resolved_known (col_part : string) (base : option string) (ci : col_info) :
  resolved p col_part base = Some ci -> known_column p (table ci) (column ci).
Proof.
  unfold resolved.
  destruct (find_column p col_part base []) as [[r|e] c'] eqn:E; simpl;
    [|discriminate].
  intros ->. eapply find_column_known; [apply cache_ok_empty | exact E].
Qed.

Lemma appends_none (acc : conds) : appends acc acc [].
Proof. split; simpl; now rewrite app_nil_r. Qed.

Lemma appends_one (acc : conds) (f : fragment) (w0 : list string)
    (ps0 : list value) (w : string) (ps : list value) (tables : list string) :
  w0 = c_where acc -> ps0 = c_params acc -> w = render (fst f) -> ps = snd f ->
  appends acc {| c_where := List.app w0 [w]; c_params := List.app ps0 ps;
                 c_tables := tables |} [f].
Proof.
  intros -> -> -> ->. split; simpl; [reflexivity | now rewrite app_nil_r].
Qed.

Lemma appends_trans (a b c : conds) (f1 f2 : list fragment) :
  appends a b f1 -> appends b c f2 -> appends a c (f1 ++ f2)%list.
Proof.
  intros [W1 P1] [W2 P2]. split.
  - now rewrite W2, W1, fragment_texts_app, app_assoc.
  - now rewrite P2, P1, fragment_params_app, app_assoc.
Qed.

(** The fragment of a resolved column. *)
Lemma add_column_condition_fragment (ci : col_info) (values : list string)
    (op : string) (acc acc' : conds) (c c' : fuzzy_cache) :
  add_column_condition p ci values op acc c = (Ok acc', c') ->
  exists f, column_fragment p ci op values = Ok f /\ appends acc acc' [f].
Proof.
  intros H. unfold add_column_condition in H. unfold column_fragment.
  cbv zeta beta in *.
  destruct (PyStr.mem (_get_column_type p (table ci) (column ci)) date_types);
    cbn [andb].
  - destruct (match values with [v] => PyStr.mem v status_values | _ => false end).
    + destruct (List.find _ _) as [bool_col|];
        apply ret_ok in H; destruct H as [<- _]; eexists;
        (split; [reflexivity | apply appends_one; reflexivity]).
    + destruct (match values with [v] => PyStr.mem v empty_values | _ => false end).
      * apply ret_ok in H. destruct H as [<- _]. eexists.
        split; [reflexivity | apply appends_one; reflexivity].
      * destruct (PyStr.mem _ text_types); destruct values as [|v [|v2 vs]];
          try (now apply raise_ok in H);
          apply ret_ok in H; destruct H as [<- _]; eexists;
          (split; [reflexivity | apply appends_one; try reflexivity]);
          cbn [fst render List.length];
          now rewrite (map_const_repeat _ (v :: v2 :: vs)).
  - destruct (PyStr.mem _ text_types); destruct values as [|v [|v2 vs]];
      try (now apply raise_ok in H);
      apply ret_ok in H; destruct H as [<- _]; eexists;
      (split; [reflexivity | apply appends_one; try reflexivity]);
      cbn [fst render List.length];
      now rewrite (map_const_repeat _ (v :: v2 :: vs)).
Qed.

Lemma add_condition_fragment (col_part val_part op : string)
    (base : option string) (acc acc' : conds) (c c' : fuzzy_cache) :
  cache_ok p c ->
  _add_condition p col_part val_part op base acc c = (Ok acc', c') ->
  exists o, sides_fragment p base op col_part val_part = Ok o
            /\ appends acc acc' (bound_fragments [o]).
Proof.
  intros Hc H. unfold _add_condition in H. unfold sides_fragment.
  cbv zeta in *.
  destruct (is_status_condition p col_part && truthy base).
  - destruct (find_boolean_column_for_status _ _ _) as [results|];
      [|now apply raise_ok in H].
    apply ret_ok in H. destruct H as [<- _]. eexists. split; [reflexivity|].
    apply appends_one; try reflexivity.
    cbn [fst render]. now rewrite map_map.
  - apply bind_ok in H. destruct H as (r & c1 & Hf & H).
    rewrite (resolved_run _ _ _ _ _ Hc Hf). destruct r as [ci|].
    + apply add_column_condition_fragment in H. destruct H as (f & -> & Ha).
      now exists (Some f).
    + apply ret_ok in H. destruct H as [<- _]. exists None.
      split; [reflexivity | apply appends_none].
Qed.

Lemma date_range_fragment (cond : string) (base : option string)
    (acc : conds) (r : option conds) (c c' : fuzzy_cache) :
  cache_ok p c ->
  date_range strptime p cond base acc c = (Ok r, c') ->
  match r with
  | Some acc' => exists f, range_fragment strptime p base cond = Some f
                           /\ appends acc acc' [f]
  | None => range_fragment strptime p base cond = None
  end.
Proof.
  intros Hc H. unfold date_range in H. unfold range_fragment, range_sides.
  destruct (PyStr.contains ".." cond || PyStr.contains " to " (PyStr.lower cond));
    [|apply ret_ok in H; destruct H as [<- _]; reflexivity].
  destruct (PyStr.cut "=" cond) as [[lhs rhs]|];
    [|apply ret_ok in H; destruct H as [<- _]; reflexivity].
  cbv zeta in H.
  destruct (match PyStr.cut ".." (PyStr.strip rhs) with
            | Some (d1, d2) => [d1; d2]
            | None => PyRe.split_to (PyStr.strip rhs)
            end) as [|d1 [|d2 [|d3 ds]]];
    try (apply ret_ok in H; destruct H as [<- _]; reflexivity).
  apply bind_ok in H. destruct H as (ro & c1 & Hf & H).
  rewrite (resolved_run _ _ _ _ _ Hc Hf). destruct ro as [ci|];
    apply ret_ok in H; destruct H as [<- _]; [|reflexivity].
  eexists. split; [reflexivity | apply appends_one; reflexivity].
Qed.

Lemma null_test_fragment (cond : string) (idx : nat) (negated : bool)
    (base : option string) (acc acc' : conds) (c c' : fuzzy_cache) :
  cache_ok p c ->
  null_test p cond idx (if negated then " IS NOT NULL" else " IS NULL")
            base acc c = (Ok acc', c') ->
  appends acc acc'
    (bound_fragments [null_fragment p base (PyStr.strip (PyStr.take idx cond))
                                    negated]).
Proof.
  intros Hc H. unfold null_test in H. unfold null_fragment.
  apply bind_ok in H. destruct H as (ro & c1 & Hf & H).
  rewrite (resolved_run _ _ _ _ _ Hc Hf). destruct ro as [ci|];
    apply ret_ok in H; destruct H as [<- _]; [|apply appends_none].
  split; simpl; [now destruct negated | now rewrite app_nil_r].
Qed.

(** One condition appends the fragment it stands for, with the parameters
    of that fragment, or nothing. *)
Lemma process_condition_fragment (cond : string) (base : option string)
    (acc acc' : conds) (c c' : fuzzy_cache) :
  cache_ok p c ->
  _process_condition strptime p cond base acc c = (Ok acc', c') ->
  exists o, condition_fragment strptime p base cond = Ok o
            /\ appends acc acc' (bound_fragments [o]).
Proof.
  intros Hc H. unfold _process_condition in H. unfold condition_fragment.
  cbv zeta in H.
  apply bind_ok in H. destruct H as (ranged & c1 & Hr & H).
  assert (Hc1 : cache_ok p c1)
    by (eapply stable_run; [apply stable_date_range | exact Hc | exact Hr]).
  apply (date_range_fragment _ _ _ _ _ _ Hc) in Hr.
  destruct ranged as [r|].
  - destruct Hr as (f & -> & Ha). apply ret_ok in H. destruct H as [<- _].
    now exists (Some f).
  - rewrite Hr. unfold null_sides, condition_sides.
    destruct (PyStr.find " is not null" (PyStr.lower cond)) as [idx|].
    { eexists. split; [reflexivity|].
      now apply (null_test_fragment cond idx true base acc acc' c1 c'). }
    destruct (PyStr.find " is null" (PyStr.lower cond)) as [idx|].
    { eexists. split; [reflexivity|].
      now apply (null_test_fragment cond idx false base acc acc' c1 c'). }
    destruct (first_operator comparison_ops cond) as [[[op lhs] rhs]|].
    { now apply add_condition_fragment in H. }
    destruct (PyStr.split_ws1 cond) as [|a [|b [|x l]]];
      try (apply ret_ok in H; destruct H as [<- _]; exists None;
           split; [reflexivity | apply appends_none]).
    now apply add_condition_fragment in H.
Qed.

(** The loop over the pieces of the WHERE clause. *)
Lemma conditions_loop (base : option string) (l : list string) :
  forall acc c acc' c',
    cache_ok p c ->
    for_each (fun acc cond0 =>
                if String.eqb (PyStr.strip cond0) EmptyString then ret acc
                else _process_condition strptime p (PyStr.strip cond0) base acc)
             l acc c = (Ok acc', c') ->
    exists outcomes,
      map (condition_fragment strptime p base)
          (filter (fun cond => negb (String.eqb cond EmptyString))
                  (map PyStr.strip l))
      = map Ok outcomes
      /\ appends acc acc' (bound_fragments outcomes).
Proof.
  induction l as [|x l IH]; intros acc c acc' c' Hc H.
  - apply ret_ok in H. destruct H as [<- _]. exists [].
    split; [reflexivity | apply appends_none].
  - rewrite for_each_cons in H.
    apply bind_ok in H. destruct H as (acc1 & c1 & H1 & H).
    cbn [map filter].
    destruct (String.eqb (PyStr.strip x) EmptyString) eqn:Ex; cbn [negb].
    + apply ret_ok in H1. destruct H1 as [<- <-]. exact (IH _ _ _ _ Hc H).
    + assert (Hc1 : cache_ok p c1)
        by (eapply stable_run; [apply stable_process_condition | exact Hc | exact H1]).
      apply (process_condition_fragment _ _ _ _ _ _ Hc) in H1.
      destruct H1 as (o & Eo & Ha).
      destruct (IH _ _ _ _ Hc1 H) as (os & Eos & Has).
      exists (o :: os). cbn [map]. rewrite Eo, Eos. split; [reflexivity|].
      replace (bound_fragments (o :: os))
        with (bound_fragments [o] ++ bound_fragments os)%list
        by (unfold bound_fragments; simpl; now rewrite app_nil_r).
      eapply appends_trans; eauto.
Qed.

Lemma split_empty : PyRe.split_and_or_comma EmptyString = [EmptyString].
Proof. reflexivity. Qed.

(** The fragments of a parsed query are those of its conditions. *)
Lemma parse_conditions (q : string) (c0 c1 : fuzzy_cache) (pq : ParsedQuery) :
  cache_ok p c0 ->
  parse strptime set_iter p q c0 = (Ok pq, c1) ->
  exists outcomes,
    map (condition_fragment strptime p (base_table pq)) (where_conditions q)
    = map Ok outcomes
    /\ where_parts pq = fragment_texts (bound_fragments outcomes)
    /\ params pq = fragment_params (bound_fragments outcomes).
Proof.
  intros Hc H. unfold parse in H. unfold where_conditions.
  destruct (split_query (PyStr.strip q)) as [[primary ow]|e];
    [|now apply raise_ok in H].
  apply bind_ok in H. destruct H as (st0 & ca & Ha & H).
  assert (Hca : cache_ok p ca).
  { eapply stable_run; [|exact Hc|exact Ha]. stabilise. }
  apply bind_ok in H. destruct H as (st & cb & Hb & H).
  assert (Hcb : cache_ok p cb).
  { eapply stable_run; [|exact Hca|exact Hb]. stabilise. }
  destruct st as [bt cols]. destruct cols as [|col cols];
    [now apply raise_ok in H|].
  apply bind_ok in H. destruct H as (acc & cc & Hcond & H).
  apply ret_ok in H. destruct H as [<- _].
  cbn [base_table where_parts params].
  destruct (ow_conditions ow) as [conditions_part|].
  - destruct (String.eqb conditions_part EmptyString) eqn:Ee.
    + apply String.eqb_eq in Ee. subst conditions_part.
      apply ret_ok in Hcond. destruct Hcond as [<- _]. exists [].
      repeat split; reflexivity.
    + apply (conditions_loop _ _ _ _ _ _ Hcb) in Hcond.
      destruct Hcond as (os & Eos & [Hw Hp]). exists os.
      split; [exact Eos|]. now split.
  - apply ret_ok in Hcond. destruct Hcond as [<- _]. exists [].
    repeat split; reflexivity.
Qed.

Lemma column_fragment_ok (ci : col_info) (op : string) (values : list string)
    (f : fragment) :
  known_column p (table ci) (column ci) -> In op comparison_ops ->
  column_fragment p ci op values = Ok f -> fragment_ok p f.
Proof.
  intros Hk Hop. unfold column_fragment. cbv zeta.
  destruct (PyStr.mem _ date_types && _).
  { destruct (List.find _ _) as [bool_col|] eqn:Ef; intros H; injection H as <-.
    - apply find_some in Ef. destruct Ef as [_ Ef].
      split; [|reflexivity]. constructor; [|constructor]. right. right. now left.
    - now split. }
  destruct (PyStr.mem _ date_types && _).
  { intros H. injection H as <-. now split. }
  destruct values as [|v [|v2 vs]]; [discriminate | |];
    destruct (PyStr.mem _ text_types); intros H; injection H as <-;
    (split; [|cbn [fst snd arity List.length]; now rewrite ?length_map]);
    cbn [fst template_ok]; try exact Hk.
  split; [exact Hk | now left].
Qed.

Lemma condition_sides_op (cond op col_part val_part : string) :
  condition_sides cond = Some (op, col_part, val_part) -> In op comparison_ops.
Proof.
  unfold condition_sides.
  destruct (first_operator comparison_ops cond) as [[[o lhs] rhs]|] eqn:Eo.
  - intros H. injection H as <- _ _. eapply first_operator_In; eauto.
  - destruct (PyStr.split_ws1 cond) as [|a [|b [|x l]]]; try discriminate.
    intros H. injection H as <- _ _. simpl. tauto.
Qed.

(** The fragment of a condition is a template over known columns with as
    many placeholders as it binds parameters. *)
Lemma condition_fragment_ok (base : option string) (cond : string) (f : fragment) :
  condition_fragment strptime p base cond = Ok (Some f) -> fragment_ok p f.
Proof.
  unfold condition_fragment.
  destruct (range_fragment strptime p base cond) as [fr|] eqn:Er.
  { intros H. injection H as <-. unfold range_fragment in Er.
    destruct (range_sides cond) as [[[col_part d1] d2]|]; [|discriminate].
    destruct (resolved p col_part base) as [ci|] eqn:Eres; [|discriminate].
    injection Er as <-. split; [|reflexivity].
    exact (resolved_known _ _ _ Eres). }
  destruct (null_sides cond) as [[col_part negated]|].
  { intros H. injection H as H. unfold null_fragment in H.
    destruct (resolved p col_part base) as [ci|] eqn:Eres; [|discriminate].
    injection H as <-. apply resolved_known in Eres.
    destruct negated; now split. }
  destruct (condition_sides cond) as [[[op col_part] val_part]|] eqn:Es;
    [|discriminate].
  apply condition_sides_op in Es. unfold sides_fragment. cbv zeta.
  destruct (is_status_condition p col_part && truthy base).
  - destruct (find_boolean_column_for_status _ _ _) as [results|] eqn:Eb;
      [|discriminate].
    intros H. injection H as <-. split.
    + cbn [fst template_ok]. apply Forall_map.
      exact (find_boolean_known _ _ _ _ Eb).
    + cbn [fst snd arity]. now rewrite !length_map.
  - destruct (resolved p col_part base) as [ci|] eqn:Eres; [|discriminate].
    destruct (column_fragment p ci op (condition_values val_part)) as [f0|e] eqn:Ef;
      [|discriminate].
    intros H. injection H as <-.
    eapply column_fragment_ok; [exact (resolved_known _ _ _ Eres) | exact Es | exact Ef].
Qed.

Lemma bound_fragments_ok (base : option string) (conds : list string) :
  forall outcomes,
    map (condition_fragment strptime p base) conds = map Ok outcomes ->
    Forall (fragment_ok p) (bound_fragments outcomes).
Proof.
  induction conds as [|cond conds IH]; intros [|o os] H; try discriminate.
  - constructor.
  - cbn [map] in H. injection H as Ho Hos.
    unfold bound_fragments. cbn [flat_map]. apply Forall_app. split.
    + destruct o as [f|]; [|constructor].
      constructor; [|constructor]. eapply condition_fragment_ok; eauto.
    + now apply IH.
Qed.

Lemma default_fragment_texts (fl : list (string * default_filter)) :
  fragment_texts (map default_fragment fl) = map filter_clause fl.
Proof. unfold fragment_texts. rewrite map_map. reflexivity. Qed.

Lemma default_fragment_params (fl : list (string * default_filter)) :
  fragment_params (map default_fragment fl)
  = map (fun tf => flt_value (snd tf)) fl.
Proof.
  unfold fragment_params. induction fl as [|tf fl IH]; [reflexivity|].
  simpl. now rewrite IH.
Qed.

Lemma default_fragment_ok (tf : string * default_filter) :
  (exists flts, dict_get (fst tf) (default_filters (cfg p)) = Some flts
                /\ In (snd tf) flts) ->
  fragment_ok p (default_fragment tf).
Proof.
  intros (flts & Hg & Hin). split; [|reflexivity]. simpl. split.
  - right. right. right. exists flts, (snd tf). auto.
  - destruct (flt_op (snd tf)) as [o|] eqn:Eo.
    + right. exists (fst tf), flts, (snd tf). auto.
    + left. simpl. tauto.
Qed.

(** C1 (amended): the SQL text is assembled from identifiers, templates
    and the limit; what a condition compares with is bound.  Every
    condition of the WHERE clause yields the fragment that
    [condition_fragment] describes, or is dropped: a date range binds its
    two dates, a comparison binds each of its values (wrapped in [%] on a
    text column), a status condition binds the booleans its words stand
    for; a null test, and a status or emptiness word on a date column, bind
    no value; a condition whose column does not resolve leaves no trace.
    The default filters add one fragment for each applied filter, bound to
    its configured value.  The parameter list is the list of the
    parameters of these fragments, in their order, and the text holds one
    placeholder for each of them.  Apart from the fragments the text is
    made of the selected columns, which are known columns, the joins of
    their tables, the ORDER BY column, which is a known column, the
    direction [ASC] or [DESC], and the limit. *)
Theorem where_values_are_bound (q : string) (limit : Z) (dflt : bool)
    (c0 c1 c2 : fuzzy_cache) (pq : ParsedQuery) (sql : string)
    (ps : list value) (applied : list string) :
  cache_ok p c0 ->
  parse strptime set_iter p q c0 = (Ok pq, c1) ->
  build_sql set_iter p pq limit dflt c1 = (Ok (sql, ps, applied), c2) ->
  exists (outcomes : list (option fragment))
         (fl : list (string * default_filter)) (base : string),
    map (condition_fragment strptime p (base_table pq)) (where_conditions q)
      = map Ok outcomes
    /\ Forall (fun tf => exists flts,
                 dict_get (fst tf) (default_filters (cfg p)) = Some flts
                 /\ In (snd tf) flts) fl
    /\ NoDup (map filter_key fl)
    /\ Forall (fragment_ok p)
              (bound_fragments outcomes ++ map default_fragment fl)
    /\ ps = fragment_params (bound_fragments outcomes ++ map default_fragment fl)
    /\ base_table pq = Some base
    /\ In base (map table (select_columns pq))
    /\ all_known p (select_columns pq)
    /\ (order_dir pq = "ASC" \/ order_dir pq = "DESC")
    /\ (forall ci, order_column p pq = Some ci ->
                   known_column p (table ci) (column ci))
    /\ sql = sql_text
               (fst (select_list
                       (existsb (fun c => truthy (aggregate c)) (select_columns pq))
                       (select_columns pq) []))
               base
               (_build_joins set_iter p base (tables_needed_of set_iter pq))
               (fragment_texts
                  (bound_fragments outcomes ++ map default_fragment fl))
               (snd (select_list
                       (existsb (fun c => truthy (aggregate c)) (select_columns pq))
                       (select_columns pq) []))
               (order_column p pq) (order_dir pq) limit.
Proof.
  intros Hc Hparse H.
  assert (Hc1 : cache_ok p c1)
    by (eapply stable_run; [apply stable_parse | exact Hc | exact Hparse]).
  destruct (parse_conditions q c0 c1 pq Hc Hparse) as (os & Hos & Hw & Hp).
  destruct (parse_base_selected strptime set_iter p q c0 c1 pq Hparse)
    as (_ & b & Hb & Hbin).
  pose proof (parse_order_dir strptime set_iter p q c0 c1 pq Hparse) as Hdir.
  assert (Hsel : all_known p (select_columns pq)).
  { unfold all_known.
    apply (Forall_forall (fun ci => known_column p (table ci) (column ci))).
    apply (parse_selected_good strptime set_iter p
             (fun ci => known_column p (table ci) (column ci)))
      with (q := q) (c := c0) (c' := c1); auto.
    - intros k l x Hkl Hx. left. exists x. split; [|split; reflexivity].
      apply in_flat_map. exists (k, l). now split.
    - intros tbl cols col Ht Hcol. right. left. exists cols. now split. }
  unfold build_sql in H. rewrite Hb in H.
  unfold sanitize_identifier in H at 1.
  destruct (String.eqb b EmptyString); [now apply raise_ok in H|].
  destruct (PyRe.match_identifier b); [|now apply raise_ok in H].
  apply bind_ok in H. destruct H as (u & ca & Hloop & H).
  assert (Hca : cache_ok p ca).
  { eapply stable_run; [|exact Hc1|exact Hloop]. stabilise. }
  destruct (select_list _ (select_columns pq) []) as [select_parts group_by] eqn:Es.
  destruct (default_part set_iter p b pq dflt) as [[dw dp] da] eqn:Ed.
  apply bind_ok in H. destruct H as (ordered & cb & Hord & H).
  apply ret_ok in H. destruct H as [H _]. injection H as <- <- _.
  assert (Hd : exists fl,
             dw = map filter_clause fl
             /\ dp = map (fun tf => flt_value (snd tf)) fl
             /\ NoDup (map filter_key fl)
             /\ Forall (fun tf => exists flts,
                          dict_get (fst tf) (default_filters (cfg p)) = Some flts
                          /\ In (snd tf) flts) fl).
  { unfold default_part in Ed.
    destruct (dflt && negb (is_empty (default_filters (cfg p)))).
    - apply default_filters_spec in Ed.
      destruct Ed as (fl & E1 & E2 & _ & Hn & Hf & _). exists fl.
      repeat split; try assumption.
      eapply Forall_impl; [|exact Hf]. intros tf [_ Htf]. exact Htf.
    - injection Ed as <- <- _. exists []. repeat split; constructor. }
  destruct Hd as (fl & Hdw & Hdp & Hn & Hf).
  assert (Hordered : ordered = order_column p pq).
  { unfold order_column. destruct (order_by pq) as [o|]; cbn [truthy] in Hord.
    - destruct (String.eqb o EmptyString); cbn [negb] in Hord.
      + apply ret_ok in Hord. now destruct Hord.
      + symmetry. rewrite Hb. exact (resolved_run _ _ _ _ _ Hca Hord).
    - apply ret_ok in Hord. now destruct Hord. }
  exists os, fl, b.
  rewrite fragment_texts_app, fragment_params_app, default_fragment_texts,
    default_fragment_params, <- Hw, <- Hp, <- Hdw, <- Hdp, <- Hordered.
  split; [exact Hos|]. split; [exact Hf|]. split; [exact Hn|]. split.
  { apply Forall_app. split.
    - eapply bound_fragments_ok; eauto.
    - apply Forall_map. eapply Forall_impl; [|exact Hf].
      intros tf. apply default_fragment_ok. }
  split; [reflexivity|]. split; [exact Hb|]. split; [exact Hbin|].
  split; [exact Hsel|]. split; [exact Hdir|]. split.
  { intros ci Hci. rewrite Hordered in Hci. unfold order_column in Hci.
    destruct (order_by pq) as [o|]; [|discriminate].
    destruct (String.eqb o EmptyString); [discriminate|].
    exact (resolved_known _ _ _ Hci). }
  reflexivity.
Qed.

End Binding.

Lemma where_values_are_bound_witness :
  exists (outcomes : list (option fragment))
         (fl : list (string * default_filter)) (base : string),
    map (condition_fragment no_strptime filtered_parser (base_table bound_parsed))
        (where_conditions bound_query)
      = map Ok outcomes
    /\ Forall (fun tf => exists flts,
                 dict_get (fst tf) (default_filters (cfg filtered_parser))
                 = Some flts
                 /\ In (snd tf) flts) fl
    /\ NoDup (map filter_key fl)
    /\ Forall (fragment_ok filtered_parser)
              (bound_fragments outcomes ++ map default_fragment fl)
    /\ [VStr "3"; VStr "%j-17%"; VBool false]
       = fragment_params (bound_fragments outcomes ++ map default_fragment fl)
    /\ base_table bound_parsed = Some base
    /\ In base (map table (select_columns bound_parsed))
    /\ all_known filtered_parser (select_columns bound_parsed)
    /\ (order_dir bound_parsed = "ASC" \/ order_dir bound_parsed = "DESC")
    /\ (forall ci, order_column filtered_parser bound_parsed = Some ci ->
                   known_column filtered_parser (table ci) (column ci))
    /\ bound_sql
       = sql_text
           (fst (select_list
                   (existsb (fun c => truthy (aggregate c))
                            (select_columns bound_parsed))
                   (select_columns bound_parsed) []))
           base
           (_build_joins insertion_order filtered_parser base
              (tables_needed_of insertion_order bound_parsed))
           (fragment_texts
              (bound_fragments outcomes ++ map default_fragment fl))
           (snd (select_list
                   (existsb (fun c => truthy (aggregate c))
                            (select_columns bound_parsed))
                   (select_columns bound_parsed) []))
           (order_column filtered_parser bound_parsed)
           (order_dir bound_parsed) 1000.
Proof.
  apply (where_values_are_bound filtered_parser no_strptime insertion_order
           bound_query 1000 true [] [("salary", [])] [("salary", [])]
           bound_parsed bound_sql [VStr "3"; VStr "%j-17%"; VBool false]
           ["job.deleted=False"]).
  - intros k r H. discriminate.
  - vm_compute. reflexivity.
  - vm_compute. reflexivity.
Defined.
